(** * flsim: the asynchronous federated-learning server (server/async.py)

    A shallow embedding of [Group], [Record] and [AsyncServer] together
    with the part of the Python runtime the server leans on
    ([queue.PriorityQueue], that is [heapq], and tuple comparison).

    Conventions.
    - Python floats (simulated time, delays, tensor entries, mixing
      coefficients) are read as real numbers: arithmetic is exact.
    - Python ints ([num_samples], [rounds]) are [Z].
    - A Python exception is a value of [exn]; a call that may raise returns
      a [result].
    - A tensor is a value of a type with the four operations the server
      uses ([TensorOps]); shapes are not followed, the tensors that meet in
      an operation are taken to have one shape.
    - The collaborators that are not part of server/async.py (the client,
      [fl_model], [random]) enter as explicit oracles.
    - The routines that hand the clients their data ([set_client_data],
      [configuration], [async_configuration], the end of [make_clients])
      and the diagnostics ([save_reports], [flatten_weights]) are embedded
      on their own, the first as computations that record the calls they
      make on the loader, the clients and [random].  The snapshot files
      ([save_model], [async_save_model], [rm_old_models]) and the set-up of
      the collaborators ([boot], [load_data], [load_model], the first part
      of [make_clients]) are not embedded. *)

From Stdlib Require Import String Bool Arith ZArith Lia Reals Lra.
From Stdlib Require Import List Permutation Sorted.
From Stdlib Require Import DecimalString DecimalNat.
Import ListNotations.

Set Implicit Arguments.

(** ** Exceptions and results *)

Inductive exn : Type :=
| IndexError
| ZeroDivisionError
| AssertionError
| TypeError
| ValueError
| AttributeError
| NotImplementedError
| OutOfFuel      (* not a Python exception: the step budget of a loop of the
                    embedding ran out, the Python loop is still running *)
| OutsideModel.  (* not a Python exception: Python goes on with a value the
                    embedding does not represent (a complex number) *)

Inductive result (A : Type) : Type :=
| Ok (a : A)
| Raise (e : exn).

Arguments Ok {A} a.
Arguments Raise {A} e.

Definition bind {A B} (m : result A) (k : A -> result B) : result B :=
  match m with
  | Ok a => k a
  | Raise e => Raise e
  end.

Notation "x <- m ;; k" := (bind m (fun x => k))
  (at level 61, m at next level, right associativity).
Notation "' p <- m ;; k" := (bind m (fun p => k))
  (at level 61, p pattern, m at next level, right associativity).

(** The exceptions Python itself raises. *)
Definition python_exn (e : exn) : Prop := e <> OutOfFuel /\ e <> OutsideModel.

(** [m] ends in a Python exception: no value is returned. *)
Definition raises {A} (m : result A) : Prop :=
  exists e, m = Raise e /\ python_exn e.

Fixpoint mapM {A B} (f : A -> result B) (l : list A) : result (list B) :=
  match l with
  | [] => Ok []
  | a :: l' => b <- f a ;; bs <- mapM f l' ;; Ok (b :: bs)
  end.

(** ** Python lists *)

(** [l[i] = x] for an index in range (out of range Python raises; every use
    below is in range, [upd] then leaves the list as it is). *)
Fixpoint upd {A} (l : list A) (i : nat) (x : A) : list A :=
  match l, i with
  | [], _ => []
  | _ :: t, O => x :: t
  | h :: t, S i' => h :: upd t i' x
  end.

(** [l[i]], raising [IndexError] out of range. *)
Definition getitem {A} (l : list A) (i : nat) : result A :=
  match nth_error l i with
  | Some x => Ok x
  | None => Raise IndexError
  end.

(** ** heapq, as queue.PriorityQueue uses it *)

Section Heapq.

Variable A : Type.
(** Python's [a < b] on the queued items. *)
Variable lt : A -> A -> result bool.

(** The [while pos > startpos] loop of [_siftdown]; [pos] halves at every
    turn, so [pos] turns are enough. *)
Fixpoint siftdown_loop (fuel : nat) (heap : list A) (newitem : A)
         (startpos pos : nat) : result (list A) :=
  if (startpos <? pos)%nat then
    match fuel with
    | O => Raise OutOfFuel
    | S fuel' =>
        let parentpos := (pos - 1) / 2 in
        parent <- getitem heap parentpos ;;
        b <- lt newitem parent ;;
        if b : bool then
          siftdown_loop fuel' (upd heap pos parent) newitem startpos parentpos
        else Ok (upd heap pos newitem)
    end
  else Ok (upd heap pos newitem).

Definition _siftdown (heap : list A) (startpos pos : nat) : result (list A) :=
  newitem <- getitem heap pos ;;
  siftdown_loop pos heap newitem startpos pos.

(** The [while childpos < endpos] loop of [_siftup]: returns the heap and
    the leaf position the hole has reached. *)
Fixpoint siftup_loop (fuel : nat) (heap : list A) (endpos pos : nat)
  : result (list A * nat) :=
  let childpos := 2 * pos + 1 in
  if childpos <? endpos then
    match fuel with
    | O => Raise OutOfFuel
    | S fuel' =>
        let rightpos := childpos + 1 in
        childpos' <-
          (if rightpos <? endpos then
             l <- getitem heap childpos ;;
             r <- getitem heap rightpos ;;
             b <- lt l r ;;
             Ok (if b : bool then childpos else rightpos)
           else Ok childpos) ;;
        c <- getitem heap childpos' ;;
        siftup_loop fuel' (upd heap pos c) endpos childpos'
    end
  else Ok (heap, pos).

Definition _siftup (heap : list A) (pos : nat) : result (list A) :=
  let endpos := length heap in
  let startpos := pos in
  newitem <- getitem heap pos ;;
  '(heap1, pos1) <- siftup_loop endpos heap endpos pos ;;
  _siftdown (upd heap1 pos1 newitem) startpos pos1.

Definition heappush (heap : list A) (item : A) : result (list A) :=
  let heap := heap ++ [item] in
  _siftdown heap 0 (length heap - 1).

(** [heap.pop()]: the last element and the list without it. *)
Definition list_pop (heap : list A) : result (A * list A) :=
  match rev heap with
  | [] => Raise IndexError
  | lastelt :: r => Ok (lastelt, rev r)
  end.

Definition heappop (heap : list A) : result (A * list A) :=
  '(lastelt, heap) <- list_pop heap ;;
  match heap with
  | [] => Ok (lastelt, heap)
  | returnitem :: _ =>
      heap' <- _siftup (upd heap 0 lastelt) 0 ;;
      Ok (returnitem, heap')
  end.

End Heapq.

(** ** Group *)

Local Open Scope R_scope.

Record Group : Type := mkGroup {
  gid : nat;                       (* the identity of the Python object *)
  clients : list nat;              (* references to client objects *)
  download_time : option R;        (* unset until set_download_time *)
  aggregate_time : option R        (* unset until set_aggregate_time *)
}.

(** [(t1, g1) < (t2, g2)] on the queued tuples: the first items decide
    unless they are equal; then the groups are compared, and [Group] defines
    no ordering. *)
Definition entry_lt (a b : R * Group) : result bool :=
  if Req_dec_T (fst a) (fst b) then
    if Nat.eqb (gid (snd a)) (gid (snd b)) then Ok false
    else Raise TypeError
  else Ok (if Rlt_dec (fst a) (fst b) then true else false).

(** [max(l)] on a list of floats. *)
Definition py_max (l : list R) : result R :=
  match l with
  | [] => Raise ValueError
  | x :: l' => Ok (fold_left Rmax l' x)
  end.

(** [c.delay] for the clients of a group, read from the client objects;
    the attribute exists once [set_delay] has run. *)
Definition delays_of (delay : nat -> option R) (cs : list nat) : result (list R) :=
  mapM (fun c => match delay c with
                 | Some d => Ok d
                 | None => Raise AttributeError
                 end) cs.

Definition new_group (id : nat) (client_list : list nat) : Group :=
  mkGroup id client_list None None.

Definition set_download_time (g : Group) (t : R) : Group :=
  mkGroup (gid g) (clients g) (Some t) (aggregate_time g).

Definition set_aggregate_time (delay : nat -> option R) (g : Group) : result Group :=
  match download_time g with
  | None => Raise AttributeError
  | Some d =>
      ds <- delays_of delay (clients g) ;;
      m <- py_max ds ;;
      Ok (mkGroup (gid g) (clients g) (download_time g) (Some (d + m)))
  end.

Definition get_aggregate_time (g : Group) : result R :=
  match aggregate_time g with
  | Some t => Ok t
  | None => Raise AttributeError
  end.

Definition get_download_time (g : Group) : result R :=
  match download_time g with
  | Some t => Ok t
  | None => Raise AttributeError
  end.

(** ** Record *)

Record Records : Type := mkRecords {
  rec_t : list R;      (* self.t *)
  rec_acc : list R     (* self.acc *)
}.

Definition new_records : Records := mkRecords [] [].

Definition append_acc_record (r : Records) (t acc : R) : Records :=
  mkRecords (rec_t r ++ [t]) (rec_acc r ++ [acc]).

(** [l[-1]] *)
Definition last_item {A} (l : list A) : result A :=
  match rev l with
  | [] => Raise IndexError
  | x :: _ => Ok x
  end.

Definition get_latest_t (r : Records) : result R := last_item (rec_t r).
Definition get_latest_acc (r : Records) : result R := last_item (rec_acc r).

(** ** Tensors, weights and reports *)

(** What the server asks of a [torch.Tensor]. *)
Class TensorOps (T : Type) : Type := {
  zeros_like : T -> T;        (* torch.zeros(x.size()) *)
  tadd : T -> T -> T;         (* x + y *)
  tsub : T -> T -> T;         (* x - y *)
  tscale : T -> R -> T        (* x * c and c * x, c a Python float *)
}.

(** Single-scalar tensors. *)
#[export] Instance scalar_tensor : TensorOps R := {
  zeros_like := fun _ => 0;
  tadd := Rplus;
  tsub := Rminus;
  tscale := Rmult
}.

(** [fl_model.extract_weights(model)]: the named tensors, in order. *)
Definition Weights (T : Type) : Type := list (string * T).

Record Report (T : Type) : Type := mkReport {
  client_id : nat;
  weights : Weights T;
  num_samples : Z;
  accuracy : R
}.

Arguments mkReport {T}.

(** [sum([report.num_samples for report in reports])] *)
Definition total_samples_of {T} (reports : list (Report T)) : Z :=
  fold_left Z.add (map (@num_samples T) reports) 0%Z.

(** [num_samples / total_samples] on Python ints. *)
Definition py_div (n d : Z) : result R :=
  if (d =? 0)%Z then Raise ZeroDivisionError else Ok (IZR n / IZR d).

(** ** The staleness function *)

(** What [staleness] may return: [None], a float, or a complex number
    (whose value the embedding does not follow). *)
Inductive pyvalue : Type :=
| PyNone
| PyFloat (x : R)
| PyComplex.

(** [pow(x, y)] on floats, for the negative fractional [y] of the one call. *)
Definition py_pow (x y : R) : result pyvalue :=
  if Rlt_dec 0 x then Ok (PyFloat (Rpower x y))
  else if Req_dec_T x 0 then Raise ZeroDivisionError
  else Ok PyComplex.

(** [AsyncServer.staleness]; the argument is [None] when [aggregation] is
    called without it, the value is [None] when no branch returns. *)
Definition staleness (staleness_func : string) (s : option R) : result pyvalue :=
  if (staleness_func =? "constant")%string then Ok (PyFloat 1)
  else if (staleness_func =? "polynomial")%string then
    let a := 0.5 in
    match s with
    | None => Raise TypeError
    | Some s => py_pow (s + 1) (- a)
    end
  else if (staleness_func =? "hinge")%string then
    let a := 10 in
    let b := 4 in
    match s with
    | None => Raise TypeError
    | Some s =>
        if Rle_dec s b then Ok (PyFloat 1)
        else Ok (PyFloat (1 / (a * (s - b) + 1)))
    end
  else Ok PyNone.

(** ** Aggregation *)

Section Aggregation.

Context {T : Type} `{TensorOps T}.

(** The inner loop of [extract_client_updates] over one report, from
    position [i] on. *)
Fixpoint client_update (baseline_weights : Weights T) (i : nat)
         (weight : Weights T) : result (Weights T) :=
  match weight with
  | [] => Ok []
  | (name, w) :: rest =>
      '(bl_name, baseline) <- getitem baseline_weights i ;;
      if (name =? bl_name)%string then
        let delta := tsub w baseline in
        update <- client_update baseline_weights (S i) rest ;;
        Ok ((name, delta) :: update)
      else Raise AssertionError
  end.

Definition extract_client_updates (model : Weights T)
           (reports : list (Report T)) : result (list (Weights T)) :=
  let baseline_weights := model in
  let weights := map (@weights T) reports in
  mapM (client_update baseline_weights 0) weights.

Definition extract_client_weights (reports : list (Report T))
  : list (Weights T) :=
  map (@weights T) reports.

(** [for j, (_, x) in enumerate(update):
       acc[j] += x * (num_samples / total_samples)], from position [j]. *)
Fixpoint add_scaled (acc : list T) (j : nat) (update : Weights T)
         (num_samples total_samples : Z) : result (list T) :=
  match update with
  | [] => Ok acc
  | (_, x) :: rest =>
      a <- getitem acc j ;;
      c <- py_div num_samples total_samples ;;
      add_scaled (upd acc j (tadd a (tscale x c))) (S j) rest
                 num_samples total_samples
  end.

(** [for i, update in enumerate(updates):
       num_samples = reports[i].num_samples ...], from position [i]. *)
Fixpoint accumulate (acc : list T) (i : nat) (updates : list (Weights T))
         (reports : list (Report T)) (total_samples : Z) : result (list T) :=
  match updates with
  | [] => Ok acc
  | update :: rest =>
      r <- getitem reports i ;;
      acc' <- add_scaled acc 0 update (num_samples r) total_samples ;;
      accumulate acc' (S i) rest reports total_samples
  end.

(** [[torch.zeros(x.size()) for _, x in l[0]]] *)
Definition zeros_of_first (l : list (Weights T)) : result (list T) :=
  first <- getitem l 0 ;;
  Ok (map (fun nx => zeros_like (snd nx)) first).

(** The closing loop of both strategies:
    [updated_weights.append((name, f(weight, avg[i])))] for every baseline
    entry, from position [i]. *)
Fixpoint rebuild (f : T -> T -> result T) (baseline_weights : Weights T)
         (i : nat) (avg : list T) : result (Weights T) :=
  match baseline_weights with
  | [] => Ok []
  | (name, weight) :: rest =>
      a <- getitem avg i ;;
      v <- f weight a ;;
      updated <- rebuild f rest (S i) avg ;;
      Ok ((name, v) :: updated)
  end.

Definition federated_averaging (model : Weights T)
           (reports : list (Report T)) : result (Weights T) :=
  updates <- extract_client_updates model reports ;;
  let total_samples := total_samples_of reports in
  avg_update <- zeros_of_first updates ;;
  avg_update <- accumulate avg_update 0 updates reports total_samples ;;
  let baseline_weights := model in
  rebuild (fun weight a => Ok (tadd weight a)) baseline_weights 0 avg_update.

Definition federated_async (alpha : R) (staleness_func : string)
           (model : Weights T) (reports : list (Report T))
           (s : option R) : result (Weights T) :=
  let weights := extract_client_weights reports in
  let total_samples := total_samples_of reports in
  new_weights <- zeros_of_first weights ;;
  new_weights <- accumulate new_weights 0 weights reports total_samples ;;
  let baseline_weights := model in
  f <- staleness staleness_func s ;;
  alpha_t <- match f with
             | PyFloat f => Ok (Some (alpha * f))
             | PyComplex => Ok None       (* a complex coefficient *)
             | PyNone => Raise TypeError  (* float * None *)
             end ;;
  rebuild (fun weight nw =>
             match alpha_t with
             | Some alpha_t => Ok (tadd (tscale weight (1 - alpha_t))
                                        (tscale nw alpha_t))
             | None => Raise OutsideModel
             end)
          baseline_weights 0 new_weights.

Definition aggregation (sync_type : string) (alpha : R)
           (staleness_func : string) (model : Weights T)
           (reports : list (Report T)) (s : option R) : result (Weights T) :=
  if (sync_type =? "sync")%string then federated_averaging model reports
  else if (sync_type =? "async")%string then
    federated_async alpha staleness_func model reports s
  else Raise NotImplementedError.

(** [accuracy_averaging] *)
Fixpoint accuracy_loop (acc : R) (reports : list (Report T))
         (total_samples : Z) : result R :=
  match reports with
  | [] => Ok acc
  | report :: rest =>
      c <- py_div (num_samples report) total_samples ;;
      accuracy_loop (acc + accuracy report * c) rest total_samples
  end.

Definition accuracy_averaging (reports : list (Report T)) : result R :=
  let total_samples := total_samples_of reports in
  accuracy_loop 0 reports total_samples.

End Aggregation.

(** ** The server *)

(** The run-level parameters read from [self.config]. *)
Record Config : Type := mkConfig {
  rounds : Z;                      (* config.fl.rounds *)
  target_accuracy : option R;      (* config.fl.target_accuracy *)
  sync_type : string;              (* config.sync.type *)
  alpha : R;                       (* config.sync.alpha *)
  staleness_func : string;         (* config.sync.staleness_func *)
  interval : R;                    (* config.sync.interval *)
  do_test : bool                   (* config.clients.do_test *)
}.

(** The mutable state a run touches.  Snapshot files and the optional
    diagnostic reports are written and never read back by the rounds; they
    are left out. *)
Record Server (T : Type) : Type := mkServer {
  model : Weights T;               (* self.model, as extract_weights sees it *)
  records : Records;               (* self.records *)
  delay : nat -> option R;         (* the delay attribute of each client *)
  draws : nat;                     (* calls of client.set_delay so far *)
  passes : nat;                    (* training passes so far *)
  log : list (list nat * R)        (* 'Training finished on clients {}',
                                      'At time {} s' *)
}.

Arguments mkServer {T}.

(** Stateful, fallible computations: the state at the point of a raise is
    kept. *)
Definition M (S A : Type) : Type := S -> result A * S.

Definition ret {S A} (a : A) : M S A := fun s => (Ok a, s).

Definition bindM {S A B} (m : M S A) (k : A -> M S B) : M S B :=
  fun s => match m s with
           | (Ok a, s') => k a s'
           | (Raise e, s') => (Raise e, s')
           end.

Definition lift {S A} (r : result A) : M S A := fun s => (r, s).

Definition gets {S A} (f : S -> A) : M S A := fun s => (Ok (f s), s).

Definition modify {S} (f : S -> S) : M S unit := fun s => (Ok tt, f s).

Notation "x <<- m ;; k" := (bindM m (fun x => k))
  (at level 61, m at next level, right associativity).
Notation "' p <<- m ;; k" := (bindM m (fun p => k))
  (at level 61, p pattern, m at next level, right associativity).
Notation "m ;;; k" := (bindM m (fun _ => k))
  (at level 61, right associativity).

Fixpoint mapi_from {A B} (i : nat) (f : nat -> A -> B) (l : list A) : list B :=
  match l with
  | [] => []
  | a :: l' => f i a :: mapi_from (S i) f l'
  end.

Section AsyncServer.

Context {T : Type} `{TensorOps T}.

Variable config : Config.

(** The collaborators.
    - [sample_delay c k]: the delay [client.set_delay()] gives client [c]
      when it is the [k]-th call of [set_delay] in the run.
    - [random_sample r]: [random.sample(self.clients, per_round)] of round
      [r], a list of distinct clients.
    - [get_report k c]: the report of client [c] after training pass [k].
    - [test_model w]: [fl_model.test] on the global model [w]. *)
Variable sample_delay : nat -> nat -> R.
Variable random_sample : nat -> list nat.
Variable get_report : nat -> nat -> Report T.
Variable test_model : Weights T -> R.

Local Abbreviation St := (Server T).

(** Modelled from the spec: [client.set_delay()], of the client module
    that is not among the sources, resamples the delay of the client;
    nothing else of the client changes it ([delay] is read-only). *)
Definition set_delay (c : nat) : M St unit :=
  modify (fun s =>
    mkServer (model s) (records s)
             (fun c' => if Nat.eqb c' c then Some (sample_delay c (draws s))
                        else delay s c')
             (S (draws s)) (passes s) (log s)).

(** Modelled from the spec: [fl_model.load_weights(self.model,
    updated_weights)], of a module that is not among the sources; the
    result of the aggregation replaces the global model. *)
Definition load_weights (w : Weights T) : M St unit :=
  modify (fun s =>
    mkServer w (records s) (delay s) (draws s) (passes s) (log s)).

Definition set_records (r : Records) : M St unit :=
  modify (fun s =>
    mkServer (model s) r (delay s) (draws s) (passes s) (log s)).

Definition log_finished (cs : list nat) (t : R) : M St unit :=
  modify (fun s =>
    mkServer (model s) (records s) (delay s) (draws s) (passes s)
             (log s ++ [(cs, t)])).

(** Modelled from the spec: one training pass, [client.run] on every
    client of the batch (the client module is not among the sources); it
    leaves the server's model, its records and the delays alone, and each
    client then holds one report.  The value is the number of the pass. *)
Definition train : M St nat :=
  fun s => (Ok (passes s),
            mkServer (model s) (records s) (delay s) (draws s)
                     (S (passes s)) (log s)).

(** [self.reporting]: the reports of pass [k]. *)
Definition reporting (k : nat) (sample_clients : list nat)
  : list (Report T) :=
  map (get_report k) sample_clients.

Definition selection (round : nat) : list Group :=
  let sample_clients := random_sample round in
  mapi_from 0 (fun i client => new_group i [client]) sample_clients.

(** [for client in group.clients: client.set_delay()] *)
Fixpoint set_delays (cs : list nat) : M St unit :=
  match cs with
  | [] => ret tt
  | c :: cs' => set_delay c ;;; set_delays cs'
  end.

(** The loop that opens both rounds: the groups with their times set, and
    [sample_clients]. *)
Fixpoint start_groups (T_old : R) (sample_groups : list Group)
  : M St (list Group * list nat) :=
  match sample_groups with
  | [] => ret ([], [])
  | group :: rest =>
      set_delays (clients group) ;;;
      let group := set_download_time group T_old in
      group <<- (fun s => (set_aggregate_time (delay s) group, s)) ;;
      '(groups, sample_clients) <<- start_groups T_old rest ;;
      ret (group :: groups, clients group ++ sample_clients)
  end.

(** The accuracy of the new global model. *)
Definition evaluate (reports : list (Report T)) : M St R :=
  if do_test config then lift (accuracy_averaging reports)
  else gets (fun s => test_model (model s)).

Definition aggregate (reports : list (Report T)) (s : option R)
  : M St (Weights T) :=
  m <<- gets (@model T) ;;
  lift (aggregation (sync_type config) (alpha config)
                    (staleness_func config) m reports s).

Definition sync_round (round : nat) (T_old : R) : M St (R * R) :=
  let sample_groups := selection round in
  '(_, sample_clients) <<- start_groups T_old sample_groups ;;
  ds <<- (fun s => (delays_of (delay s) sample_clients, s)) ;;
  max_delay <<- lift (py_max ds) ;;
  k <<- train ;;
  let T_cur := T_old + max_delay in
  let reports := reporting k sample_clients in
  updated_weights <<- aggregate reports None ;;
  load_weights updated_weights ;;;
  accuracy <<- evaluate reports ;;
  rs <<- gets (@records T) ;;
  set_records (append_acc_record rs T_cur accuracy) ;;;
  ret (accuracy, T_cur).

(** [queue.put((group.aggregate_time, group))] *)
Definition queue_put (queue : list (R * Group)) (group : Group)
  : result (list (R * Group)) :=
  t <- get_aggregate_time group ;;
  heappush entry_lt queue (t, group).

Fixpoint put_all (queue : list (R * Group)) (groups : list Group)
  : result (list (R * Group)) :=
  match groups with
  | [] => Ok queue
  | group :: rest => queue <- queue_put queue group ;; put_all queue rest
  end.

(** One turn of the [while not queue.empty()] loop; the queue it leaves. *)
Definition async_iteration (T_old T_async : R) (queue : list (R * Group))
  : M St (list (R * Group)) :=
  '(item, queue) <<- lift (heappop entry_lt queue) ;;
  let select_group := snd item in
  let select_clients := clients select_group in
  download <<- lift (get_download_time select_group) ;;
  k <<- train ;;
  T_cur <<- lift (get_aggregate_time select_group) ;;
  log_finished select_clients T_cur ;;;
  let reports := reporting k select_clients in
  let staleness := T_cur - download in
  updated_weights <<- aggregate reports (Some staleness) ;;
  load_weights updated_weights ;;;
  accuracy <<- evaluate reports ;;
  rs <<- gets (@records T) ;;
  set_records (append_acc_record rs T_cur accuracy) ;;;
  if Rle_dec (T_cur - T_old) T_async then
    let select_group := set_download_time select_group T_cur in
    select_group <<- (fun s => (set_aggregate_time (delay s) select_group, s)) ;;
    lift (queue_put queue select_group)
  else ret queue.

Fixpoint async_loop (fuel : nat) (T_old T_async : R)
         (queue : list (R * Group)) : M St unit :=
  match queue with
  | [] => ret tt
  | _ :: _ =>
      match fuel with
      | O => lift (Raise OutOfFuel)
      | S fuel' =>
          queue <<- async_iteration T_old T_async queue ;;
          async_loop fuel' T_old T_async queue
      end
  end.

Definition async_round (fuel : nat) (round : nat) (T_old T_async : R)
  : M St (R * R) :=
  let sample_groups := selection round in
  '(sample_groups, _) <<- start_groups T_old sample_groups ;;
  queue <<- lift (put_all [] sample_groups) ;;
  async_loop fuel T_old T_async queue ;;;
  rs <<- gets (@records T) ;;
  acc <<- lift (get_latest_acc rs) ;;
  t <<- lift (get_latest_t rs) ;;
  ret (acc, t).

(** [target_accuracy and (accuracy >= target_accuracy)] *)
Definition target_reached (accuracy : R) : bool :=
  match target_accuracy config with
  | None => false
  | Some target =>
      if Req_dec_T target 0 then false
      else if Rge_dec accuracy target then true else false
  end.

(** The [for round in range(1, rounds + 1)] loop, over the rounds left. *)
Fixpoint run_rounds (fuel : nat) (todo : list nat) (T_old : R) : M St unit :=
  match todo with
  | [] => ret tt
  | round :: rest =>
      '(accuracy, T_new) <<-
        (if (sync_type config =? "sync")%string then sync_round round T_old
         else if (sync_type config =? "async")%string then
           let T_async := interval config in
           async_round fuel round T_old T_async
         else lift (Raise NotImplementedError)) ;;
      let T_old := T_new in
      if target_reached accuracy then ret tt
      else run_rounds fuel rest T_old
  end.

(** [AsyncServer.run]; [fuel] bounds the turns of each async round. *)
Definition run (fuel : nat) : M St unit :=
  set_records new_records ;;;
  let T_old := 0 in
  run_rounds fuel (seq 1 (Z.to_nat (rounds config))) T_old.

End AsyncServer.

(** ** Data partitions for the clients *)

(** What [set_client_data] and the configuration routines read from
    [self.config]. *)
Record DataConfig : Type := mkDataConfig {
  loader : string;                    (* config.loader *)
  loading : string;                   (* config.data.loading *)
  partition_size : option Z;          (* config.data.partition.get('size') *)
  partition_range : option (Z * Z)    (* config.data.partition.get('range') *)
}.

(** The calls these routines make on their collaborators (the loader, the
    clients, [random], [logging]), in the order they are made.  The
    collaborators are not among the sources: their calls are recorded and
    taken to return. *)
Inductive call : Type :=
| CreateShards                          (* self.loader.create_shards() *)
| RandInt (start stop : Z)              (* random.randint(start, stop) *)
| GetPartition (size : Z)               (* self.loader.get_partition(size) *)
| GetBiasPartition (size : Z) (client : nat)
                                        (* ...get_partition(size, client.pref),
                                           the preference of the client
                                           taken to be set *)
| GetShardPartition                     (* self.loader.get_partition() *)
| LogCritical                           (* logging.critical(...) *)
| SetData (client : nat)                (* client.set_data(data, config) *)
| Configure (client : nat)              (* client.configure(config) *)
| AsyncConfigure (client : nat) (download_time : R).
                                        (* client.async_configure(config, t) *)

(** The exceptions of these routines. *)
Inductive setup_exn : Type :=
| UnboundLocalError (variable : string) (* a local read before it is bound *)
| EmptyRange.                           (* ValueError: random.randint(a, b)
                                           with b < a *)

Inductive setup_result (A : Type) : Type :=
| Done (a : A)
| Failed (e : setup_exn).

Arguments Done {A} a.
Arguments Failed {A} e.

(** Computations that extend the record of calls. *)
Definition Setup (A : Type) : Type := list call -> setup_result A * list call.

Definition and_then {A B} (m : Setup A) (k : A -> Setup B) : Setup B :=
  fun trace => match m trace with
               | (Done a, trace') => k a trace'
               | (Failed e, trace') => (Failed e, trace')
               end.

Definition emit (c : call) : Setup unit :=
  fun trace => (Done tt, trace ++ [c]).

Section DataLoading.

Variable cfg : DataConfig.

(** [randint start stop k]: what [random.randint(start, stop)] returns
    when [k] calls have been recorded. *)
Variable randint : Z -> Z -> nat -> Z.

(** [elif partition.get('range')]: the local [partition_size], [None]
    while it is unbound. *)
Definition size_from_range : Setup (option Z) :=
  match partition_range cfg with
  | Some (start, stop) =>
      fun trace =>
        if (stop <? start)%Z then (Failed EmptyRange, trace ++ [RandInt start stop])
        else (Done (Some (randint start stop (length trace))),
              trace ++ [RandInt start stop])
  | None => fun trace => (Done None, trace)
  end.

(** [if loader != 'shard': ...]; a size of 0 is false. *)
Definition choose_partition_size : Setup (option Z) :=
  if (loader cfg =? "shard")%string then fun trace => (Done None, trace)
  else
    match partition_size cfg with
    | Some n => if (n =? 0)%Z then size_from_range
                else fun trace => (Done (Some n), trace)
    | None => size_from_range
    end.

(** A local variable is read. *)
Definition read_local {A} (variable : string) (v : option A) : Setup A :=
  fun trace => match v with
               | Some a => (Done a, trace)
               | None => (Failed (UnboundLocalError variable), trace)
               end.

(** [set_client_data]; the local [data] is [None] while it is unbound. *)
Definition set_client_data (client : nat) : Setup unit :=
  and_then choose_partition_size (fun partition_size =>
  and_then
    (if (loader cfg =? "basic")%string then
       and_then (read_local "partition_size" partition_size) (fun n =>
       and_then (emit (GetPartition n)) (fun _ trace => (Done (Some tt), trace)))
     else if (loader cfg =? "bias")%string then
       and_then (read_local "partition_size" partition_size) (fun n =>
       and_then (emit (GetBiasPartition n client))
                (fun _ trace => (Done (Some tt), trace)))
     else if (loader cfg =? "shard")%string then
       and_then (emit GetShardPartition) (fun _ trace => (Done (Some tt), trace))
     else
       and_then (emit LogCritical) (fun _ trace => (Done None, trace)))
    (fun data =>
  and_then (read_local "data" data) (fun _ =>
  emit (SetData client)))).

(** The loop of [configuration] and of [async_configuration], which differ
    in the call that ends each turn. *)
Fixpoint configure_clients (final : nat -> call) (sample_clients : list nat)
  : Setup unit :=
  match sample_clients with
  | [] => fun trace => (Done tt, trace)
  | client :: rest =>
      and_then (if (loading cfg =? "dynamic")%string then set_client_data client
                else fun trace => (Done tt, trace)) (fun _ =>
      and_then (emit (final client)) (fun _ =>
      configure_clients final rest))
  end.

(** [if loading == 'dynamic': if loader_type == 'shard': create_shards()] *)
Definition create_shards_when (mode : string) : Setup unit :=
  if (loading cfg =? mode)%string then
    if (loader cfg =? "shard")%string then emit CreateShards
    else fun trace => (Done tt, trace)
  else fun trace => (Done tt, trace).

Definition configuration (sample_clients : list nat) : Setup unit :=
  and_then (create_shards_when "dynamic") (fun _ =>
  configure_clients Configure sample_clients).

Definition async_configuration (sample_clients : list nat) (download_time : R)
  : Setup unit :=
  and_then (create_shards_when "dynamic") (fun _ =>
  configure_clients (fun c => AsyncConfigure c download_time) sample_clients).

(** The end of [make_clients]: with static loading every client is sent
    its data once, when the clients are made. *)
Fixpoint send_all (clients : list nat) : Setup unit :=
  match clients with
  | [] => fun trace => (Done tt, trace)
  | client :: rest => and_then (set_client_data client) (fun _ => send_all rest)
  end.

Definition static_loading (clients : list nat) : Setup unit :=
  if (loading cfg =? "static")%string then
    and_then (create_shards_when "static") (fun _ => send_all clients)
  else fun trace => (Done tt, trace).

End DataLoading.

(** ** The diagnostic reports *)

(** [d[key] = value] on a Python dict, which keeps the order in which its
    keys were first set. *)
Fixpoint dict_set {V} (key : string) (value : V) (d : list (string * V))
  : list (string * V) :=
  match d with
  | [] => [(key, value)]
  | (k, v) :: rest =>
      if (k =? key)%string then (key, value) :: rest
      else (k, v) :: dict_set key value rest
  end.

(** [d.get(key)] *)
Fixpoint dict_get {V} (key : string) (d : list (string * V)) : option V :=
  match d with
  | [] => None
  | (k, v) :: rest => if (k =? key)%string then Some v else dict_get key rest
  end.

(** [prefix + '{}'.format(n)] for an int that is not negative. *)
Definition format_int (prefix : string) (n : nat) : string :=
  (prefix ++ NilEmpty.string_of_uint (Nat.to_uint n))%string.

(** What [saved_reports] holds under a key: the flattened weights of the
    clients of a batch, or those of the global model. *)
Inductive saved : Type :=
| ClientVectors (vectors : list (nat * list R))
| GlobalVector (vector : list R).

Section Diagnostics.

Context {T : Type}.

(** [weight.flatten().tolist()] on a tensor. *)
Variable tolist : T -> list R.

(** [flatten_weights]; the [np.array] it returns is read as the list. *)
Definition flatten_weights (weights : Weights T) : list R :=
  fold_left (fun weight_vecs nw => weight_vecs ++ tolist (snd nw)) weights [].

(** [save_reports]; [model] is [fl_model.extract_weights(self.model)]. *)
Definition save_reports (round : nat) (reports : list (Report T))
           (model : Weights T) (saved_reports : list (string * saved))
  : list (string * saved) :=
  let saved_reports :=
    match reports with
    | [] => saved_reports
    | _ :: _ =>
        dict_set (format_int "round" round)
                 (ClientVectors
                    (map (fun report =>
                            (client_id report,
                             flatten_weights (weights report))) reports))
                 saved_reports
    end in
  dict_set (format_int "w" round) (GlobalVector (flatten_weights model))
           saved_reports.

End Diagnostics.

(** * Specification-level definitions *)

(** ** The heap invariant of heapq *)

Section HeapInvariant.

Variable A : Type.
Variable key : A -> R.

(** Every element is at least its parent, the element at [(i - 1) >> 1]. *)
Definition heap_ordered (h : list A) : Prop :=
  forall i a b, (0 < i)%nat ->
    nth_error h i = Some a -> nth_error h ((i - 1) / 2) = Some b ->
    key b <= key a.

(** [h] is heap ordered except around the position [pos], whose content is
    about to be overwritten: no condition mentions the element at [pos],
    and its children are at least its parent. *)
Definition hole_ok (h : list A) (pos : nat) : Prop :=
  (forall i a b, (0 < i)%nat -> i <> pos -> ((i - 1) / 2)%nat <> pos ->
     nth_error h i = Some a -> nth_error h ((i - 1) / 2) = Some b ->
     key b <= key a) /\
  (forall i a b, (0 < i)%nat -> (0 < pos)%nat -> ((i - 1) / 2 = pos)%nat ->
     nth_error h i = Some a -> nth_error h ((pos - 1) / 2) = Some b ->
     key b <= key a).

(** [x] may be written above the children of [pos]. *)
Definition below_ok (h : list A) (pos : nat) (x : A) : Prop :=
  forall i a, (0 < i)%nat -> ((i - 1) / 2 = pos)%nat ->
    nth_error h i = Some a -> key x <= key a.

(** [a] and [b] are two different entries of [l]. *)
Definition two_of (a b : A) (l : list A) : Prop :=
  exists l', Permutation l (a :: b :: l').

(** Python's [a < b] on the entries. *)
Variable lt : A -> A -> result bool.

(** What a sift may answer when it started from the entries [full]: a heap
    with the same entries, or the exception of a comparison between two of
    them. *)
Definition sift_post (full : list A) (r : result (list A)) : Prop :=
  match r with
  | Ok h' => heap_ordered h' /\ Permutation h' full
  | Raise e => exists a b, two_of a b full /\ lt a b = Raise e
  end.

(** What the first loop of [_siftup] may answer: the hole has reached a
    leaf, or a comparison raised. *)
Definition siftup_post (h : list A) (pos : nat) (x : A)
           (r : result (list A * nat)) : Prop :=
  match r with
  | Ok (h1, pos1) =>
      length h1 = length h /\ (pos1 < length h)%nat /\ hole_ok h1 pos1 /\
      (length h <= 2 * pos1 + 1)%nat /\
      Permutation (upd h1 pos1 x) (upd h pos x)
  | Raise e => exists a b, two_of a b (upd h pos x) /\ lt a b = Raise e
  end.

(** What [heappop] may answer on a heap. *)
Definition pop_post (h : list A) (r : result (A * list A)) : Prop :=
  match r with
  | Ok (x, h') =>
      heap_ordered h' /\ Permutation h (x :: h') /\
      (forall a, In a h -> key x <= key a)
  | Raise e =>
      (h = [] /\ e = IndexError) \/
      (exists a b, two_of a b h /\ lt a b = Raise e)
  end.

End HeapInvariant.

(** ** What the aggregation strategies are to compute *)

Section AggregationSpec.

Context {T : Type} `{TensorOps T}.

(** The tensor a weight list carries at position [j] ([d] when it has
    none). *)
Definition tensor_at (j : nat) (w : Weights T) (d : T) : T :=
  match nth_error w j with
  | Some (_, x) => x
  | None => d
  end.

(** [z + sum_i x_i * (n_i / total)], summed in the order of the reports. *)
Definition weighted_sum (total : Z) (terms : list (T * Z)) (z : T) : T :=
  fold_left (fun acc xn => tadd acc (tscale (fst xn) (IZR (snd xn) / IZR total)))
            terms z.

(** The deltas of position [j] against [baseline], with the sample counts. *)
Definition delta_terms (j : nat) (baseline : T) (reports : list (Report T))
  : list (T * Z) :=
  map (fun r => (tsub (tensor_at j (weights r) baseline) baseline,
                 num_samples r)) reports.

(** The raw weights of position [j], with the sample counts. *)
Definition weight_terms (j : nat) (baseline : T) (reports : list (Report T))
  : list (T * Z) :=
  map (fun r => (tensor_at j (weights r) baseline, num_samples r)) reports.

(** The zero tensor a sum starts from: it has the shape of the first term. *)
Definition zero_of (terms : list (T * Z)) (d : T) : T :=
  match terms with
  | [] => d
  | (x, _) :: _ => zeros_like x
  end.

(** Sync: [baseline + sum_i (weight_i - baseline) * (n_i / total)] for
    every named tensor of the global model. *)
Definition averaging_spec (model : Weights T) (reports : list (Report T))
  : Weights T :=
  let total := total_samples_of reports in
  mapi_from 0
    (fun j nb =>
       let terms := delta_terms j (snd nb) reports in
       (fst nb, tadd (snd nb) (weighted_sum total terms (zero_of terms (snd nb)))))
    model.

(** Async: [(1 - alpha_t) * baseline + alpha_t * new_weight], [new_weight]
    the sample-weighted mean of the raw reported weights. *)
Definition blending_spec (alpha_t : R) (model : Weights T)
           (reports : list (Report T)) : Weights T :=
  let total := total_samples_of reports in
  mapi_from 0
    (fun j nb =>
       let terms := weight_terms j (snd nb) reports in
       let new_weight := weighted_sum total terms (zero_of terms (snd nb)) in
       (fst nb, tadd (tscale (snd nb) (1 - alpha_t)) (tscale new_weight alpha_t)))
    model.

(** One turn of the accumulation loops, as a function on lists. *)
Fixpoint add_col (c : R) (acc xs : list T) : list T :=
  match acc, xs with
  | a :: acc', x :: xs' => tadd a (tscale x c) :: add_col c acc' xs'
  | _, _ => acc
  end.

(** The accumulation over all reports, as a fold. *)
Definition add_cols (total : Z) (acc : list T)
           (cols : list (Weights T * Report T)) : list T :=
  fold_left (fun acc ur =>
               add_col (IZR (num_samples (snd ur)) / IZR total) acc
                       (map snd (fst ur)))
            cols acc.

(** What [extract_client_updates] is to give for one report. *)
Definition deltas_from (i : nat) (model w : Weights T) : Weights T :=
  mapi_from i
    (fun j nx => (fst nx, tsub (snd nx) (tensor_at j model (snd nx)))) w.

(** The reports carry the tensor names of the model, in its order. *)
Definition same_names (model : Weights T) (reports : list (Report T)) : Prop :=
  Forall (fun r => map fst (weights r) = map fst model) reports.

(** The reports list as many tensors as the model. *)
Definition same_layout (model : Weights T) (reports : list (Report T)) : Prop :=
  Forall (fun r => length (weights r) = length model) reports.

End AggregationSpec.

(** The sync scenario: three clients, sample counts 10, 20, 30, scalar
    deltas 1, 2, 3 against the baseline 0. *)
Definition scenario_model : Weights R := [("w"%string, 0)].
Definition scenario_reports : list (Report R) :=
  [ mkReport 0 [("w"%string, 1)] 10 1;
    mkReport 1 [("w"%string, 2)] 20 1;
    mkReport 2 [("w"%string, 3)] 30 1 ].

(** ** The states of a round *)

Section RoundStates.

Context {T : Type}.

(** The state after a completed turn of the async loop that popped a group
    with clients [cs] at time [t]. *)
Definition after_turn (s : Server T) (updated : Weights T) (cs : list nat)
           (t acc : R) : Server T :=
  mkServer updated (append_acc_record (records s) t acc) (delay s) (draws s)
           (S (passes s)) (log s ++ [(cs, t)]).

(** Every delay a client object holds is non-negative. *)
Definition delays_nonneg (s : Server T) : Prop :=
  forall c d, delay s c = Some d -> 0 <= d.

(** The times recorded and the times logged since the log was [l0] are
    non-decreasing. *)
Definition monotone (l0 : list (list nat * R)) (s : Server T) : Prop :=
  StronglySorted Rle (rec_t (records s)) /\
  exists l, log s = l0 ++ l /\ StronglySorted Rle (map snd l).

(** ... and none of them is later than [b]. *)
Definition times_ok (l0 : list (list nat * R)) (b : R) (s : Server T) : Prop :=
  StronglySorted Rle (rec_t (records s)) /\
  Forall (fun t => t <= b) (rec_t (records s)) /\
  exists l, log s = l0 ++ l /\ StronglySorted Rle (map snd l) /\
            Forall (fun t => t <= b) (map snd l).

(** The queue is a heap of tuples [(group.aggregate_time, group)], none
    earlier than [b]. *)
Definition queue_ok (b : R) (q : list (R * Group)) : Prop :=
  heap_ordered fst q /\
  Forall (fun e => b <= fst e /\ aggregate_time (snd e) = Some (fst e)) q.

(** Between two rounds: the latest record, if any, is the current time. *)
Definition between_rounds (l0 : list (list nat * R)) (T_old : R)
           (s : Server T) : Prop :=
  times_ok l0 T_old s /\ delays_nonneg s /\
  (rec_t (records s) = [] \/ last_item (rec_t (records s)) = Ok T_old).

(** Inside an async round started at [T_old] in state [s0]: [b] is the
    time of the latest turn, or [T_old] before the first. *)
Definition in_round (l0 : list (list nat * R)) (T_old : R) (s0 : Server T)
           (q : list (R * Group)) (s : Server T) : Prop :=
  exists b,
    queue_ok b q /\ times_ok l0 b s /\ delays_nonneg s /\
    ((b = T_old /\ records s = records s0 /\ log s = log s0) \/
     last_item (rec_t (records s)) = Ok b).

End RoundStates.

(** ** The turns of an async round *)

Section Turns.

Context {T : Type} `{TensorOps T}.

Variable config : Config.
Variable sample_delay : nat -> nat -> R.
Variable random_sample : nat -> list nat.
Variable get_report : nat -> nat -> Report T.
Variable test_model : Weights T -> R.

(** The queue and the state when the [while] loop of [async_round] is
    entered. *)
Definition round_start (round : nat) (T_old : R) (s : Server T)
           (x : list (R * Group) * Server T) : Prop :=
  exists gs cs,
    start_groups sample_delay T_old (selection random_sample round) s
    = (Ok (gs, cs), snd x) /\
    put_all [] gs = Ok (fst x).

(** [turns x y]: completed turns of the loop lead from the queue and state
    [x] to [y]. *)
Inductive turns (T_old T_async : R)
  : list (R * Group) * Server T -> list (R * Group) * Server T -> Prop :=
| turns_refl x : turns T_old T_async x x
| turns_step q s q' s' y :
    async_iteration config get_report test_model T_old T_async q s
    = (Ok q', s') ->
    turns T_old T_async (q', s') y ->
    turns T_old T_async (q, s) y.

(** The largest delay among the clients of [g], as the client objects hold
    it in state [s]. *)
Definition max_delay (s : Server T) (g : Group) : result R :=
  ds <- delays_of (delay s) (clients g) ;; py_max ds.

(** Every queued group was downloaded at some [d] and is due at [d] plus
    the largest delay of its clients. *)
Definition due_ok (s : Server T) (q : list (R * Group)) : Prop :=
  Forall (fun e => exists d m,
            download_time (snd e) = Some d /\
            aggregate_time (snd e) = Some (d + m) /\
            max_delay s (snd e) = Ok m) q.

(** What every turn keeps. *)
Definition queue_due (q : list (R * Group)) (s : Server T) : Prop :=
  heap_ordered fst q /\ due_ok s q /\
  Forall (fun e => aggregate_time (snd e) = Some (fst e)) q.

(** Inside a round that selected [sample], with the log [l0] at its start:
    every selected client has been through a turn or its group is queued. *)
Definition all_served (l0 : list (list nat * R)) (sample : list nat)
           (q : list (R * Group)) (s : Server T) : Prop :=
  heap_ordered fst q /\
  exists l, log s = l0 ++ l /\
    forall c, In c sample ->
      (exists t, In ([c], t) l) \/
      (exists e, In e q /\ clients (snd e) = [c]).

End Turns.

(** ** Concrete runs *)

(** An async configuration with full trust ([alpha = 1], 'constant') and
    the window [T_async]; one round, accuracy evaluated on the server. *)
Definition async_config (T_async : R) : Config :=
  mkConfig 1 None "async" 1 "constant" T_async false.

(** Every [set_delay] gives the delay [d]. *)
Definition constant_delay (d : R) (c k : nat) : R := d.

(** The first [set_delay] of a run gives 2, every later one 7. *)
Definition two_draws (c k : nat) : R :=
  match k with
  | O => 2
  | S _ => 7
  end.

(** Every round selects the clients [0 .. n-1]. *)
Definition first_clients (n : nat) (round : nat) : list nat := seq 0 n.

(** Every client reports the scalar weight 1 from one sample. *)
Definition unit_report (k c : nat) : Report R :=
  mkReport c [("w"%string, 1)] 1 1.

Definition fixed_accuracy (w : Weights R) : R := 0.5.

Definition fresh_server : Server R :=
  mkServer [("w"%string, 0)] new_records (fun _ => None) 0 0 [].

(** A model with two tensors and a report that carries only the first. *)
Definition two_tensor_model : Weights R := [("w"%string, 0); ("b"%string, 0)].
Definition short_report : Report R := mkReport 0 [("w"%string, 1)] 1 1.

(** A model without tensors and a report without samples. *)
Definition empty_model : Weights R := [].
Definition empty_report : Report R := mkReport 0 [] 0 1.

(** A report that names its only tensor "b" where the model has "w". *)
Definition renamed_report : Report R := mkReport 0 [("b"%string, 1)] 1 1.

(** The group and the server once a round of one client, drawn the delay
    [d], has started at time 0. *)
Definition started_group (d : R) : Group :=
  mkGroup 0 [0%nat] (Some 0) (Some (0 + d)).
Definition started_server (d : R) : Server R :=
  mkServer [("w"%string, 0)] new_records
           (fun c' => if Nat.eqb c' 0 then Some d else None) 1 0 [].

(** The same group re-enqueued after its first turn at time [0 + d], and
    the server after that turn. *)
Definition requeued_group (d : R) : Group :=
  mkGroup 0 [0%nat] (Some (0 + d)) (Some (0 + d + d)).
Definition first_turn_server (d : R) : Server R :=
  after_turn (started_server d)
             [("w"%string, 0 * (1 - 1 * 1) + (0 + 1 * (1 / 1)) * (1 * 1))]
             [0%nat] (0 + d) 0.5.

(** ** The order of the queue *)

(** [while not queue.empty(): queue.get()]: the tuples in the order in
    which they come out. *)
Fixpoint get_all (fuel : nat) (queue : list (R * Group))
  : result (list (R * Group)) :=
  match queue with
  | [] => Ok []
  | _ :: _ =>
      match fuel with
      | O => Raise OutOfFuel
      | S fuel' =>
          '(x, queue) <- heappop entry_lt queue ;;
          rest <- get_all fuel' queue ;;
          Ok (x :: rest)
      end
  end.

(** The time a group is queued under ([aggregate_time], once set). *)
Definition due (g : Group) : R :=
  match aggregate_time g with
  | Some t => t
  | None => 0
  end.

(** Groups due at 5, 2 and 7. *)
Definition group_due (id : nat) (t : R) : Group :=
  mkGroup id [id] (Some 0) (Some t).
Definition three_groups : list Group :=
  [group_due 0 5; group_due 1 2; group_due 2 7].
Definition three_groups_shuffled : list Group :=
  [group_due 2 7; group_due 0 5; group_due 1 2].

(** ** Further specification-level definitions *)

(** The sum of the sample counts of weighted terms, as a real number. *)
Definition counts_sum {A} (terms : list (A * Z)) : R :=
  fold_right (fun xn acc => IZR (snd xn) + acc) 0 terms.

(** [sum_i x_i * (n_i / total)] over scalar terms. *)
Definition scalar_sum (total : Z) (terms : list (R * Z)) : R :=
  fold_right (fun xn acc => fst xn * (IZR (snd xn) / IZR total) + acc) 0 terms.

(** The reported accuracies with the sample counts. *)
Definition accuracy_terms {T} (reports : list (Report T)) : list (R * Z) :=
  map (fun r => (accuracy r, num_samples r)) reports.

(** Three reports of accuracies 0.5, 0.8 and 0.9 over 10, 30 and 60
    samples. *)
Definition graded_reports : list (Report R) :=
  [ mkReport 0 [] 10 (5 / 10);
    mkReport 1 [] 30 (8 / 10);
    mkReport 2 [] 60 (9 / 10) ].

(** No report counts a negative number of samples. *)
Definition samples_nonneg {T} (reports : list (Report T)) : Prop :=
  Forall (fun r => (0 <= num_samples r)%Z) reports.

(** A group of two clients, downloaded at 3, and delays 2 and 5. *)
Definition pair_group : Group := mkGroup 0 [0%nat; 1%nat] (Some 3) None.
Definition pair_delays (c : nat) : option R :=
  match c with
  | O => Some 2
  | S O => Some 5
  | _ => None
  end.

(** The sample-weighted mean of the reported scalar weights, for every
    named tensor of the global model. *)
Definition mean_spec (model : Weights R) (reports : list (Report R))
  : Weights R :=
  let total := total_samples_of reports in
  mapi_from 0
    (fun j nb => (fst nb, scalar_sum total (weight_terms j (snd nb) reports)))
    model.

(** All the scalar weights lie between [lo] and [hi]. *)
Definition within (lo hi : R) (w : Weights R) : Prop :=
  Forall (fun nv => lo <= snd nv <= hi) w.

(** The staleness functions of the configuration. *)
Definition known_staleness (func : string) : Prop :=
  func = "constant"%string \/ func = "polynomial"%string \/
  func = "hinge"%string.

(** A sync configuration of [n] rounds that stops at the accuracy
    [target], evaluated on the server. *)
Definition sync_config (n : Z) (target : option R) : Config :=
  mkConfig n target "sync" 1 "constant" 0 false.

(** Client 0 is drawn the delay 2 and client 1 the delay 5. *)
Definition by_client (c k : nat) : R :=
  match c with
  | O => 2
  | _ => 5
  end.

(** No round selects a client. *)
Definition nobody (round : nat) : list nat := [].

(** ** The turns of a round are bounded *)

(** No client holds a delay below [delta]. *)
Definition delays_from {T} (delta : R) (s : Server T) : Prop :=
  forall c d, delay s c = Some d -> delta <= d.

(** How many more turns a group due at [t] can take before the window
    that closes at [bound] shuts it out, when no delay is below [delta]. *)
Definition turns_left (bound delta t : R) : nat :=
  Z.to_nat (up ((bound - t) / delta)).

(** The turns a queue can still give rise to. *)
Definition queue_turns (bound delta : R) (q : list (R * Group)) : nat :=
  fold_right (fun e acc => (S (turns_left bound delta (fst e)) + acc)%nat)
             0%nat q.

(** The turns one group can take in a round of length [T_async]. *)
Definition turns_bound (T_async delta : R) : nat :=
  S (Z.to_nat (up (T_async / delta))).

(** The outcome of a computation that did not use up the budget of the
    embedding: a result, an exception of the program, or a value outside
    the real numbers. *)
Definition within_budget {A} (r : result A) : Prop :=
  match r with
  | Ok _ => True
  | Raise e => python_exn e \/ e = OutsideModel
  end.

(** Inside a round whose window cannot close: the queue is a non-empty
    heap of groups that are all due inside the window. *)
Definition window_open (T_old T_async : R) (q : list (R * Group)) : Prop :=
  q <> [] /\ heap_ordered fst q /\
  Forall (fun e => aggregate_time (snd e) = Some (fst e) /\
                   fst e - T_old <= T_async) q.

(** Inside an async round: the queue is a heap of groups that are due no
    later than [bound], and once a turn has taken place the latest record
    is no later than [bound] either, and later than [window] when the
    queue is empty. *)
Definition round_bounded {T} (window bound : R) (q : list (R * Group))
           (s : Server T) : Prop :=
  heap_ordered fst q /\
  Forall (fun e => aggregate_time (snd e) = Some (fst e) /\ fst e <= bound) q /\
  (q <> [] \/
   exists t, last_item (rec_t (records s)) = Ok t /\ t <= bound /\
             (q = [] -> window < t)).

(** The two sequences of a Record have one length. *)
Definition parallel (r : Records) : Prop :=
  length (rec_t r) = length (rec_acc r).

(** ** Data partitions *)

(** A partition size can be had: [size] is set and not 0, or [range] is a
    range that is not empty. *)
Definition usable_size (cfg : DataConfig) : bool :=
  match partition_size cfg with
  | Some n => negb (n =? 0)%Z
  | None => false
  end ||
  match partition_range cfg with
  | Some (start, stop) => negb (stop <? start)%Z
  | None => false
  end.

(** The configurations under which a client can be sent its data. *)
Definition can_send (cfg : DataConfig) : bool :=
  (loader cfg =? "shard")%string ||
  (((loader cfg =? "basic")%string || (loader cfg =? "bias")%string)
   && usable_size cfg).

(** Calls that give no client anything: a draw of [random], a log line. *)
Definition only_probes (calls : list call) : Prop :=
  Forall (fun c => c = LogCritical \/ exists a b, c = RandInt a b) calls.

(** The clients that are sent data by a sequence of calls, in order. *)
Definition sent (calls : list call) : list nat :=
  flat_map (fun c => match c with
                     | SetData client => [client]
                     | _ => []
                     end) calls.

(** Loading from the shard loader when the clients are made. *)
Definition shard_config : DataConfig :=
  mkDataConfig "shard" "static" None None.

(** Dynamic loading from the basic loader without any partition size. *)
Definition unsized_config : DataConfig :=
  mkDataConfig "basic" "dynamic" None None.

(** [random.randint] that gives the lower end. *)
Definition lowest (start stop : Z) (k : nat) : Z := start.

(** ** Diagnostics *)

(** What the turns of one async round leave in [saved_reports]: each turn
    saves its batch of reports and the model it has just loaded. *)
Definition saved_in_round {T} (tolist : T -> list R) (round : nat)
           (turns : list (list (Report T) * Weights T))
           (saved_reports : list (string * saved)) : list (string * saved) :=
  fold_left (fun d turn => save_reports tolist round (fst turn) (snd turn) d)
            turns saved_reports.

(** The entries of a scalar tensor. *)
Definition scalar_tolist (x : R) : list R := [x].

(** ** The groups a round starts with *)

(** The groups of the clients [cs], numbered from [i], downloaded at
    [T_old], each due after the delay its client is drawn: the [k]-th
    client gets draw number [n + k]. *)
Fixpoint started_groups (sample_delay : nat -> nat -> R) (T_old : R)
         (i n : nat) (cs : list nat) : list Group :=
  match cs with
  | [] => []
  | c :: cs' =>
      mkGroup i [c] (Some T_old) (Some (T_old + sample_delay c n))
      :: started_groups sample_delay T_old (S i) (S n) cs'
  end.

(** ** A round in which a client is never reached *)

(** Client 0 is drawn the delay 0, every other client the delay 5. *)
Definition idle_first (c k : nat) : R :=
  match c with
  | O => 0
  | S _ => 5
  end.

(** The group of client 0, downloaded at [d] and due at [t], and the group
    of client 1 that waits behind it. *)
Definition idle_group (d t : R) : Group := mkGroup 0 [0%nat] (Some d) (Some t).
Definition waiting_group : Group := mkGroup 1 [1%nat] (Some 0) (Some (0 + 5)).

(** The server in the round of these two clients. *)
Definition idle_server (x : R) (recs : Records) (passes : nat)
           (lg : list (list nat * R)) : Server R :=
  mkServer [("w"%string, x)] recs
           (fun c' => if Nat.eqb c' 1 then Some 5
                      else if Nat.eqb c' 0 then Some 0 else None)
           2 passes lg.

(** * Proofs *)

(** ** Lists and results *)

(** Evaluates the embedding on concrete data, leaving the real numbers
    alone, and settles the comparisons of reals that are left. *)
Ltac decide_reals :=
  repeat match goal with
  | |- context [Rle_dec ?a ?b] =>
      destruct (Rle_dec a b); [try (exfalso; lra)|try (exfalso; lra)]
  | |- context [Rlt_dec ?a ?b] =>
      destruct (Rlt_dec a b); [try (exfalso; lra)|try (exfalso; lra)]
  | |- context [Rge_dec ?a ?b] =>
      destruct (Rge_dec a b); [try (exfalso; lra)|try (exfalso; lra)]
  | |- context [Req_dec_T ?a ?b] =>
      destruct (Req_dec_T a b); [try (exfalso; lra)|try (exfalso; lra)]
  end.

Ltac evaluate :=
  cbv - [Rplus Rminus Rmult Rdiv Rinv Ropp Rle_dec Rlt_dec Rge_dec Req_dec_T
         IZR Q2R Rmax Rpower Rle Rlt Rge Rgt];
  decide_reals.


Lemma length_upd {A} (l : list A) i x : length (upd l i x) = length l.
Proof.
  revert i; induction l as [|a l IH]; intros [|i]; simpl; auto.
Qed.

Lemma nth_error_upd_eq {A} (l : list A) i x :
  (i < length l)%nat -> nth_error (upd l i x) i = Some x.
Proof.
  revert i; induction l as [|a l IH]; intros [|i]; simpl; intros Hi;
    try lia; auto.
  apply IH; lia.
Qed.

Lemma nth_error_upd_ne {A} (l : list A) i j x :
  i <> j -> nth_error (upd l i x) j = nth_error l j.
Proof.
  revert i j; induction l as [|a l IH]; intros [|i] [|j]; simpl; intros Hij;
    try congruence; auto.
Qed.

Lemma upd_same {A} (l : list A) i x :
  nth_error l i = Some x -> upd l i x = l.
Proof.
  revert i; induction l as [|a l IH]; intros [|i]; simpl; intros Hx; auto.
  - congruence.
  - f_equal; auto.
Qed.

Lemma upd_upd {A} (l : list A) i x y : upd (upd l i x) i y = upd l i y.
Proof.
  revert i; induction l as [|a l IH]; intros [|i]; simpl; auto.
  f_equal; auto.
Qed.

Lemma upd_app_last {A} (l : list A) x y :
  upd (l ++ [x]) (length l) y = l ++ [y].
Proof.
  induction l as [|a l IH]; simpl; auto. f_equal; auto.
Qed.

Lemma getitem_Ok {A} (l : list A) i x :
  getitem l i = Ok x <-> nth_error l i = Some x.
Proof.
  unfold getitem; destruct (nth_error l i); split; congruence.
Qed.

Lemma getitem_in_range {A} (l : list A) i :
  (i < length l)%nat -> exists x, nth_error l i = Some x /\ getitem l i = Ok x.
Proof.
  intros Hi. unfold getitem.
  destruct (nth_error l i) as [x|] eqn:E; [eauto|].
  apply nth_error_None in E; lia.
Qed.

Lemma perm_upd_head {A} (t : list A) j v x :
  nth_error t j = Some v -> Permutation (v :: upd t j x) (x :: t).
Proof.
  revert j; induction t as [|a t IH]; intros [|j]; simpl; intros Hj;
    try discriminate.
  - injection Hj as ->. apply perm_swap.
  - rewrite perm_swap. rewrite (IH _ Hj). apply perm_swap.
Qed.

Lemma perm_upd_pair {A} (t : list A) i a x :
  (i < length t)%nat -> Permutation (x :: upd t i a) (a :: upd t i x).
Proof.
  revert i; induction t as [|b t IH]; intros [|i]; simpl; intros Hi; try lia.
  - apply perm_swap.
  - rewrite perm_swap. rewrite (IH i) by lia. apply perm_swap.
Qed.

(** Moving the hole of a sift from [i] to [j] keeps the entries. *)
Lemma perm_upd_swap {A} (l : list A) i j v x :
  i <> j -> (i < length l)%nat -> nth_error l j = Some v ->
  Permutation (upd (upd l i v) j x) (upd l i x).
Proof.
  revert i j; induction l as [|a l IH]; intros [|i] [|j]; simpl;
    intros Hij Hi Hj; try lia; try discriminate.
  - apply perm_upd_head; auto.
  - injection Hj as ->. apply perm_upd_pair; lia.
  - constructor. apply IH; auto; lia.
Qed.

Lemma two_of_nth {A} (l : list A) i j a b :
  i <> j -> nth_error l i = Some a -> nth_error l j = Some b -> two_of a b l.
Proof.
  revert i j; induction l as [|c l IH]; intros [|i] [|j]; simpl;
    intros Hij Hi Hj; try discriminate; try congruence.
  - injection Hi as ->.
    apply nth_error_split in Hj as (l1 & l2 & -> & _).
    exists (l1 ++ l2). constructor.
    symmetry. apply Permutation_middle.
  - injection Hj as ->.
    apply nth_error_split in Hi as (l1 & l2 & -> & _).
    exists (l1 ++ l2). rewrite perm_swap. constructor.
    symmetry. apply Permutation_middle.
  - destruct (IH i j) as [l' Hl']; auto.
    exists (c :: l'). rewrite Hl'.
    rewrite perm_swap. constructor. apply perm_swap.
Qed.

Lemma two_of_perm {A} (l1 l2 : list A) a b :
  Permutation l1 l2 -> two_of a b l1 -> two_of a b l2.
Proof.
  intros Hp [l' Hl']. exists l'. rewrite <- Hp. exact Hl'.
Qed.

Lemma NoDup_app_apart {A} (l1 l2 : list A) (a : A) :
  NoDup (l1 ++ l2) -> In a l1 -> In a l2 -> False.
Proof.
  induction l1 as [|b l1 IH]; cbn [app]; intros Hnd H1 H2; [contradiction|].
  inversion Hnd as [|? ? Hb Hnd']; subst.
  destruct H1 as [->|H1]; [|auto].
  apply Hb. apply in_or_app. auto.
Qed.

(** ** heapq keeps a heap *)

Section HeapTheory.

Variable A : Type.
Variable key : A -> R.
Variable lt : A -> A -> result bool.

Hypothesis lt_true : forall a b, lt a b = Ok true -> key a < key b.
Hypothesis lt_false : forall a b, lt a b = Ok false -> key b <= key a.

Local Abbreviation ordered := (heap_ordered key).
Local Abbreviation hole := (hole_ok key).
Local Abbreviation below := (below_ok key).
Local Abbreviation sift_post := (sift_post key lt).
Local Abbreviation siftup_post := (siftup_post key lt).
Local Abbreviation pop_post := (pop_post key lt).


Lemma parent_lt i : (0 < i)%nat -> ((i - 1) / 2 < i)%nat.
Proof.
  intros Hi. apply Nat.Div0.div_lt_upper_bound. lia.
Qed.

Lemma ordered_fill (h : list A) pos x :
  (pos < length h)%nat -> hole h pos -> below h pos x ->
  (forall b, (0 < pos)%nat -> nth_error h ((pos - 1) / 2) = Some b ->
             key b <= key x) ->
  ordered (upd h pos x).
Proof.
  intros Hpos [Hh1 Hh2] Hb Hp i a b Hi Ha Hb'.
  pose proof (parent_lt Hi) as Hlt.
  destruct (Nat.eq_dec i pos) as [->|Hne].
  - rewrite nth_error_upd_eq in Ha by auto. injection Ha as <-.
    rewrite nth_error_upd_ne in Hb' by lia.
    apply Hp; auto.
  - rewrite nth_error_upd_ne in Ha by auto.
    destruct (Nat.eq_dec ((i - 1) / 2) pos) as [E|Hne'].
    + rewrite E in Hb'. rewrite nth_error_upd_eq in Hb' by auto.
      injection Hb' as <-. eapply Hb; eauto.
    + rewrite nth_error_upd_ne in Hb' by auto. eapply Hh1; eauto.
Qed.

Lemma siftdown_loop_eq fuel (h : list A) x startpos pos :
  siftdown_loop lt fuel h x startpos pos =
  if (startpos <? pos)%nat then
    match fuel with
    | O => Raise OutOfFuel
    | S fuel' =>
        parent <- getitem h ((pos - 1) / 2) ;;
        b <- lt x parent ;;
        if b : bool then
          siftdown_loop lt fuel' (upd h pos parent) x startpos ((pos - 1) / 2)
        else Ok (upd h pos x)
    end
  else Ok (upd h pos x).
Proof.
  destruct fuel; reflexivity.
Qed.

Lemma siftdown_loop_spec fuel :
  forall h x pos,
    (pos <= fuel)%nat -> (pos < length h)%nat ->
    hole h pos -> below h pos x ->
    sift_post (upd h pos x) (siftdown_loop lt fuel h x 0 pos).
Proof.
  induction fuel as [|fuel IH]; intros h x pos Hfuel Hpos Hh Hb.
  - assert (pos = 0)%nat as -> by lia. rewrite siftdown_loop_eq.
    cbn [Nat.ltb Nat.leb]. split; [|reflexivity].
    apply ordered_fill; auto. intros; lia.
  - rewrite siftdown_loop_eq. destruct (0 <? pos)%nat eqn:E0.
    2:{ apply Nat.ltb_ge in E0. assert (pos = 0)%nat as -> by lia.
        split; [|reflexivity].
        apply ordered_fill; auto. intros; lia. }
    apply Nat.ltb_lt in E0.
    pose proof (parent_lt E0) as Hpar.
    destruct (@getitem_in_range _ h ((pos - 1) / 2)) as (p & Hp & Gp); [lia|].
    rewrite Gp. cbn [bind].
    destruct (lt x p) as [[|]|e] eqn:Elt; cbn [bind].
    + (* the parent moves down *)
      apply lt_true in Elt.
      assert (Hperm : Permutation (upd (upd h pos p) ((pos - 1) / 2) x)
                                  (upd h pos x))
        by (apply perm_upd_swap; auto; lia).
      assert (Hpost : sift_post (upd (upd h pos p) ((pos - 1) / 2) x)
                (siftdown_loop lt fuel (upd h pos p) x 0 ((pos - 1) / 2))).
      { apply IH; try lia.
        - rewrite length_upd; lia.
        - destruct Hh as [Hh1 Hh2]. split.
          + intros i a b Hi Hne Hne' Ha Hb'.
            destruct (Nat.eq_dec i pos) as [->|Hip]; [congruence|].
            rewrite nth_error_upd_ne in Ha by auto.
            destruct (Nat.eq_dec ((i - 1) / 2) pos) as [Ep|Hpp].
            * rewrite Ep in Hb'. rewrite nth_error_upd_eq in Hb' by auto.
              injection Hb' as <-. eapply Hh2; eauto.
            * rewrite nth_error_upd_ne in Hb' by auto. eapply Hh1; eauto.
          + intros i a b Hi Hpp Ei Ha Hb'.
            pose proof (parent_lt Hpp) as Hgp.
            rewrite nth_error_upd_ne in Hb' by lia.
            assert (Hpb : key b <= key p).
            { eapply (Hh1 ((pos - 1) / 2)%nat); eauto; lia. }
            destruct (Nat.eq_dec i pos) as [->|Hip].
            * rewrite nth_error_upd_eq in Ha by auto.
              injection Ha as <-. exact Hpb.
            * rewrite nth_error_upd_ne in Ha by auto.
              assert (key p <= key a).
              { eapply (Hh1 i); eauto; try lia. rewrite Ei; exact Hp. }
              lra.
        - intros i a Hi Ei Ha.
          destruct (Nat.eq_dec i pos) as [->|Hip].
          * rewrite nth_error_upd_eq in Ha by auto.
            injection Ha as <-. lra.
          * rewrite nth_error_upd_ne in Ha by auto.
            destruct Hh as [Hh1 _].
            assert (key p <= key a).
            { eapply (Hh1 i); eauto; try lia. rewrite Ei; exact Hp. }
            lra. }
      destruct (siftdown_loop lt fuel (upd h pos p) x 0 ((pos - 1) / 2))
        as [h'|e]; cbn [sift_post] in *.
      * destruct Hpost as [Ho Hp']. split; auto.
        rewrite Hp'. exact Hperm.
      * destruct Hpost as (a & b & Hab & Hr). exists a, b. split; auto.
        eapply two_of_perm; eauto.
    + (* newitem fits here *)
      apply lt_false in Elt. split; [|reflexivity].
      apply ordered_fill; auto.
      intros b _ Hb'. congruence.
    + (* the comparison raised *)
      exists x, p. split; auto.
      apply two_of_nth with (i := pos) (j := ((pos - 1) / 2)%nat).
      * lia.
      * apply nth_error_upd_eq; auto.
      * rewrite nth_error_upd_ne by lia. exact Hp.
Qed.

Lemma hole_at_end (h : list A) item :
  ordered h -> hole (h ++ [item]) (length h) /\ below (h ++ [item]) (length h) item.
Proof.
  intros Ho.
  assert (Hin : forall i a, nth_error (h ++ [item]) i = Some a ->
                            (i <= length h)%nat).
  { intros i a Hi.
    assert (i < length (h ++ [item]))%nat
      by (apply nth_error_Some; congruence).
    rewrite length_app in *; simpl in *; lia. }
  split; [split|].
  - intros i a b Hi Hne Hne' Ha Hb.
    pose proof (Hin _ _ Ha). pose proof (parent_lt Hi).
    rewrite nth_error_app1 in Ha by lia.
    rewrite nth_error_app1 in Hb by lia.
    eapply Ho; eauto.
  - intros i a b Hi Hpos Ei Ha Hb.
    pose proof (Hin _ _ Ha). pose proof (parent_lt Hi). lia.
  - intros i a Hi Ei Ha.
    pose proof (Hin _ _ Ha). pose proof (parent_lt Hi). lia.
Qed.

Lemma heappush_spec (h : list A) item :
  ordered h -> sift_post (h ++ [item]) (heappush lt h item).
Proof.
  intros Ho. unfold heappush, _siftdown.
  assert (E : (length (h ++ [item]) - 1 = length h)%nat)
    by (rewrite length_app; simpl; lia).
  rewrite E.
  assert (G : getitem (h ++ [item]) (length h) = Ok item).
  { apply getitem_Ok. rewrite nth_error_app2 by lia.
    rewrite Nat.sub_diag. reflexivity. }
  rewrite G. cbn [bind].
  destruct (hole_at_end item Ho) as [Hh Hb].
  rewrite <- (upd_app_last h item item) at 1.
  apply siftdown_loop_spec; auto.
  rewrite length_app; simpl; lia.
Qed.

Lemma siftup_loop_eq fuel (h : list A) endpos pos :
  siftup_loop lt fuel h endpos pos =
  if (2 * pos + 1 <? endpos)%nat then
    match fuel with
    | O => Raise OutOfFuel
    | S fuel' =>
        childpos' <-
          (if (2 * pos + 1 + 1 <? endpos)%nat then
             l <- getitem h (2 * pos + 1) ;;
             r <- getitem h (2 * pos + 1 + 1) ;;
             b <- lt l r ;;
             Ok (if b : bool then (2 * pos + 1)%nat else (2 * pos + 1 + 1)%nat)
           else Ok (2 * pos + 1)%nat) ;;
        c <- getitem h childpos' ;;
        siftup_loop lt fuel' (upd h pos c) endpos childpos'
    end
  else Ok (h, pos).
Proof.
  destruct fuel; reflexivity.
Qed.


(** One turn of the first loop of [_siftup]: the smaller child [c], at
    [cpos], moves up into the hole. *)
Lemma hole_moves_down (h : list A) pos cpos c :
  (pos < length h)%nat -> hole h pos ->
  ((cpos - 1) / 2 = pos)%nat -> (0 < cpos)%nat ->
  nth_error h cpos = Some c ->
  (forall i a, (0 < i)%nat -> ((i - 1) / 2 = pos)%nat ->
               nth_error h i = Some a -> key c <= key a) ->
  hole (upd h pos c) cpos.
Proof.
  intros Hpos [Hh1 Hh2] Ec Hc0 Hc Hmin.
  pose proof (parent_lt Hc0) as Hlt.
  split.
  - intros i a b Hi Hne Hne' Ha Hb.
    pose proof (parent_lt Hi) as Hlti.
    destruct (Nat.eq_dec i pos) as [->|Hip].
    + rewrite nth_error_upd_eq in Ha by auto. injection Ha as <-.
      rewrite nth_error_upd_ne in Hb by lia.
      eapply (Hh2 cpos); eauto; lia.
    + rewrite nth_error_upd_ne in Ha by auto.
      destruct (Nat.eq_dec ((i - 1) / 2) pos) as [Ep|Hpp].
      * rewrite Ep in Hb. rewrite nth_error_upd_eq in Hb by auto.
        injection Hb as <-. eapply Hmin; eauto.
      * rewrite nth_error_upd_ne in Hb by auto. eapply Hh1; eauto.
  - intros i a b Hi _ Ei Ha Hb.
    rewrite Ec in Hb. rewrite nth_error_upd_eq in Hb by auto.
    injection Hb as <-.
    pose proof (parent_lt Hi) as Hlti.
    rewrite nth_error_upd_ne in Ha by lia.
    eapply (Hh1 i); eauto; try lia.
    rewrite Ei. exact Hc.
Qed.

Lemma siftup_loop_spec fuel :
  forall h pos x,
    (length h - pos <= fuel)%nat -> (pos < length h)%nat -> hole h pos ->
    siftup_post h pos x (siftup_loop lt fuel h (length h) pos).
Proof.
  induction fuel as [|fuel IH]; intros h pos x Hfuel Hpos Hh;
    rewrite siftup_loop_eq.
  - lia.
  - destruct (2 * pos + 1 <? length h)%nat eqn:E1.
    2:{ apply Nat.ltb_ge in E1. cbn [siftup_post].
        split; [|split; [|split; [|split]]]; auto. }
    apply Nat.ltb_lt in E1.
    destruct (@getitem_in_range _ h (2 * pos + 1)) as (l & Hl & Gl); [lia|].
    assert (Pl : ((2 * pos + 1 - 1) / 2 = pos)%nat).
    { replace (2 * pos + 1 - 1)%nat with (pos * 2)%nat by lia.
      apply Nat.div_mul; lia. }
    assert (Pr : ((2 * pos + 1 + 1 - 1) / 2 = pos)%nat).
    { replace (2 * pos + 1 + 1 - 1)%nat with (1 + pos * 2)%nat by lia.
      rewrite Nat.div_add by lia. reflexivity. }
    assert (Hkids : forall i, (0 < i)%nat -> ((i - 1) / 2 = pos)%nat ->
                    i = (2 * pos + 1)%nat \/ i = (2 * pos + 1 + 1)%nat).
    { intros i Hi Ei.
      pose proof (Nat.div_mod_eq (i - 1) 2) as Hd.
      pose proof (Nat.mod_upper_bound (i - 1) 2). lia. }
    (* the step once the smaller child is known *)
    assert (Hstep : forall cpos c,
      (cpos = 2 * pos + 1 \/ cpos = 2 * pos + 1 + 1)%nat ->
      nth_error h cpos = Some c ->
      (forall i a, (0 < i)%nat -> ((i - 1) / 2 = pos)%nat ->
                   nth_error h i = Some a -> key c <= key a) ->
      siftup_post h pos x
        (c' <- getitem h cpos ;; siftup_loop lt fuel (upd h pos c') (length h) cpos)).
    { intros cpos c Hcp Hc Hmin.
      assert (Gc : getitem h cpos = Ok c) by (apply getitem_Ok; auto).
      rewrite Gc. cbn [bind].
      assert (Hclt : (cpos < length h)%nat)
        by (apply nth_error_Some; congruence).
      assert (Ec : ((cpos - 1) / 2 = pos)%nat) by (destruct Hcp; subst; auto).
      specialize (IH (upd h pos c) cpos x).
      rewrite length_upd in IH.
      assert (Hpost : siftup_post (upd h pos c) cpos x
                (siftup_loop lt fuel (upd h pos c) (length h) cpos)).
      { apply IH; try lia.
        apply hole_moves_down; auto; lia. }
      assert (Hperm : Permutation (upd (upd h pos c) cpos x) (upd h pos x))
        by (apply perm_upd_swap; auto; lia).
      destruct (siftup_loop lt fuel (upd h pos c) (length h) cpos)
        as [[h1 pos1]|e]; cbn [siftup_post] in *.
      - rewrite length_upd in Hpost.
        destruct Hpost as (H1 & H2 & H3 & H4 & H5).
        split; [|split; [|split; [|split]]]; auto.
        etransitivity; eauto.
      - destruct Hpost as (a & b & Hab & Hr). exists a, b. split; auto.
        eapply two_of_perm; eauto. }
    destruct (2 * pos + 1 + 1 <? length h)%nat eqn:E2.
    + apply Nat.ltb_lt in E2.
      destruct (@getitem_in_range _ h (2 * pos + 1 + 1)) as (r & Hr & Gr);
        [lia|].
      rewrite Gl, Gr. cbn [bind].
      destruct (lt l r) as [[|]|e] eqn:Elt; cbn [bind].
      * apply lt_true in Elt.
        apply (Hstep _ l); auto.
        intros i a Hi Ei Ha.
        destruct (Hkids i Hi Ei) as [->| ->]; [|assert (a = r) by congruence];
          [assert (a = l) by congruence|]; subst; lra.
      * apply lt_false in Elt.
        apply (Hstep _ r); auto.
        intros i a Hi Ei Ha.
        destruct (Hkids i Hi Ei) as [->| ->]; [|assert (a = r) by congruence];
          [assert (a = l) by congruence|]; subst; lra.
      * cbn [siftup_post]. exists l, r. split; auto.
        apply two_of_nth with (i := (2 * pos + 1)%nat)
                              (j := (2 * pos + 1 + 1)%nat).
        -- lia.
        -- rewrite nth_error_upd_ne by lia. exact Hl.
        -- rewrite nth_error_upd_ne by lia. exact Hr.
    + apply Nat.ltb_ge in E2. cbn [bind].
      apply (Hstep _ l); auto.
      intros i a Hi Ei Ha.
      assert (i < length h)%nat by (apply nth_error_Some; congruence).
      destruct (Hkids i Hi Ei) as [->| ->]; [|lia].
      assert (a = l) by congruence. subst; lra.
Qed.

Lemma hole_of_ordered (h : list A) x :
  ordered h -> hole (upd h 0 x) 0.
Proof.
  intros Ho. split.
  - intros i a b Hi Hne Hne' Ha Hb.
    rewrite nth_error_upd_ne in Ha by lia.
    rewrite nth_error_upd_ne in Hb by lia.
    eapply Ho; eauto.
  - intros; lia.
Qed.

Lemma siftup_spec (h : list A) x :
  nth_error h 0 = Some x -> hole h 0 -> sift_post h (_siftup lt h 0).
Proof.
  intros Hx Hh. unfold _siftup.
  assert (H0 : (0 < length h)%nat) by (apply nth_error_Some; congruence).
  assert (G : getitem h 0 = Ok x) by (apply getitem_Ok; auto).
  rewrite G. cbn [bind].
  pose proof (@siftup_loop_spec (length h) h 0%nat x) as Hup.
  specialize (Hup ltac:(lia) H0 Hh). unfold siftup_post in Hup.
  rewrite (upd_same _ _ Hx) in Hup.
  destruct (siftup_loop lt (length h) h (length h) 0) as [[h1 pos1]|e];
    cbn [siftup_post bind] in *.
  - destruct Hup as (L1 & Hp1 & Hh1 & Hleaf & Hperm).
    unfold _siftdown.
    assert (G1 : getitem (upd h1 pos1 x) pos1 = Ok x).
    { apply getitem_Ok. apply nth_error_upd_eq. lia. }
    rewrite G1. cbn [bind].
    assert (Hpost : sift_post (upd (upd h1 pos1 x) pos1 x)
              (siftdown_loop lt pos1 (upd h1 pos1 x) x 0 pos1)).
    { apply siftdown_loop_spec; auto.
      - rewrite length_upd; lia.
      - destruct Hh1 as [Ha Hb]. split.
        + intros i a b Hi Hne Hne' Hia Hib.
          rewrite nth_error_upd_ne in Hia by auto.
          rewrite nth_error_upd_ne in Hib by auto.
          eapply (Ha i); eauto.
        + intros i a b Hi Hpos Ei Hia Hib.
          pose proof (parent_lt Hi). pose proof (parent_lt Hpos).
          rewrite nth_error_upd_ne in Hia by lia.
          rewrite nth_error_upd_ne in Hib by lia.
          eapply (Hb i); eauto.
      - intros i a Hi Ei Hia.
        assert (i < length (upd h1 pos1 x))%nat
          by (apply nth_error_Some; congruence).
        rewrite length_upd in *.
        pose proof (Nat.div_mod_eq (i - 1) 2) as Hd.
        pose proof (Nat.mod_upper_bound (i - 1) 2). lia. }
    rewrite upd_upd in Hpost.
    destruct (siftdown_loop lt pos1 (upd h1 pos1 x) x 0 pos1) as [h'|e];
      cbn [sift_post] in *.
    + destruct Hpost as [Ho Hp]. split; auto. etransitivity; eauto.
    + destruct Hpost as (a & b & Hab & Hr). exists a, b. split; auto.
      eapply two_of_perm; eauto.
  - exact Hup.
Qed.

Lemma list_pop_nil : list_pop (@nil A) = Raise IndexError.
Proof. reflexivity. Qed.

Lemma list_pop_app (h : list A) x : list_pop (h ++ [x]) = Ok (x, h).
Proof.
  unfold list_pop. rewrite rev_app_distr. simpl. rewrite rev_involutive.
  reflexivity.
Qed.

Lemma ordered_prefix (h : list A) x : ordered (h ++ [x]) -> ordered h.
Proof.
  intros Ho i a b Hi Ha Hb.
  apply (Ho i a b Hi).
  - rewrite nth_error_app1; auto. apply nth_error_Some; congruence.
  - rewrite nth_error_app1; auto. apply nth_error_Some; congruence.
Qed.

(** The root of a heap is a least entry. *)
Lemma root_least (h : list A) r :
  ordered h -> nth_error h 0 = Some r ->
  forall a, In a h -> key r <= key a.
Proof.
  intros Ho Hr a Ha.
  apply In_nth_error in Ha as [i Hi]. revert a Hi.
  induction i as [i IH] using lt_wf_ind. intros a Hi.
  destruct (Nat.eq_dec i 0) as [->|Hne].
  - assert (a = r) by congruence. subst; lra.
  - assert (Hpos : (0 < i)%nat) by lia.
    pose proof (parent_lt Hpos) as Hlt.
    destruct (@getitem_in_range _ h ((i - 1) / 2)) as (p & Hp & _).
    { assert (i < length h)%nat by (apply nth_error_Some; congruence). lia. }
    pose proof (IH _ Hlt _ Hp). pose proof (Ho i a p Hpos Hi Hp). lra.
Qed.


Lemma heappop_spec (h : list A) : ordered h -> pop_post h (heappop lt h).
Proof.
  intros Ho. unfold heappop.
  destruct h as [|lastelt h0 _] using rev_ind.
  { cbn. left; auto. }
  rewrite list_pop_app. cbn [bind].
  destruct h0 as [|ret t].
  { cbn. split; [|split].
    - intros i a b _ Ha. destruct i; discriminate.
    - reflexivity.
    - intros a [<-|[]]. lra. }
  pose proof Ho as Ho0. apply ordered_prefix in Ho0.
  assert (Hpost : sift_post (upd (ret :: t) 0 lastelt)
            (_siftup lt (upd (ret :: t) 0 lastelt) 0)).
  { apply siftup_spec with (x := lastelt).
    - reflexivity.
    - apply hole_of_ordered; auto. }
  assert (Hperm : Permutation ((ret :: t) ++ [lastelt]) (ret :: lastelt :: t)).
  { simpl. constructor. rewrite Permutation_app_comm. reflexivity. }
  destruct (_siftup lt (upd (ret :: t) 0 lastelt) 0) as [h'|e];
    cbn [sift_post bind pop_post] in *.
  - destruct Hpost as [Ho' Hp']. split; [|split]; auto.
    + rewrite Hperm. constructor. symmetry. exact Hp'.
    + apply root_least; auto.
  - right. destruct Hpost as (a & b & [l' Hl'] & Hr).
    exists a, b. split; auto. exists (ret :: l').
    rewrite Hperm. simpl in Hl'. rewrite Hl'.
    rewrite perm_swap. constructor. apply perm_swap.
Qed.

End HeapTheory.

(** ** The staleness function *)

Lemma polynomial_value (s : R) :
  0 <= s ->
  staleness "polynomial" (Some s) = Ok (PyFloat (Rpower (s + 1) (- (0.5)))).
Proof.
  intros Hs. unfold staleness. cbn [String.eqb Ascii.eqb Bool.eqb].
  unfold py_pow. destruct (Rlt_dec 0 (s + 1)) as [_|Hn]; [reflexivity|].
  exfalso; lra.
Qed.

Lemma hinge_value (s : R) :
  staleness "hinge" (Some s) =
  Ok (PyFloat (if Rle_dec s 4 then 1 else 1 / (10 * (s - 4) + 1))).
Proof.
  unfold staleness. cbn [String.eqb Ascii.eqb Bool.eqb].
  destruct (Rle_dec s 4); reflexivity.
Qed.

Lemma Rpower_neg_half (x : R) : 0 < x -> Rpower x (- (0.5)) = / sqrt x.
Proof.
  intros Hx. rewrite Rpower_Ropp.
  replace 0.5 with (/ 2) by lra.
  rewrite Rpower_sqrt by auto. reflexivity.
Qed.

Lemma Rpower_neg_half_decreasing (x y : R) :
  0 < x -> x < y -> Rpower y (- (0.5)) < Rpower x (- (0.5)).
Proof.
  intros Hx Hxy. rewrite !Rpower_Ropp.
  apply Rinv_lt_contravar.
  - apply Rmult_lt_0_compat; unfold Rpower; apply exp_pos.
  - apply Rlt_Rpower_l; lra.
Qed.

Lemma hinge_decay_pos (s : R) : 4 < s -> 0 < 1 / (10 * (s - 4) + 1) <= 1.
Proof.
  intros Hs.
  assert (Hd : 1 <= 10 * (s - 4) + 1) by lra.
  split.
  - apply Rdiv_lt_0_compat; lra.
  - apply (Rmult_le_reg_r (10 * (s - 4) + 1)); [lra|].
    unfold Rdiv. rewrite Rmult_assoc, Rinv_l by lra. lra.
Qed.

Lemma hinge_decay_monotone (s1 s2 : R) :
  4 < s1 -> s1 <= s2 ->
  1 / (10 * (s2 - 4) + 1) <= 1 / (10 * (s1 - 4) + 1).
Proof.
  intros H1 H12. unfold Rdiv. rewrite !Rmult_1_l.
  apply Rinv_le_contravar; lra.
Qed.

(** C6: the staleness function.  For staleness values [0 <= s1 <= s2]:
    'constant' gives 1; 'polynomial' gives [(s+1)^(-0.5)], which is
    [1/sqrt(s+1)], gives 1 at 0 and is strictly decreasing; 'hinge' gives 1
    up to 4 and [1/(10*(s-4)+1)] beyond; 'polynomial' and 'hinge' are
    non-increasing. *)
Theorem staleness_function_laws (s1 s2 : R) :
  0 <= s1 -> s1 <= s2 ->
  (* constant *)
  staleness "constant" (Some s1) = Ok (PyFloat 1) /\
  (* polynomial *)
  staleness "polynomial" (Some s1) = Ok (PyFloat (Rpower (s1 + 1) (- (0.5)))) /\
  Rpower (s1 + 1) (- (0.5)) = / sqrt (s1 + 1) /\
  staleness "polynomial" (Some 0) = Ok (PyFloat 1) /\
  (s1 < s2 ->
   exists f1 f2, staleness "polynomial" (Some s1) = Ok (PyFloat f1) /\
                 staleness "polynomial" (Some s2) = Ok (PyFloat f2) /\
                 f2 < f1) /\
  (* hinge *)
  (s1 <= 4 -> staleness "hinge" (Some s1) = Ok (PyFloat 1)) /\
  (4 < s1 ->
   staleness "hinge" (Some s1) = Ok (PyFloat (1 / (10 * (s1 - 4) + 1)))) /\
  (* monotonicity *)
  (exists f1 f2, staleness "polynomial" (Some s1) = Ok (PyFloat f1) /\
                 staleness "polynomial" (Some s2) = Ok (PyFloat f2) /\
                 f2 <= f1) /\
  (exists f1 f2, staleness "hinge" (Some s1) = Ok (PyFloat f1) /\
                 staleness "hinge" (Some s2) = Ok (PyFloat f2) /\
                 f2 <= f1).
Proof.
  intros H1 H12.
  split; [reflexivity|].
  split; [apply polynomial_value; auto|].
  split; [apply Rpower_neg_half; lra|].
  split.
  { rewrite polynomial_value by lra. do 2 f_equal.
    replace (0 + 1) with 1 by lra.
    unfold Rpower. rewrite ln_1, Rmult_0_r. apply exp_0. }
  split.
  { intros Hlt. do 2 eexists.
    split; [apply polynomial_value; lra|].
    split; [apply polynomial_value; lra|].
    apply Rpower_neg_half_decreasing; lra. }
  split.
  { intros Hle. rewrite hinge_value.
    destruct (Rle_dec s1 4); [reflexivity|exfalso; lra]. }
  split.
  { intros Hlt. rewrite hinge_value.
    destruct (Rle_dec s1 4); [exfalso; lra|reflexivity]. }
  split.
  { do 2 eexists.
    split; [apply polynomial_value; lra|].
    split; [apply polynomial_value; lra|].
    destruct (Req_dec_T s1 s2) as [->|Hne]; [lra|].
    apply Rlt_le. apply Rpower_neg_half_decreasing; lra. }
  do 2 eexists.
  split; [apply hinge_value|].
  split; [apply hinge_value|].
  destruct (Rle_dec s1 4), (Rle_dec s2 4); try lra.
  - apply hinge_decay_pos; lra.
  - apply hinge_decay_monotone; lra.
Qed.

Lemma staleness_function_laws_witness :
  (0 <= 3 /\ 3 <= 8) /\
  (exists f1 f2, staleness "hinge" (Some 3) = Ok (PyFloat f1) /\
                 staleness "hinge" (Some 8) = Ok (PyFloat f2) /\
                 f2 <= f1).
Proof.
  split; [lra|].
  apply (staleness_function_laws (s1 := 3) (s2 := 8)); lra.
Defined.

(** ** Aggregation *)

Section AggregationProofs.

Context {T : Type} `{TensorOps T}.


Lemma length_add_col c acc xs : length (add_col c acc xs) = length acc.
Proof.
  revert xs; induction acc as [|a acc IH]; intros [|x xs]; simpl; auto.
Qed.

Lemma nth_error_add_col c acc xs j a x :
  nth_error acc j = Some a -> nth_error xs j = Some x ->
  nth_error (add_col c acc xs) j = Some (tadd a (tscale x c)).
Proof.
  revert xs j; induction acc as [|a0 acc IH]; intros [|x0 xs] [|j]; simpl;
    intros Ha Hx; try discriminate.
  - congruence.
  - apply IH; auto.
Qed.

Lemma getitem_middle {A} (pre : list A) a post :
  getitem (pre ++ a :: post) (length pre) = Ok a.
Proof.
  apply getitem_Ok. rewrite nth_error_app2 by lia.
  rewrite Nat.sub_diag. reflexivity.
Qed.

Lemma upd_middle {A} (pre : list A) a post x :
  upd (pre ++ a :: post) (length pre) x = pre ++ x :: post.
Proof.
  induction pre as [|b pre IH]; simpl; auto. f_equal; auto.
Qed.

Lemma add_scaled_spec (update : Weights T) :
  forall (pre acc : list T) (n total : Z),
    total <> 0%Z -> (length update <= length acc)%nat ->
    add_scaled (pre ++ acc) (length pre) update n total =
    Ok (pre ++ add_col (IZR n / IZR total) acc (map snd update)).
Proof.
  induction update as [|[name x] rest IH]; intros pre acc n total Ht Hlen.
  - simpl. destruct acc; reflexivity.
  - destruct acc as [|a acc]; [simpl in Hlen; lia|].
    cbn [add_scaled]. rewrite getitem_middle. cbn [bind].
    unfold py_div. destruct (Z.eqb_spec total 0) as [E|_]; [contradiction|].
    cbn [bind]. rewrite upd_middle.
    replace (pre ++ tadd a (tscale x (IZR n / IZR total)) :: acc)
      with ((pre ++ [tadd a (tscale x (IZR n / IZR total))]) ++ acc)
      by (rewrite <- app_assoc; reflexivity).
    replace (S (length pre))
      with (length (pre ++ [tadd a (tscale x (IZR n / IZR total))]))
      by (rewrite length_app; simpl; lia).
    rewrite IH by (simpl in Hlen; auto; lia).
    rewrite <- app_assoc. reflexivity.
Qed.


Lemma accumulate_spec (updates : list (Weights T)) :
  forall (acc : list T) (rpre rs : list (Report T)) (total : Z),
    total <> 0%Z -> length updates = length rs ->
    Forall (fun u => length u <= length acc)%nat updates ->
    accumulate acc (length rpre) updates (rpre ++ rs) total =
    Ok (add_cols total acc (combine updates rs)).
Proof.
  induction updates as [|u updates IH]; intros acc rpre rs total Ht Hlen Hall.
  - reflexivity.
  - destruct rs as [|r rs]; [discriminate|].
    cbn [accumulate]. rewrite getitem_middle. cbn [bind].
    inversion Hall as [|? ? Hu Hall']; subst.
    rewrite (@add_scaled_spec u [] acc) by auto.
    cbn [app bind].
    replace (rpre ++ r :: rs) with ((rpre ++ [r]) ++ rs)
      by (rewrite <- app_assoc; reflexivity).
    replace (S (length rpre)) with (length (rpre ++ [r]))
      by (rewrite length_app; simpl; lia).
    rewrite IH; auto.
    eapply Forall_impl; [|exact Hall'].
    intros u' Hu'. cbn beta in Hu'. rewrite length_add_col. exact Hu'.
Qed.

(** Position [j] of the accumulated list is the weighted sum of the
    [j]-th column. *)
Lemma nth_error_add_cols total (cols : list (Weights T * Report T)) :
  forall (acc : list T) j a,
    nth_error acc j = Some a ->
    Forall (fun ur => (j < length (fst ur))%nat) cols ->
    forall d,
    nth_error (add_cols total acc cols) j =
    Some (weighted_sum total
            (map (fun ur => (tensor_at j (fst ur) d, num_samples (snd ur))) cols)
            a).
Proof.
  induction cols as [|[u r] cols IH]; intros acc j a Ha Hall d.
  - exact Ha.
  - inversion Hall as [|? ? Hu Hall']; subst. cbn [fst snd] in *.
    unfold add_cols, weighted_sum. cbn [fold_left map fst snd].
    apply IH; auto.
    destruct (nth_error u j) as [[name x]|] eqn:Ex.
    2:{ apply nth_error_None in Ex. lia. }
    unfold tensor_at. rewrite Ex.
    apply nth_error_add_col; auto.
    rewrite nth_error_map, Ex. reflexivity.
Qed.

Lemma rebuild_spec (f : T -> T -> T) (baseline_weights : Weights T) :
  forall (pre avg : list T),
    (length baseline_weights <= length avg)%nat ->
    exists updated,
      rebuild (fun w a => Ok (f w a)) baseline_weights (length pre) (pre ++ avg)
      = Ok updated /\
      length updated = length baseline_weights /\
      forall j name w a,
        nth_error baseline_weights j = Some (name, w) ->
        nth_error avg j = Some a ->
        nth_error updated j = Some (name, f w a).
Proof.
  induction baseline_weights as [|[name w] rest IH]; intros pre avg Hlen.
  - exists []. repeat split; auto. intros [|j]; discriminate.
  - destruct avg as [|a avg]; [simpl in Hlen; lia|].
    cbn [rebuild]. rewrite getitem_middle. cbn [bind].
    destruct (IH (pre ++ [a]) avg) as (updated & Hr & Hl & Hn).
    { simpl in Hlen; lia. }
    rewrite length_app in Hr. simpl in Hr.
    rewrite <- app_assoc in Hr. simpl in Hr.
    rewrite Nat.add_1_r in Hr. rewrite Hr. cbn [bind].
    exists ((name, f w a) :: updated). repeat split.
    + simpl; congruence.
    + intros [|j] name' w' a' Hb Ha; simpl in *.
      * congruence.
      * apply Hn; auto.
Qed.

Lemma nth_error_mapi_from {A B} (f : nat -> A -> B) (l : list A) :
  forall i j, nth_error (mapi_from i f l) j =
              option_map (f (i + j)%nat) (nth_error l j).
Proof.
  induction l as [|a l IH]; intros i [|j]; simpl; auto.
  - rewrite Nat.add_0_r. reflexivity.
  - rewrite IH. do 2 f_equal. lia.
Qed.

Lemma length_mapi_from {A B} (f : nat -> A -> B) (l : list A) i :
  length (mapi_from i f l) = length l.
Proof.
  revert i; induction l as [|a l IH]; intros i; simpl; auto.
Qed.

Lemma mapM_map {A B} (f : A -> result B) (g : A -> B) (l : list A) :
  Forall (fun a => f a = Ok (g a)) l -> mapM f l = Ok (map g l).
Proof.
  induction 1 as [|a l Ha _ IH]; simpl; auto.
  rewrite Ha. cbn [bind]. rewrite IH. reflexivity.
Qed.

Lemma client_update_spec (model : Weights T) (w : Weights T) :
  forall i, map fst w = map fst (skipn i model) ->
            client_update model i w = Ok (deltas_from i model w).
Proof.
  induction w as [|[name x] w IH]; intros i Hn.
  - reflexivity.
  - destruct (skipn i model) as [|[name' b] rest] eqn:Es; [discriminate|].
    simpl in Hn. injection Hn as -> Hn.
    assert (Hb : nth_error model i = Some (name', b)).
    { rewrite <- (firstn_skipn i model) at 1. rewrite Es.
      assert (Hi : length (firstn i model) = i).
      { apply firstn_length_le.
        destruct (Nat.le_gt_cases i (length model)) as [|Hgt]; auto.
        rewrite skipn_all2 in Es by lia. discriminate. }
      rewrite nth_error_app2 by lia. rewrite Hi, Nat.sub_diag. reflexivity. }
    cbn [client_update].
    assert (G : getitem model i = Ok (name', b)) by (apply getitem_Ok; auto).
    rewrite G. cbn [bind]. rewrite String.eqb_refl.
    rewrite IH.
    2:{ rewrite Hn. replace (S i) with (1 + i)%nat by lia.
        rewrite <- skipn_skipn. rewrite Es. reflexivity. }
    cbn [bind]. unfold deltas_from. cbn [mapi_from fst snd].
    unfold tensor_at at 2. rewrite Hb. reflexivity.
Qed.

Lemma extract_client_updates_spec (model : Weights T) reports :
  same_names model reports ->
  extract_client_updates model reports =
  Ok (map (fun r => deltas_from 0 model (weights r)) reports).
Proof.
  intros Hn. unfold extract_client_updates. rewrite mapM_map with
    (g := fun w => deltas_from 0 model w).
  - rewrite map_map. reflexivity.
  - apply Forall_map. eapply Forall_impl; [|exact Hn].
    intros r Hr. apply client_update_spec. exact Hr.
Qed.

Lemma length_deltas_from i (model w : Weights T) :
  length (deltas_from i model w) = length w.
Proof.
  apply length_mapi_from.
Qed.

Lemma tensor_at_deltas (model w : Weights T) j name b d :
  nth_error model j = Some (name, b) -> (j < length w)%nat ->
  tensor_at j (deltas_from 0 model w) d = tsub (tensor_at j w b) b.
Proof.
  intros Hb Hj. unfold tensor_at at 1, deltas_from.
  rewrite nth_error_mapi_from.
  destruct (nth_error w j) as [[n x]|] eqn:Ex.
  2:{ apply nth_error_None in Ex. lia. }
  cbn [option_map fst snd Nat.add].
  unfold tensor_at. rewrite Hb, Ex. reflexivity.
Qed.

Lemma same_names_layout (model : Weights T) reports :
  same_names model reports -> same_layout model reports.
Proof.
  intros Hn. eapply Forall_impl; [|exact Hn].
  intros r Hr. cbn beta in Hr.
  rewrite <- (length_map fst (weights r)), Hr. apply length_map.
Qed.

Lemma combine_map_l {A B} (f : A -> B) (l : list A) :
  combine (map f l) l = map (fun a => (f a, a)) l.
Proof.
  induction l as [|a l IH]; simpl; congruence.
Qed.

(** Both accumulation loops at once: [cols r] is what report [r]
    contributes (its deltas, or its raw weights). *)
Lemma accumulated (model : Weights T) (reports : list (Report T))
      (cols : Report T -> Weights T) :
  reports <> [] -> total_samples_of reports <> 0%Z ->
  Forall (fun r => length (cols r) = length model) reports ->
  exists avg,
    (first <- zeros_of_first (map cols reports) ;;
     accumulate first 0 (map cols reports) reports (total_samples_of reports))
    = Ok avg /\
    length avg = length model /\
    forall j d, (j < length model)%nat ->
      nth_error avg j =
      Some (weighted_sum (total_samples_of reports)
              (map (fun r => (tensor_at j (cols r) d, num_samples r)) reports)
              (zero_of (map (fun r => (tensor_at j (cols r) d, num_samples r))
                            reports) d)).
Proof.
  intros Hne Ht Hlen.
  destruct reports as [|r0 rs]; [congruence|].
  set (reports := r0 :: rs) in *.
  set (zeros := map (fun nx : string * T => zeros_like (snd nx)) (cols r0)).
  assert (Hz : zeros_of_first (map cols reports) = Ok zeros) by reflexivity.
  assert (Hl0 : length (cols r0) = length model)
    by (inversion Hlen; subst; auto).
  assert (Lz : length zeros = length model)
    by (unfold zeros; rewrite length_map; auto).
  rewrite Hz. cbn [bind].
  rewrite (@accumulate_spec (map cols reports) zeros [] reports); auto.
  2:{ apply length_map. }
  2:{ apply Forall_map. eapply Forall_impl; [|exact Hlen].
      intros r Hr. cbn beta in Hr. lia. }
  eexists. split; [reflexivity|]. split.
  - unfold add_cols. generalize (combine (map cols reports) reports), zeros, Lz.
    induction l as [|ur l IH]; intros z Hzl; simpl; auto.
    apply IH. rewrite length_add_col. exact Hzl.
  - intros j d Hj.
    destruct (nth_error (cols r0) j) as [[n0 x0]|] eqn:E0.
    2:{ apply nth_error_None in E0. lia. }
    rewrite nth_error_add_cols with (a := zeros_like x0) (d := d).
    + rewrite combine_map_l, map_map. cbn [fst snd]. f_equal.
      subst reports. cbn [map zero_of].
      assert (Ex : tensor_at j (cols r0) d = x0)
        by (unfold tensor_at; rewrite E0; reflexivity).
      rewrite Ex. reflexivity.
    + unfold zeros. rewrite nth_error_map, E0. reflexivity.
    + rewrite combine_map_l. apply Forall_map.
      eapply Forall_impl; [|exact Hlen].
      intros r Hr. cbn beta in Hr. cbn [fst]. lia.
Qed.

Lemma rebuild_from_0 (f : T -> T -> T) (model : Weights T) (avg : list T)
      (g : nat -> string * T -> string * T) :
  length avg = length model ->
  (forall j name w, nth_error model j = Some (name, w) ->
     exists a, nth_error avg j = Some a /\ g j (name, w) = (name, f w a)) ->
  rebuild (fun w a => Ok (f w a)) model 0 avg = Ok (mapi_from 0 g model).
Proof.
  intros Hl Hg.
  destruct (@rebuild_spec f model [] avg) as (updated & Hr & Hlu & Hn);
    [lia|].
  cbn [app length] in Hr. rewrite Hr. f_equal.
  apply nth_error_ext. intros j.
  rewrite nth_error_mapi_from. cbn [Nat.add].
  destruct (nth_error model j) as [[name w]|] eqn:Ej.
  - destruct (Hg _ _ _ Ej) as (a & Ha & Eg).
    cbn [option_map]. rewrite Eg. eapply Hn; eauto.
  - cbn [option_map]. apply nth_error_None.
    apply nth_error_None in Ej. lia.
Qed.

(** C1: on a non-empty batch whose reports carry the tensor names of the
    model in its order, with a positive total sample count, sync
    aggregation returns, for every named tensor, the baseline plus the sum
    over the reports of (weight - baseline) * (num_samples / total). *)
Theorem federated_averaging_correct (model : Weights T)
        (reports : list (Report T)) :
  reports <> [] ->
  same_names model reports ->
  (0 < total_samples_of reports)%Z ->
  federated_averaging model reports = Ok (averaging_spec model reports).
Proof.
  intros Hne Hn Ht.
  unfold federated_averaging.
  rewrite extract_client_updates_spec by auto. cbn [bind].
  pose proof (same_names_layout Hn) as Hlay.
  destruct (@accumulated model reports
              (fun r => deltas_from 0 model (weights r)))
    as (avg & Hacc & Hlen & Hnth); auto; try lia.
  { eapply Forall_impl; [|exact Hlay].
    intros r Hr. cbn beta in *. rewrite length_deltas_from. exact Hr. }
  unfold bind in Hacc |- *.
  destruct (zeros_of_first _) as [first|e]; [|discriminate].
  rewrite Hacc.
  unfold averaging_spec. apply rebuild_from_0; auto.
  intros j name w Hj.
  assert (Hjl : (j < length model)%nat) by (apply nth_error_Some; congruence).
  assert (Hl : forall r, In r reports -> length (weights r) = length model)
    by (apply Forall_forall; exact Hlay).
  eexists. split; [apply (Hnth j w Hjl)|].
  cbn [fst snd]. do 3 f_equal.
  - unfold delta_terms. apply map_ext_in. intros r Hr.
    f_equal. symmetry. eapply tensor_at_deltas; eauto.
    rewrite (Hl r Hr). exact Hjl.
  - unfold delta_terms. f_equal. apply map_ext_in. intros r Hr.
    f_equal. symmetry. eapply tensor_at_deltas; eauto.
    rewrite (Hl r Hr). exact Hjl.
Qed.

End AggregationProofs.

Section AggregationErrors.

Context {T : Type} `{TensorOps T}.

(** The blend of [federated_async], once the coefficient is known. *)
Lemma federated_async_blend (alpha f : R) (staleness_func : string)
      (model : Weights T) (reports : list (Report T)) (s : option R) :
  reports <> [] ->
  same_layout model reports ->
  (0 < total_samples_of reports)%Z ->
  staleness staleness_func s = Ok (PyFloat f) ->
  federated_async alpha staleness_func model reports s =
  Ok (blending_spec (alpha * f) model reports).
Proof.
  intros Hne Hlay Ht Hf.
  unfold federated_async, extract_client_weights.
  destruct (@accumulated _ _ model reports (@weights T))
    as (avg & Hacc & Hlen & Hnth); auto; try lia.
  unfold bind in Hacc |- *.
  destruct (zeros_of_first _) as [first|e]; [|discriminate].
  rewrite Hacc, Hf.
  unfold blending_spec.
  apply (rebuild_from_0
           (fun weight nw => tadd (tscale weight (1 - alpha * f))
                                  (tscale nw (alpha * f)))); auto.
  intros j name w Hj.
  assert (Hjl : (j < length model)%nat) by (apply nth_error_Some; congruence).
  eexists. split; [apply (Hnth j w Hjl)|]. reflexivity.
Qed.

(** *** Empty batches and batches without samples *)

Lemma zeros_of_first_nil : zeros_of_first (@nil (Weights T)) = Raise IndexError.
Proof. reflexivity. Qed.

Lemma federated_averaging_empty (model : Weights T) :
  federated_averaging model [] = Raise IndexError.
Proof. reflexivity. Qed.

Lemma federated_async_empty alpha func (model : Weights T) s :
  federated_async alpha func model [] s = Raise IndexError.
Proof. reflexivity. Qed.

Lemma python_exn_IndexError : python_exn IndexError.
Proof. split; discriminate. Qed.

Lemma python_exn_ZeroDivisionError : python_exn ZeroDivisionError.
Proof. split; discriminate. Qed.

Lemma python_exn_AssertionError : python_exn AssertionError.
Proof. split; discriminate. Qed.

Lemma python_exn_TypeError : python_exn TypeError.
Proof. split; discriminate. Qed.

Lemma getitem_cases {A} (l : list A) i :
  getitem l i = Raise IndexError \/ exists x, getitem l i = Ok x.
Proof.
  unfold getitem. destruct (nth_error l i); eauto.
Qed.

(** Without samples a report either has no tensor to add or stops the
    accumulation. *)
Lemma add_scaled_no_samples (acc : list T) j (update : Weights T) n :
  match add_scaled acc j update n 0%Z with
  | Ok acc' => update = [] /\ acc' = acc
  | Raise e => python_exn e
  end.
Proof.
  destruct update as [|[name x] rest]; cbn [add_scaled]; auto.
  destruct (getitem_cases acc j) as [E|[a E]]; rewrite E; cbn [bind].
  - apply python_exn_IndexError.
  - apply python_exn_ZeroDivisionError.
Qed.

Lemma accumulate_no_samples (updates : list (Weights T)) :
  forall (acc : list T) i reports,
    match accumulate acc i updates reports 0%Z with
    | Ok acc' => acc' = acc /\ Forall (fun u => u = []) updates
    | Raise e => python_exn e
    end.
Proof.
  induction updates as [|u updates IH]; intros acc i reports;
    cbn [accumulate]; auto.
  destruct (getitem_cases reports i) as [E|[r E]]; rewrite E; cbn [bind].
  { apply python_exn_IndexError. }
  pose proof (add_scaled_no_samples acc 0 u (num_samples r)) as Hu.
  destruct (add_scaled acc 0 u (num_samples r) 0) as [acc'|e]; cbn [bind];
    auto.
  destruct Hu as [-> ->].
  specialize (IH acc (S i) reports).
  destruct (accumulate acc (S i) updates reports 0) as [acc'|e]; auto.
  destruct IH as [-> Hall]. auto.
Qed.

(** The first loops of both strategies on a batch without samples: an
    exception, or nothing accumulated. *)
Lemma accumulated_no_samples (updates : list (Weights T)) reports :
  match (first <- zeros_of_first updates ;;
         accumulate first 0 updates reports 0%Z) with
  | Ok avg => avg = []
  | Raise e => python_exn e
  end.
Proof.
  destruct updates as [|u updates].
  - cbn. apply python_exn_IndexError.
  - unfold zeros_of_first. cbn [getitem nth_error bind].
    pose proof (accumulate_no_samples (u :: updates)
                  (map (fun nx : string * T => zeros_like (snd nx)) u)
                  0 reports) as Hacc.
    destruct (accumulate _ 0 (u :: updates) reports 0) as [avg|e]; auto.
    destruct Hacc as [-> Hall]. inversion Hall; subst. reflexivity.
Qed.

Lemma rebuild_nothing (f : T -> T -> result T) (model : Weights T) :
  model <> [] -> rebuild f model 0 [] = Raise IndexError.
Proof.
  destruct model as [|[name w] rest]; [congruence|]. reflexivity.
Qed.

Lemma client_update_raises (model : Weights T) (w : Weights T) :
  forall i e, client_update model i w = Raise e -> python_exn e.
Proof.
  induction w as [|[name x] w IH]; intros i e; cbn [client_update].
  - discriminate.
  - destruct (getitem_cases model i) as [E|[[bl b] E]]; rewrite E;
      cbn [bind].
    + intros [= <-]. apply python_exn_IndexError.
    + destruct (name =? bl)%string.
      * specialize (IH (S i)).
        destruct (client_update model (S i) w); cbn [bind].
        -- discriminate.
        -- intros [= <-]. apply IH. reflexivity.
      * intros [= <-]. apply python_exn_AssertionError.
Qed.

Lemma extract_client_updates_raises (model : Weights T) reports e :
  extract_client_updates model reports = Raise e -> python_exn e.
Proof.
  unfold extract_client_updates.
  induction (map (@weights T) reports) as [|w ws IH]; cbn [mapM].
  - discriminate.
  - destruct (client_update model 0 w) eqn:E; cbn [bind].
    + destruct (mapM (client_update model 0) ws); cbn [bind].
      * discriminate.
      * intros [= <-]. apply IH. reflexivity.
    + intros [= <-]. eapply client_update_raises; eauto.
Qed.

Lemma staleness_raises func s e :
  staleness func s = Raise e -> python_exn e.
Proof.
  unfold staleness.
  destruct (func =? "constant")%string; [discriminate|].
  destruct (func =? "polynomial")%string.
  { destruct s as [s|].
    - unfold py_pow. destruct (Rlt_dec 0 (s + 1)); [discriminate|].
      destruct (Req_dec_T (s + 1) 0); [|discriminate].
      intros [= <-]. apply python_exn_ZeroDivisionError.
    - intros [= <-]. apply python_exn_TypeError. }
  destruct (func =? "hinge")%string; [|discriminate].
  destruct s as [s|].
  - destruct (Rle_dec s 4); discriminate.
  - intros [= <-]. apply python_exn_TypeError.
Qed.

Lemma federated_averaging_no_samples (model : Weights T) reports :
  total_samples_of reports = 0%Z -> model <> [] ->
  raises (federated_averaging model reports).
Proof.
  intros Ht Hm. unfold federated_averaging, raises.
  destruct (extract_client_updates model reports) as [updates|e] eqn:Eu;
    cbn [bind].
  2:{ exists e. split; auto. eapply extract_client_updates_raises; eauto. }
  rewrite Ht.
  pose proof (accumulated_no_samples updates reports) as Hacc.
  unfold bind in Hacc |- *.
  destruct (zeros_of_first updates) as [first|e].
  2:{ exists e. auto. }
  destruct (accumulate first 0 updates reports 0) as [avg|e].
  2:{ exists e. auto. }
  subst avg. rewrite rebuild_nothing by auto.
  exists IndexError. split; auto. apply python_exn_IndexError.
Qed.

Lemma federated_async_no_samples alpha func (model : Weights T) reports s :
  total_samples_of reports = 0%Z -> model <> [] ->
  raises (federated_async alpha func model reports s).
Proof.
  intros Ht Hm. unfold federated_async, raises, extract_client_weights.
  rewrite Ht.
  pose proof (accumulated_no_samples (map (@weights T) reports) reports)
    as Hacc.
  unfold bind in Hacc |- *.
  destruct (zeros_of_first _) as [first|e].
  2:{ exists e. auto. }
  destruct (accumulate first 0 _ reports 0) as [avg|e].
  2:{ exists e. auto. }
  subst avg.
  destruct (staleness func s) as [[|f|]|e] eqn:Es.
  - exists TypeError. split; auto. apply python_exn_TypeError.
  - rewrite rebuild_nothing by auto.
    exists IndexError. split; auto. apply python_exn_IndexError.
  - rewrite rebuild_nothing by auto.
    exists IndexError. split; auto. apply python_exn_IndexError.
  - exists e. split; auto. eapply staleness_raises; eauto.
Qed.

(** C7, amended: both strategies end in an exception on an empty batch,
    and on a batch whose total sample count is zero when the global model
    has at least one tensor. *)
Theorem aggregation_rejects_degenerate_batches
        (alpha : R) (staleness_func : string) (model : Weights T)
        (reports : list (Report T)) (s : option R) :
  reports = [] \/ (total_samples_of reports = 0%Z /\ model <> []) ->
  raises (federated_averaging model reports) /\
  raises (federated_async alpha staleness_func model reports s).
Proof.
  intros [-> | [Ht Hm]].
  - split; exists IndexError; split; auto using python_exn_IndexError.
  - split.
    + apply federated_averaging_no_samples; auto.
    + apply federated_async_no_samples; auto.
Qed.

(** *** Tensor names *)

Lemma client_update_mismatch (model : Weights T) (w : Weights T) :
  forall i j name x bl_name b,
    nth_error w j = Some (name, x) ->
    nth_error model (i + j) = Some (bl_name, b) ->
    name <> bl_name ->
    exists e, client_update model i w = Raise e.
Proof.
  induction w as [|[n0 x0] w IH]; intros i j name x bl_name b Hw Hm Hne.
  - destruct j; discriminate.
  - cbn [client_update].
    destruct (getitem_cases model i) as [E|[[bl0 b0] E]]; rewrite E;
      cbn [bind]; eauto.
    destruct (String.eqb_spec n0 bl0) as [->|Hn]; eauto.
    destruct j as [|j].
    + simpl in Hw. injection Hw as -> ->.
      rewrite Nat.add_0_r in Hm. apply getitem_Ok in E. congruence.
    + simpl in Hw.
      destruct (IH (S i) j name x bl_name b) as [e He]; auto.
      { rewrite <- Hm. f_equal. lia. }
      rewrite He. cbn [bind]. eauto.
Qed.

(** The sync strategy stops on a report that names a tensor differently
    from the model at some position. *)
Lemma federated_averaging_checks_names (model : Weights T) reports r j
      name x bl_name b :
  In r reports ->
  nth_error (weights r) j = Some (name, x) ->
  nth_error model j = Some (bl_name, b) ->
  name <> bl_name ->
  raises (federated_averaging model reports).
Proof.
  intros Hr Hw Hm Hne.
  assert (Hex : exists e, extract_client_updates model reports = Raise e).
  { unfold extract_client_updates.
    induction reports as [|r0 rs IH]; [contradiction|].
    cbn [map mapM].
    destruct (client_update model 0 (weights r0)) as [u|e] eqn:Eu;
      cbn [bind]; eauto.
    destruct Hr as [->|Hr].
    - destruct (@client_update_mismatch model (weights r) 0 j name x bl_name b)
        as [e He]; auto. congruence.
    - destruct (IH Hr) as [e He]. rewrite He. cbn [bind]. eauto. }
  destruct Hex as [e He]. unfold federated_averaging, raises.
  rewrite He. cbn [bind]. exists e. split; auto.
  eapply extract_client_updates_raises; eauto.
Qed.

End AggregationErrors.

(** C1, the scenario: sample counts 10, 20, 30 and scalar deltas 1, 2, 3
    against the baseline 0 aggregate to 7/3. *)
Lemma federated_averaging_scenario :
  federated_averaging scenario_model scenario_reports = Ok [("w"%string, 7 / 3)].
Proof.
  rewrite federated_averaging_correct.
  - unfold averaging_spec, scenario_model, scenario_reports.
    cbn. do 3 f_equal. lra.
  - discriminate.
  - repeat constructor.
  - reflexivity.
Defined.

(** ** The queue of the async round *)

Lemma entry_lt_true (a b : R * Group) : entry_lt a b = Ok true -> fst a < fst b.
Proof.
  unfold entry_lt. destruct (Req_dec_T (fst a) (fst b)).
  - destruct (gid (snd a) =? gid (snd b))%nat; discriminate.
  - destruct (Rlt_dec (fst a) (fst b)); [auto|discriminate].
Qed.

Lemma entry_lt_false (a b : R * Group) :
  entry_lt a b = Ok false -> fst b <= fst a.
Proof.
  unfold entry_lt. destruct (Req_dec_T (fst a) (fst b)) as [E|N].
  - intros _. rewrite E. apply Rle_refl.
  - destruct (Rlt_dec (fst a) (fst b)); [discriminate|]. intros _. lra.
Qed.

(** The comparison of two queued tuples raises exactly on a tie between
    two different groups, and then it is a [TypeError]. *)
Lemma entry_lt_raise (a b : R * Group) e :
  entry_lt a b = Raise e <->
  e = TypeError /\ fst a = fst b /\ gid (snd a) <> gid (snd b).
Proof.
  unfold entry_lt. destruct (Req_dec_T (fst a) (fst b)) as [E|N].
  - destruct (Nat.eqb_spec (gid (snd a)) (gid (snd b))) as [Eg|Ng].
    + split; [discriminate|]. intros (_ & _ & Hn). contradiction.
    + split.
      * intros [= <-]. auto.
      * intros (-> & _). reflexivity.
  - split; [discriminate|]. intros (_ & Hn & _). contradiction.
Qed.

Lemma py_max_spec (ds : list R) m :
  py_max ds = Ok m -> In m ds /\ Forall (fun d => d <= m) ds.
Proof.
  destruct ds as [|x ds]; [discriminate|].
  cbn [py_max]. intros [= <-].
  revert x. induction ds as [|y ds IH]; intros x; cbn [fold_left].
  - split; [left; auto|]. constructor; [apply Rle_refl|constructor].
  - destruct (IH (Rmax x y)) as [Hin Hall].
    inversion Hall as [|? ? Hxy Hall']; subst.
    split.
    + destruct Hin as [Hm|Hin]; [|right; right; auto].
      rewrite <- Hm. unfold Rmax. destruct (Rle_dec x y); simpl; auto.
    + constructor; [|constructor; auto].
      * pose proof (Rmax_l x y). lra.
      * pose proof (Rmax_r x y). lra.
Qed.

Lemma delays_of_spec (delay : nat -> option R) (cs : list nat) ds :
  delays_of delay cs = Ok ds ->
  Forall2 (fun c d => delay c = Some d) cs ds.
Proof.
  revert ds. induction cs as [|c cs IH]; intros ds; cbn [delays_of mapM].
  - intros [= <-]. constructor.
  - destruct (delay c) as [d|] eqn:Ed; cbn [bind]; [|discriminate].
    fold (delays_of delay cs).
    destruct (delays_of delay cs) as [ds'|] eqn:E; cbn [bind]; [|discriminate].
    intros [= <-]. constructor; auto.
Qed.

(** [set_aggregate_time] adds the largest delay of the group's clients to
    its download time. *)
Lemma set_aggregate_time_Ok (delay : nat -> option R) (g g' : Group) :
  set_aggregate_time delay g = Ok g' ->
  exists d ds m,
    download_time g = Some d /\
    delays_of delay (clients g) = Ok ds /\ py_max ds = Ok m /\
    g' = mkGroup (gid g) (clients g) (Some d) (Some (d + m)).
Proof.
  unfold set_aggregate_time.
  destruct (download_time g) as [d|] eqn:Ed; [|discriminate].
  destruct (delays_of delay (clients g)) as [ds|] eqn:Eds; cbn [bind];
    [|discriminate].
  destruct (py_max ds) as [m|] eqn:Em; cbn [bind]; [|discriminate].
  intros [= <-]. exists d, ds, m. repeat split; auto.
Qed.

Lemma max_delay_nonneg (delay : nat -> option R) (cs : list nat) ds m :
  (forall c d, delay c = Some d -> 0 <= d) ->
  delays_of delay cs = Ok ds -> py_max ds = Ok m -> 0 <= m.
Proof.
  intros Hnn Hds Hm.
  apply py_max_spec in Hm as [Hin _].
  apply delays_of_spec in Hds.
  clear -Hnn Hds Hin. induction Hds as [|c d cs ds Hcd _ IH].
  - contradiction.
  - destruct Hin as [<-|Hin]; eauto.
Qed.

(** [queue.put] on a heap: it raises only on a tie of two queued tuples,
    and otherwise leaves a heap with the new tuple added. *)
Lemma queue_put_spec (queue : list (R * Group)) (g : Group) t :
  heap_ordered fst queue -> aggregate_time g = Some t ->
  match queue_put queue g with
  | Ok q' => heap_ordered fst q' /\ Permutation q' (queue ++ [(t, g)])
  | Raise e =>
      e = TypeError /\
      exists a b, two_of a b (queue ++ [(t, g)]) /\ fst a = fst b
  end.
Proof.
  intros Ho Ht. unfold queue_put, get_aggregate_time. rewrite Ht. cbn [bind].
  pose proof (@heappush_spec _ fst entry_lt entry_lt_true entry_lt_false
                queue (t, g) Ho) as Hp.
  destruct (heappush entry_lt queue (t, g)) as [q'|e];
    cbn [sift_post] in Hp; auto.
  destruct Hp as (a & b & Hab & Hr).
  apply entry_lt_raise in Hr as (-> & Hk & _). eauto.
Qed.

(** [queue.get] on a heap: the tuple with the least time comes out. *)
Lemma queue_get_spec (queue : list (R * Group)) :
  heap_ordered fst queue ->
  match heappop entry_lt queue with
  | Ok (x, q') =>
      heap_ordered fst q' /\ Permutation queue (x :: q') /\
      Forall (fun a => fst x <= fst a) queue
  | Raise e =>
      (queue = [] /\ e = IndexError) \/
      (e = TypeError /\ exists a b, two_of a b queue /\ fst a = fst b)
  end.
Proof.
  intros Ho.
  pose proof (@heappop_spec _ fst entry_lt entry_lt_true entry_lt_false
                queue Ho) as Hp.
  destruct (heappop entry_lt queue) as [[x q']|e]; cbn [pop_post] in Hp.
  - destruct Hp as (H1 & H2 & H3). repeat split; auto.
    apply Forall_forall. auto.
  - destruct Hp as [Hp|(a & b & Hab & Hr)]; auto.
    apply entry_lt_raise in Hr as (-> & Hk & _). right. eauto.
Qed.

(** ** Distinct times come out in increasing order *)

Lemma two_of_distinct {A B} (f : A -> B) (a b : A) (l : list A) :
  two_of a b l -> NoDup (map f l) -> f a <> f b.
Proof.
  intros [l' Hl'] Hnd Heq.
  apply (Permutation_map f) in Hl'.
  apply (Permutation_NoDup Hl') in Hnd. cbn [map] in Hnd.
  inversion Hnd as [|? ? Hnin _]; subst.
  apply Hnin. left. symmetry. exact Heq.
Qed.

Lemma queue_put_distinct (q : list (R * Group)) (g : Group) t :
  heap_ordered fst q -> aggregate_time g = Some t ->
  NoDup (map fst (q ++ [(t, g)])) ->
  exists q', queue_put q g = Ok q' /\ heap_ordered fst q' /\
             Permutation q' (q ++ [(t, g)]).
Proof.
  intros Ho Ht Hnd.
  pose proof (@queue_put_spec q g t Ho Ht) as Hspec.
  destruct (queue_put q g) as [q'|e]; [eauto|].
  destruct Hspec as (_ & a & b & Hab & Hk).
  exfalso. eapply two_of_distinct; eauto.
Qed.

Lemma put_all_distinct (gs : list Group) :
  forall q,
    heap_ordered fst q ->
    Forall (fun g => aggregate_time g <> None) gs ->
    NoDup (map fst q ++ map due gs) ->
    exists q', put_all q gs = Ok q' /\ heap_ordered fst q' /\
               Permutation q' (q ++ map (fun g => (due g, g)) gs).
Proof.
  induction gs as [|g gs IH]; intros q Ho Hall Hnd; cbn [put_all map].
  - exists q. rewrite app_nil_r. auto.
  - inversion Hall as [|? ? Hg Hall']; subst.
    destruct (aggregate_time g) as [t|] eqn:Et; [|congruence].
    assert (Hdue : due g = t) by (unfold due; rewrite Et; reflexivity).
    rewrite Hdue in *.
    assert (Hnd1 : NoDup (map fst (q ++ [(t, g)]) ++ map due gs)).
    { rewrite map_app. cbn [map fst]. rewrite <- app_assoc.
      cbn [map] in Hnd. rewrite Hdue in Hnd. exact Hnd. }
    destruct (@queue_put_distinct q g t Ho Et) as (q1 & Hput & Ho1 & Hp1).
    { eapply NoDup_app_remove_r. exact Hnd1. }
    rewrite Hput. cbn [bind].
    destruct (IH q1 Ho1 Hall') as (q' & Hq' & Ho' & Hp').
    { eapply Permutation_NoDup; [|exact Hnd1].
      apply Permutation_app_tail. apply Permutation_map.
      symmetry. exact Hp1. }
    exists q'. split; [auto|]. split; [auto|].
    rewrite Hp', Hp1, <- app_assoc. reflexivity.
Qed.

Lemma get_all_distinct (fuel : nat) :
  forall q,
    (length q <= fuel)%nat -> heap_ordered fst q -> NoDup (map fst q) ->
    exists out, get_all fuel q = Ok out /\ Permutation out q /\
                StronglySorted (fun a b => fst a < fst b) out.
Proof.
  induction fuel as [|fuel IH]; intros q Hlen Ho Hnd.
  - destruct q; [|cbn in Hlen; lia].
    exists []. repeat split; constructor.
  - destruct q as [|e q0]; [exists []; repeat split; constructor|].
    cbn [get_all]. set (q := e :: q0) in *.
    pose proof (@queue_get_spec q Ho) as Hget.
    destruct (heappop entry_lt q) as [[x rest]|err].
    2:{ exfalso. destruct Hget as [[Hq _]|(_ & a & b & Hab & Hk)].
        - discriminate.
        - eapply two_of_distinct; eauto. }
    destruct Hget as (Ho' & Hperm & Hmin). cbn [bind].
    assert (Hnd' : NoDup (map fst (x :: rest)))
      by (eapply Permutation_NoDup; [apply Permutation_map; exact Hperm|auto]).
    cbn [map] in Hnd'. inversion Hnd' as [|? ? Hx Hndr]; subst.
    destruct (IH rest) as (out & Hout & Hpo & Hso); auto.
    { apply Permutation_length in Hperm. cbn [length] in *. lia. }
    rewrite Hout. cbn [bind]. exists (x :: out).
    split; [reflexivity|]. split.
    + rewrite Hperm. constructor. exact Hpo.
    + constructor; [exact Hso|].
      apply Forall_forall. intros a Ha.
      apply (Permutation_in _ Hpo) in Ha.
      rewrite Forall_forall in Hmin.
      assert (Hle : fst x <= fst a).
      { apply Hmin. eapply Permutation_in; [symmetry; exact Hperm|].
        right; auto. }
      assert (Hne : fst x <> fst a).
      { intros Heq. apply Hx. rewrite Heq. apply in_map. exact Ha. }
      lra.
Qed.

Lemma sorted_perm_unique (l1 : list (R * Group)) :
  forall l2,
    StronglySorted (fun a b => fst a < fst b) l1 ->
    StronglySorted (fun a b => fst a < fst b) l2 ->
    Permutation l1 l2 -> l1 = l2.
Proof.
  induction l1 as [|a l1 IH]; intros l2 H1 H2 Hp.
  - apply Permutation_nil in Hp. auto.
  - destruct l2 as [|b l2].
    { apply Permutation_sym, Permutation_nil in Hp. discriminate. }
    inversion H1 as [|? ? H1' Ha]; subst.
    inversion H2 as [|? ? H2' Hb]; subst.
    rewrite Forall_forall in Ha, Hb.
    assert (a = b) as ->.
    { assert (Hab : In a (b :: l2))
        by (eapply Permutation_in; [exact Hp|left; auto]).
      assert (Hba : In b (a :: l1))
        by (eapply Permutation_in; [symmetry; exact Hp|left; auto]).
      destruct Hab as [Hab|Hab]; [auto|].
      destruct Hba as [Hba|Hba]; [auto|].
      pose proof (Ha _ Hba). pose proof (Hb _ Hab). lra. }
    f_equal. apply IH; auto.
    eapply Permutation_cons_inv; eauto.
Qed.

(** Groups with pairwise distinct aggregate times are queued without an
    exception and leave the queue in strictly increasing order of time;
    the order in which they were inserted does not matter. *)
Theorem distinct_times_are_ordered (gs gs' : list Group) :
  Forall (fun g => aggregate_time g <> None) gs ->
  NoDup (map due gs) ->
  Permutation gs gs' ->
  exists q q' out,
    put_all [] gs = Ok q /\ put_all [] gs' = Ok q' /\
    get_all (length gs) q = Ok out /\ get_all (length gs') q' = Ok out /\
    Permutation out (map (fun g => (due g, g)) gs) /\
    StronglySorted (fun a b => fst a < fst b) out.
Proof.
  intros Hall Hnd Hperm.
  assert (Hall' : Forall (fun g => aggregate_time g <> None) gs').
  { apply Forall_forall. intros g Hg. rewrite Forall_forall in Hall.
    apply Hall. eapply Permutation_in; [symmetry; exact Hperm|auto]. }
  assert (Hnd' : NoDup (map due gs'))
    by (eapply Permutation_NoDup; [apply Permutation_map; exact Hperm|auto]).
  assert (Hnil : heap_ordered fst (@nil (R * Group)))
    by (intros i a b _ Hi; destruct i; discriminate).
  destruct (@put_all_distinct gs [] Hnil Hall Hnd) as (q & Hq & Ho & Hp).
  destruct (@put_all_distinct gs' [] Hnil Hall' Hnd') as (q' & Hq' & Ho' & Hp').
  cbn [app] in Hp, Hp'.
  assert (Hkeys : forall l : list Group,
            map fst (map (fun g => (due g, g)) l) = map due l).
  { intros l. rewrite map_map. reflexivity. }
  destruct (@get_all_distinct (length gs) q) as (out & Hout & Hpo & Hso); auto.
  { apply Permutation_length in Hp. rewrite Hp, length_map. lia. }
  { eapply Permutation_NoDup;
      [apply Permutation_map; symmetry; exact Hp|].
    rewrite Hkeys. exact Hnd. }
  destruct (@get_all_distinct (length gs') q') as (out' & Hout' & Hpo' & Hso');
    auto.
  { apply Permutation_length in Hp'. rewrite Hp', length_map. lia. }
  { eapply Permutation_NoDup;
      [apply Permutation_map; symmetry; exact Hp'|].
    rewrite Hkeys. exact Hnd'. }
  assert (out' = out) as ->.
  { apply sorted_perm_unique; auto.
    rewrite Hpo', Hp', Hpo, Hp. apply Permutation_map.
    symmetry. exact Hperm. }
  exists q, q', out. repeat split; auto.
  rewrite Hpo. exact Hp.
Qed.

(** ** Rounds *)

Lemma bindM_Ok {S A B} (m : M S A) (k : A -> M S B) s b s' :
  bindM m k s = (Ok b, s') ->
  exists a s1, m s = (Ok a, s1) /\ k a s1 = (Ok b, s').
Proof.
  unfold bindM. destruct (m s) as [[a|e] s1]; [eauto|discriminate].
Qed.

Lemma bindM_Raise {S A B} (m : M S A) (k : A -> M S B) s e s' :
  bindM m k s = (Raise e, s') ->
  m s = (Raise e, s') \/
  exists a s1, m s = (Ok a, s1) /\ k a s1 = (Raise e, s').
Proof.
  unfold bindM. destruct (m s) as [[a|e0] s1]; [eauto|].
  intros [= <- <-]. auto.
Qed.

Lemma lift_Ok {S A} (r : result A) (s s' : S) a :
  lift r s = (Ok a, s') -> r = Ok a /\ s' = s.
Proof.
  unfold lift. intros [= -> ->]. auto.
Qed.

Lemma lift_Raise {S A} (r : result A) (s s' : S) e :
  lift r s = (Raise e, s') -> r = Raise e /\ s' = s.
Proof.
  unfold lift. intros [= -> ->]. auto.
Qed.

Section RoundProofs.

Context {T : Type} `{TensorOps T}.

Variable config : Config.
Variable sample_delay : nat -> nat -> R.
Variable random_sample : nat -> list nat.
Variable get_report : nat -> nat -> Report T.
Variable test_model : Weights T -> R.

Local Abbreviation St := (Server T).
Local Abbreviation iteration :=
  (async_iteration config get_report test_model).
Local Abbreviation loop := (async_loop config get_report test_model).

Lemma evaluate_state (reports : list (Report T)) (s s' : St) r :
  evaluate config test_model reports s = (r, s') -> s' = s.
Proof.
  unfold evaluate, lift, gets. destruct (do_test config); intros [= _ ->]; auto.
Qed.

(** A completed turn of the async loop, read off the code. *)
Lemma iteration_Ok (T_old T_async : R) (queue queue' : list (R * Group))
      (s s' : St) :
  iteration T_old T_async queue s = (Ok queue', s') ->
  exists key g rest d t updated acc,
    heappop entry_lt queue = Ok ((key, g), rest) /\
    download_time g = Some d /\ aggregate_time g = Some t /\
    aggregation (sync_type config) (alpha config) (staleness_func config)
                (model s) (reporting get_report (passes s) (clients g))
                (Some (t - d)) = Ok updated /\
    s' = after_turn s updated (clients g) t acc /\
    ((t - T_old <= T_async /\
      exists g',
        set_aggregate_time (delay s) (set_download_time g t) = Ok g' /\
        queue_put rest g' = Ok queue') \/
     (~ t - T_old <= T_async /\ queue' = rest)).
Proof.
  unfold async_iteration. intros Hrun.
  apply bindM_Ok in Hrun as ([[key g] rest] & s1 & Hpop & Hrun).
  apply lift_Ok in Hpop as [Hpop ->]. cbn [snd] in Hrun.
  apply bindM_Ok in Hrun as (d & s1 & Hd & Hrun).
  apply lift_Ok in Hd as [Hd ->].
  apply bindM_Ok in Hrun as (k & s1 & Hk & Hrun).
  unfold train in Hk. injection Hk as <- <-.
  apply bindM_Ok in Hrun as (t & s1 & Ht & Hrun).
  apply lift_Ok in Ht as [Ht ->].
  apply bindM_Ok in Hrun as ([] & s1 & Hlog & Hrun).
  unfold log_finished, modify in Hlog. injection Hlog as <-.
  cbn [model records delay draws passes log] in Hrun.
  apply bindM_Ok in Hrun as (updated & s1 & Hagg & Hrun).
  unfold aggregate in Hagg.
  apply bindM_Ok in Hagg as (m & s2 & Hm & Hagg).
  unfold gets in Hm. injection Hm as <- <-.
  apply lift_Ok in Hagg as [Hagg ->]. cbn [model] in Hagg.
  apply bindM_Ok in Hrun as ([] & s1 & Hload & Hrun).
  unfold load_weights, modify in Hload. injection Hload as <-.
  cbn [model records delay draws passes log] in Hrun.
  apply bindM_Ok in Hrun as (acc & s1 & Hacc & Hrun).
  apply evaluate_state in Hacc as ->.
  apply bindM_Ok in Hrun as (rs & s1 & Hrs & Hrun).
  unfold gets in Hrs. injection Hrs as <- <-. cbn [records] in Hrun.
  apply bindM_Ok in Hrun as ([] & s1 & Hset & Hrun).
  unfold set_records, modify in Hset. injection Hset as <-.
  cbn [model records delay draws passes log] in Hrun.
  unfold get_download_time in Hd. unfold get_aggregate_time in Ht.
  destruct (download_time g) as [d'|] eqn:Ed; [|discriminate].
  destruct (aggregate_time g) as [t'|] eqn:Et; [|discriminate].
  injection Hd as ->. injection Ht as ->.
  exists key, g, rest, d, t, updated, acc.
  repeat (split; [solve [auto]|]).
  destruct (Rle_dec (t - T_old) T_async) as [Hle|Hgt].
  - apply bindM_Ok in Hrun as (g' & s1 & Hg' & Hrun).
    injection Hg' as Hg' <-. cbn [delay] in Hg'.
    apply lift_Ok in Hrun as [Hput ->].
    split; [reflexivity|]. left. split; auto. exists g'. auto.
  - unfold ret in Hrun. injection Hrun as <- <-.
    split; [reflexivity|]. right. auto.
Qed.

(** A turn that raises: it stopped before anything was recorded, or after
    the group was logged, or after its record was appended (in the
    re-enqueue). *)
Lemma iteration_Raise (T_old T_async : R) (queue : list (R * Group))
      (s s' : St) e :
  iteration T_old T_async queue s = (Raise e, s') ->
  (records s' = records s /\ log s' = log s /\ delay s' = delay s) \/
  (exists key g rest t,
     heappop entry_lt queue = Ok ((key, g), rest) /\
     aggregate_time g = Some t /\ delay s' = delay s /\
     log s' = log s ++ [(clients g, t)] /\
     (records s' = records s \/
      exists acc, records s' = append_acc_record (records s) t acc)).
Proof.
  unfold async_iteration. intros Hrun.
  apply bindM_Raise in Hrun as [Hpop|([[key g] rest] & s1 & Hpop & Hrun)].
  { apply lift_Raise in Hpop as [_ ->]. auto. }
  apply lift_Ok in Hpop as [Hpop ->]. cbn [snd] in Hrun.
  apply bindM_Raise in Hrun as [Hd|(d & s1 & Hd & Hrun)].
  { apply lift_Raise in Hd as [_ ->]. auto. }
  apply lift_Ok in Hd as [Hd ->].
  apply bindM_Raise in Hrun as [Hk|(k & s1 & Hk & Hrun)].
  { discriminate. }
  unfold train in Hk. injection Hk as <- <-.
  apply bindM_Raise in Hrun as [Ht|(t & s1 & Ht & Hrun)].
  { apply lift_Raise in Ht as [_ ->]. auto. }
  apply lift_Ok in Ht as [Ht ->].
  unfold get_aggregate_time in Ht.
  destruct (aggregate_time g) as [t'|] eqn:Et; [|discriminate].
  injection Ht as ->.
  right. exists key, g, rest, t. split; [auto|]. split; [auto|].
  apply bindM_Raise in Hrun as [Hlog|([] & s1 & Hlog & Hrun)].
  { discriminate. }
  unfold log_finished, modify in Hlog. injection Hlog as <-.
  cbn [model records delay draws passes log] in Hrun.
  apply bindM_Raise in Hrun as [Hagg|(updated & s1 & Hagg & Hrun)].
  { unfold aggregate in Hagg.
    apply bindM_Raise in Hagg as [Hm|(m & s2 & Hm & Hagg)]; [discriminate|].
    unfold gets in Hm. injection Hm as <- <-.
    apply lift_Raise in Hagg as [_ ->]. cbn. auto. }
  unfold aggregate in Hagg.
  apply bindM_Ok in Hagg as (m & s2 & Hm & Hagg).
  unfold gets in Hm. injection Hm as <- <-.
  apply lift_Ok in Hagg as [Hagg ->].
  apply bindM_Raise in Hrun as [Hload|([] & s1 & Hload & Hrun)].
  { discriminate. }
  unfold load_weights, modify in Hload. injection Hload as <-.
  cbn [model records delay draws passes log] in Hrun.
  apply bindM_Raise in Hrun as [Hacc|(acc & s1 & Hacc & Hrun)].
  { apply evaluate_state in Hacc as ->. cbn. auto. }
  apply evaluate_state in Hacc as ->.
  apply bindM_Raise in Hrun as [Hrs|(rs & s1 & Hrs & Hrun)].
  { discriminate. }
  unfold gets in Hrs. injection Hrs as <- <-. cbn [records] in Hrun.
  apply bindM_Raise in Hrun as [Hset|([] & s1 & Hset & Hrun)].
  { discriminate. }
  unfold set_records, modify in Hset. injection Hset as <-.
  cbn [model records delay draws passes log] in Hrun.
  assert (Hs' : s' = after_turn s updated (clients g) t acc).
  { destruct (Rle_dec (t - T_old) T_async) as [Hle|Hgt].
    - apply bindM_Raise in Hrun as [Hg'|(g' & s1 & Hg' & Hrun)].
      + injection Hg' as _ <-. reflexivity.
      + injection Hg' as _ <-. apply lift_Raise in Hrun as [_ ->].
        reflexivity.
    - discriminate. }
  subst s'. cbn. repeat split; eauto.
Qed.

(** The invariant rule of the [while not queue.empty()] loop. *)
Lemma loop_rule (T_old T_async : R)
      (I : list (R * Group) -> St -> Prop) (E : St -> Prop) :
  (forall q s q' s', I q s ->
     iteration T_old T_async q s = (Ok q', s') -> I q' s') ->
  (forall q s e s', I q s ->
     iteration T_old T_async q s = (Raise e, s') -> E s') ->
  (forall q s, I q s -> E s) ->
  forall fuel q s, I q s ->
    match loop fuel T_old T_async q s with
    | (Ok _, s') => I [] s'
    | (Raise _, s') => E s'
    end.
Proof.
  intros Hstep Hfail HE.
  induction fuel as [|fuel IH]; intros q s HI;
    destruct q as [|x q]; cbn [async_loop]; auto.
  - unfold lift. eauto.
  - unfold bindM.
    destruct (iteration T_old T_async (x :: q) s) as [[q'|e] s1] eqn:Eit.
    + apply IH. eauto.
    + eauto.
Qed.

(** *** The loop that opens a round *)

Lemma set_delays_frame (cs : list nat) :
  forall (s s' : St) r,
    set_delays sample_delay cs s = (r, s') ->
    r = Ok tt /\ model s' = model s /\ records s' = records s /\
    passes s' = passes s /\ log s' = log s /\
    draws s' = (draws s + length cs)%nat /\
    forall c, delay s' c = delay s c \/
              (In c cs /\ exists k, delay s' c = Some (sample_delay c k)).
Proof.
  induction cs as [|c cs IH]; intros s s' r; cbn [set_delays].
  - unfold ret. intros [= <- <-]. cbn [length].
    repeat split; auto; lia.
  - unfold bindM, set_delay, modify. intros Hrun.
    apply IH in Hrun as (-> & Hm & Hr & Hp & Hl & Hd & Hdel).
    cbn [model records passes log draws delay] in *.
    do 6 (split; [solve [auto | cbn [length]; lia]|]).
    intros c'. destruct (Hdel c') as [E|[Hin Hk]].
    + rewrite E. destruct (Nat.eqb_spec c' c) as [Heq|Hne]; auto.
      right. split; [left; auto|]. rewrite Heq. eauto.
    + right. split; [right; auto|]. exact Hk.
Qed.

Lemma start_groups_frame (T_old : R) (groups : list Group) :
  forall (s s' : St) r,
    start_groups sample_delay T_old groups s = (r, s') ->
    model s' = model s /\ records s' = records s /\
    passes s' = passes s /\ log s' = log s /\
    forall c, delay s' c = delay s c \/
              (In c (concat (map clients groups)) /\
               exists k, delay s' c = Some (sample_delay c k)).
Proof.
  induction groups as [|g groups IH]; intros s s' r; cbn [start_groups].
  - unfold ret. intros [= <- <-]. repeat split; auto.
  - unfold bindM at 1.
    destruct (set_delays sample_delay (clients g) s) as [r1 s1] eqn:E1.
    apply set_delays_frame in E1 as (-> & Hm & Hr & Hp & Hl & _ & Hdel).
    unfold bindM at 1. cbn [map concat].
    destruct (set_aggregate_time (delay s1) (set_download_time g T_old))
      as [g'|e].
    2:{ intros [= <- <-]. repeat split; auto.
        intros c. destruct (Hdel c) as [E|[Hin Hk]]; auto.
        right. split; auto. apply in_or_app. auto. }
    unfold bindM.
    destruct (start_groups sample_delay T_old groups s1)
      as [[[gs cs]|e] s2] eqn:E2;
      apply IH in E2 as (Hm2 & Hr2 & Hp2 & Hl2 & Hdel2);
      intros [= <- <-];
      (repeat split; [congruence..|]);
      intros c; (destruct (Hdel2 c) as [E|[Hin Hk]];
                 [|right; split; [apply in_or_app|]; auto]);
      rewrite E; (destruct (Hdel c) as [E'|[Hin' Hk']];
                  [|right; split; [apply in_or_app|]]); auto.
Qed.

Section NonNegativeDelays.

Hypothesis sample_delay_nonneg : forall c k, 0 <= sample_delay c k.

Lemma set_delays_nonneg (cs : list nat) (s s' : St) r :
  set_delays sample_delay cs s = (r, s') ->
  delays_nonneg s -> delays_nonneg s'.
Proof.
  intros Hrun Hs c d Hc.
  apply set_delays_frame in Hrun as (_ & _ & _ & _ & _ & _ & Hdel).
  destruct (Hdel c) as [E|[_ [k Hk]]].
  - apply (Hs c). congruence.
  - assert (d = sample_delay c k) by congruence. subst. auto.
Qed.

Lemma start_groups_nonneg (T_old : R) (groups : list Group) (s s' : St) r :
  start_groups sample_delay T_old groups s = (r, s') ->
  delays_nonneg s -> delays_nonneg s'.
Proof.
  intros Hrun Hs c d Hc.
  apply start_groups_frame in Hrun as (_ & _ & _ & _ & Hdel).
  destruct (Hdel c) as [E|[_ [k Hk]]].
  - apply (Hs c). congruence.
  - assert (d = sample_delay c k) by congruence. subst. auto.
Qed.

(** The groups a round starts with: downloaded at [T_old], aggregated no
    earlier. *)
Lemma start_groups_times (T_old : R) (groups : list Group) :
  forall (s s' : St) gs cs,
    start_groups sample_delay T_old groups s = (Ok (gs, cs), s') ->
    delays_nonneg s ->
    Forall (fun g => download_time g = Some T_old /\
                     exists m, 0 <= m /\
                               aggregate_time g = Some (T_old + m)) gs.
Proof.
  induction groups as [|g groups IH]; intros s s' gs cs; cbn [start_groups].
  - unfold ret. intros [= <- <- <-] _. constructor.
  - intros Hrun Hs.
    apply bindM_Ok in Hrun as ([] & s1 & E1 & Hrun).
    pose proof (@set_delays_nonneg _ _ _ _ E1 Hs) as Hs1.
    apply bindM_Ok in Hrun as (g' & s2 & Eg & Hrun).
    injection Eg as Eg <-.
    apply bindM_Ok in Hrun as ([gs' cs'] & s3 & E2 & Hrun).
    unfold ret in Hrun. injection Hrun as <- <- <-.
    constructor; [|eapply IH; eauto].
    apply set_aggregate_time_Ok in Eg as (d & ds & m & Hd & Hds & Hm & ->).
    cbn in Hd. injection Hd as <-. cbn. split; auto.
    exists m. split; auto.
    eapply max_delay_nonneg; eauto.
Qed.

(** *** Time does not run backwards *)

Lemma sorted_app_last (l : list R) (x : R) :
  StronglySorted Rle l -> Forall (fun t => t <= x) l ->
  StronglySorted Rle (l ++ [x]).
Proof.
  induction 1 as [|a l Hs IH Ha]; intros Hall; cbn [app].
  - constructor; constructor.
  - inversion Hall as [|? ? Hax Hall']; subst.
    constructor; auto.
    apply Forall_app. split; auto.
Qed.

Lemma Forall_le_app_last (l : list R) (b x : R) :
  Forall (fun t => t <= b) l -> b <= x ->
  Forall (fun t => t <= x) (l ++ [x]).
Proof.
  intros Hall Hbx. apply Forall_app. split.
  - eapply Forall_impl; [|exact Hall]. intros t Ht. cbn beta in Ht. lra.
  - constructor; [apply Rle_refl|constructor].
Qed.

Lemma Forall_le_trans (l : list R) (b x : R) :
  Forall (fun t => t <= b) l -> b <= x -> Forall (fun t => t <= x) l.
Proof.
  intros Hall Hbx.
  eapply Forall_impl; [|exact Hall]. intros t Ht. cbn beta in Ht. lra.
Qed.

Lemma last_item_app {A} (l : list A) (x : A) : last_item (l ++ [x]) = Ok x.
Proof.
  unfold last_item. rewrite rev_app_distr. reflexivity.
Qed.

Lemma last_item_In {A} (l : list A) (x : A) : last_item l = Ok x -> In x l.
Proof.
  unfold last_item. destruct (rev l) as [|y r] eqn:E; [discriminate|].
  intros [= ->]. apply in_rev. rewrite E. left; auto.
Qed.

Lemma sorted_le_last (l : list R) (x : R) :
  StronglySorted Rle l -> last_item l = Ok x -> Forall (fun t => t <= x) l.
Proof.
  destruct l as [|y l] using rev_ind; [constructor|].
  rewrite last_item_app. intros Hs [= ->].
  clear IHl. apply Forall_app. split.
  - clear -Hs. induction l as [|a l IH]; [constructor|].
    cbn [app] in Hs. inversion Hs as [|? ? Hs' Ha]; subst.
    constructor; auto.
    rewrite Forall_app in Ha. destruct Ha as [_ Ha].
    inversion Ha; auto.
  - constructor; [apply Rle_refl|constructor].
Qed.

Lemma times_ok_monotone l0 b (s : St) : times_ok l0 b s -> monotone l0 s.
Proof.
  intros (Hs & _ & l & Hl & Hsl & _). split; eauto.
Qed.

(** Logging a turn at [t], and maybe recording it, keeps the times in
    order when nothing so far is later than [b <= t]. *)
Lemma times_ok_turn l0 b t cs (s s' : St) :
  times_ok l0 b s -> b <= t ->
  log s' = log s ++ [(cs, t)] ->
  (records s' = records s \/
   exists acc, records s' = append_acc_record (records s) t acc) ->
  times_ok l0 t s'.
Proof.
  intros (Hs & Hb & l & Hl & Hsl & Hbl) Hbt Hlog Hrec.
  assert (Hlog' : exists l', log s' = l0 ++ l' /\
                    StronglySorted Rle (map snd l') /\
                    Forall (fun x => x <= t) (map snd l')).
  { exists (l ++ [(cs, t)]). rewrite Hlog, Hl, <- app_assoc.
    split; [reflexivity|]. rewrite map_app. cbn [map snd]. split.
    - apply sorted_app_last; auto. eapply Forall_le_trans; eauto.
    - eapply Forall_le_app_last; eauto. }
  unfold times_ok. destruct Hrec as [->|[acc ->]].
  - split; [auto|]. split; [|auto]. eapply Forall_le_trans; eauto.
  - cbn [append_acc_record rec_t]. split; [|split; [|auto]].
    + apply sorted_app_last; auto. eapply Forall_le_trans; eauto.
    + eapply Forall_le_app_last; eauto.
Qed.

Lemma queue_ok_popped b (q rest : list (R * Group)) key g :
  queue_ok b q -> heappop entry_lt q = Ok ((key, g), rest) ->
  b <= key /\ aggregate_time g = Some key /\ queue_ok key rest.
Proof.
  intros [Ho Hall] Hpop.
  pose proof (queue_get_spec Ho) as Hget. rewrite Hpop in Hget.
  destruct Hget as (Ho' & Hperm & Hmin).
  rewrite Forall_forall in Hall, Hmin.
  assert (Hin : In (key, g) q)
    by (eapply Permutation_in; [symmetry; exact Hperm|left; auto]).
  destruct (Hall _ Hin) as [Hb Ha]. cbn [fst snd] in *.
  split; [auto|]. split; [auto|]. split; [auto|].
  apply Forall_forall. intros e He.
  assert (Hie : In e q)
    by (eapply Permutation_in; [symmetry; exact Hperm|right; auto]).
  split; [apply (Hmin e Hie)|apply (Hall e Hie)].
Qed.

Lemma queue_ok_put b (q q' : list (R * Group)) g t :
  queue_ok b q -> aggregate_time g = Some t -> b <= t ->
  queue_put q g = Ok q' ->
  queue_ok b q' /\ Permutation q' (q ++ [(t, g)]).
Proof.
  intros [Ho Hall] Ht Hbt Hput.
  pose proof (@queue_put_spec q g t Ho Ht) as Hspec. rewrite Hput in Hspec.
  destruct Hspec as [Ho' Hperm]. split; [|auto]. split; [auto|].
  apply Forall_forall. intros e He.
  apply (Permutation_in _ Hperm) in He. apply in_app_or in He as [He|He].
  - rewrite Forall_forall in Hall. auto.
  - destruct He as [<-|[]]. auto.
Qed.

Lemma in_round_step l0 T_old T_async (s0 : St) q s q' s' :
  in_round l0 T_old s0 q s ->
  iteration T_old T_async q s = (Ok q', s') ->
  in_round l0 T_old s0 q' s'.
Proof.
  intros (b & Hq & Ht & Hd & _) Hrun.
  apply iteration_Ok in Hrun
    as (key & g & rest & d & t & updated & acc & Hpop & Hdl & Hat & _ & -> & Hq').
  destruct (queue_ok_popped Hq Hpop) as (Hbk & Hak & Hrest).
  assert (t = key) as -> by congruence.
  exists key. split; [|split; [|split]].
  - destruct Hq' as [(_ & g' & Hg' & Hput)|(_ & ->)]; [|auto].
    apply set_aggregate_time_Ok in Hg' as (d' & ds & m & Hd' & Hds & Hm & ->).
    cbn in Hd', Hds. injection Hd' as <-.
    assert (Hm0 : 0 <= m) by (eapply max_delay_nonneg; eauto).
    assert (Hkm : key <= key + m) by lra.
    refine (proj1 (@queue_ok_put key rest q' _ (key + m) Hrest _ Hkm Hput)).
    reflexivity.
  - eapply times_ok_turn; eauto; cbn; eauto.
  - exact Hd.
  - right. cbn. apply last_item_app.
Qed.

Lemma in_round_fail l0 T_old T_async (s0 : St) q s e s' :
  in_round l0 T_old s0 q s ->
  iteration T_old T_async q s = (Raise e, s') ->
  monotone l0 s'.
Proof.
  intros (b & Hq & Ht & Hd & _) Hrun.
  apply iteration_Raise in Hrun
    as [(Hr & Hl & _)|(key & g & rest & t & Hpop & Hat & _ & Hl & Hr)].
  - apply times_ok_monotone in Ht. destruct Ht as (Hs & l & Hll & Hsl).
    split; [rewrite Hr; auto|]. exists l. rewrite Hl. auto.
  - destruct (queue_ok_popped Hq Hpop) as (Hbk & Hak & _).
    assert (t = key) as -> by congruence.
    eapply times_ok_monotone. eapply times_ok_turn; eauto.
Qed.

Lemma in_round_monotone l0 T_old (s0 : St) q s :
  in_round l0 T_old s0 q s -> monotone l0 s.
Proof.
  intros (b & _ & Ht & _). eapply times_ok_monotone; eauto.
Qed.

Lemma put_all_ok b (gs : list Group) :
  forall q q',
    queue_ok b q ->
    Forall (fun g => exists t, aggregate_time g = Some t /\ b <= t) gs ->
    put_all q gs = Ok q' ->
    queue_ok b q' /\ Permutation (map snd q') (map snd q ++ gs).
Proof.
  induction gs as [|g gs IH]; intros q q' Hq Hall; cbn [put_all].
  - intros [= <-]. rewrite app_nil_r. auto.
  - inversion Hall as [|? ? (t & Ht & Hbt) Hall']; subst.
    destruct (queue_put q g) as [q1|] eqn:Eput; cbn [bind]; [|discriminate].
    intros Hrest.
    destruct (@queue_ok_put b q q1 g t Hq Ht Hbt Eput) as [Hq1 Hp1].
    destruct (IH q1 q' Hq1 Hall' Hrest) as [Hq' Hp']. split; [auto|].
    rewrite Hp'. apply (Permutation_map snd) in Hp1. rewrite Hp1.
    rewrite map_app. cbn [map snd]. rewrite <- app_assoc. reflexivity.
Qed.

Lemma between_rounds_monotone l0 T_old (s : St) :
  between_rounds l0 T_old s -> monotone l0 s.
Proof.
  intros (Ht & _). eapply times_ok_monotone; eauto.
Qed.

Lemma times_ok_frame l0 b (s s' : St) :
  records s' = records s -> log s' = log s ->
  times_ok l0 b s -> times_ok l0 b s'.
Proof.
  unfold times_ok. intros -> ->. auto.
Qed.

Lemma async_round_between l0 fuel round T_old T_async (s : St) :
  between_rounds l0 T_old s ->
  match async_round config sample_delay random_sample get_report test_model
                    fuel round T_old T_async s with
  | (Ok (_, T_new), s') => between_rounds l0 T_new s'
  | (Raise _, s') => monotone l0 s'
  end.
Proof.
  intros (Ht & Hd & Hlast). unfold async_round.
  unfold bindM at 1.
  destruct (start_groups sample_delay T_old (selection random_sample round) s)
    as [[[gs cs]|e] s1] eqn:Estart.
  2:{ apply start_groups_frame in Estart as (_ & Hr & _ & Hl & _).
      eapply times_ok_monotone. eapply times_ok_frame; eauto. }
  pose proof (start_groups_times _ _ Estart Hd) as Hgs.
  pose proof (start_groups_nonneg _ _ Estart Hd) as Hd1.
  apply start_groups_frame in Estart as (_ & Hr & _ & Hl & _).
  assert (Ht1 : times_ok l0 T_old s1) by (eapply times_ok_frame; eauto).
  unfold bindM at 1, lift at 1.
  destruct (put_all [] gs) as [q0|e] eqn:Eput.
  2:{ eapply times_ok_monotone; eauto. }
  assert (Hq0 : queue_ok T_old q0).
  { eapply (@put_all_ok T_old gs [] q0); eauto.
    - split; [|constructor]. intros i a b _ Hi. destruct i; discriminate.
    - eapply Forall_impl; [|exact Hgs].
      intros g (_ & m & Hm & Hg). exists (T_old + m). split; auto. lra. }
  assert (Hin : in_round l0 T_old s1 q0 s1).
  { exists T_old. split; [exact Hq0|]. split; [exact Ht1|].
    split; [exact Hd1|]. left; auto. }
  pose proof (@loop_rule T_old T_async (in_round l0 T_old s1) (monotone l0)
                (@in_round_step l0 T_old T_async s1)
                (@in_round_fail l0 T_old T_async s1)
                (@in_round_monotone l0 T_old s1) fuel q0 s1 Hin) as Hloop.
  unfold bindM at 1.
  destruct (loop fuel T_old T_async q0 s1) as [[[]|e] s2]; [|exact Hloop].
  unfold bindM at 1, gets at 1. unfold bindM at 1, lift at 1.
  destruct (get_latest_acc (records s2)) as [acc|e].
  2:{ eapply in_round_monotone; eauto. }
  unfold bindM, lift, ret.
  destruct (get_latest_t (records s2)) as [t|e] eqn:Elast.
  2:{ eapply in_round_monotone; eauto. }
  destruct Hloop as (b & _ & Ht2 & Hd2 & Hb).
  unfold get_latest_t in Elast.
  assert (t = b) as ->.
  { destruct Hb as [(-> & Hr2 & _)|Hb]; [|congruence].
    rewrite Hr2, Hr in Elast.
    destruct Hlast as [Hnil|Hlast]; [rewrite Hnil in Elast; discriminate|].
    congruence. }
  split; [auto|]. split; [auto|]. right. exact Elast.
Qed.

Lemma aggregate_state (reports : list (Report T)) st (s s' : St) r :
  aggregate config reports st s = (r, s') -> s' = s.
Proof.
  unfold aggregate, bindM, gets, lift. intros [= _ ->]. reflexivity.
Qed.

Lemma sync_round_between l0 round T_old (s : St) :
  between_rounds l0 T_old s ->
  match sync_round config sample_delay random_sample get_report test_model
                   round T_old s with
  | (Ok (_, T_new), s') => between_rounds l0 T_new s'
  | (Raise _, s') => monotone l0 s'
  end.
Proof.
  intros (Ht & Hd & Hlast). unfold sync_round.
  unfold bindM at 1.
  destruct (start_groups sample_delay T_old (selection random_sample round) s)
    as [[[gs cs]|e] s1] eqn:Estart.
  2:{ apply start_groups_frame in Estart as (_ & Hr & _ & Hl & _).
      eapply times_ok_monotone. eapply times_ok_frame; eauto. }
  pose proof (start_groups_nonneg _ _ Estart Hd) as Hd1.
  apply start_groups_frame in Estart as (_ & Hr & _ & Hl & _).
  assert (Ht1 : times_ok l0 T_old s1) by (eapply times_ok_frame; eauto).
  unfold bindM at 1.
  destruct (delays_of (delay s1) cs) as [ds|e] eqn:Eds.
  2:{ eapply times_ok_monotone; eauto. }
  unfold bindM at 1, lift at 1.
  destruct (py_max ds) as [max_delay|e] eqn:Emax.
  2:{ eapply times_ok_monotone; eauto. }
  assert (Hmax : 0 <= max_delay) by (eapply max_delay_nonneg; eauto).
  unfold bindM at 1, train at 1.
  set (s2 := mkServer (model s1) (records s1) (delay s1) (draws s1)
                      (S (passes s1)) (log s1)).
  assert (Ht2 : times_ok l0 T_old s2) by (eapply times_ok_frame; eauto).
  unfold bindM at 1.
  destruct (aggregate config (reporting get_report (passes s1) cs) None s2)
    as [[updated|e] s3] eqn:Eagg; apply aggregate_state in Eagg as ->.
  2:{ eapply times_ok_monotone; eauto. }
  unfold bindM at 1, load_weights at 1, modify at 1.
  set (s3 := mkServer updated (records s2) (delay s2) (draws s2) (passes s2)
                      (log s2)).
  assert (Ht3 : times_ok l0 T_old s3) by (eapply times_ok_frame; eauto).
  unfold bindM at 1.
  destruct (evaluate config test_model (reporting get_report (passes s1) cs) s3)
    as [[accuracy|e] s4] eqn:Eev; apply evaluate_state in Eev as ->.
  2:{ eapply times_ok_monotone; eauto. }
  unfold bindM, gets, set_records, modify, ret.
  destruct Ht3 as (Hs3 & Hb3 & l & Hl3 & Hsl & Hbl).
  assert (Hle : T_old <= T_old + max_delay) by lra.
  split; [|split].
  - cbn [records append_acc_record rec_t log]. split; [|split].
    + apply sorted_app_last; auto.
      eapply Forall_le_trans; eauto.
    + eapply Forall_le_app_last; eauto.
    + exists l. split; [exact Hl3|]. split; [auto|].
      eapply Forall_le_trans; eauto.
  - exact Hd1.
  - right. cbn. apply last_item_app.
Qed.

Lemma run_rounds_monotone l0 fuel (todo : list nat) :
  forall T_old (s : St),
    between_rounds l0 T_old s ->
    monotone l0
      (snd (run_rounds config sample_delay random_sample get_report test_model
                       fuel todo T_old s)).
Proof.
  induction todo as [|round todo IH]; intros T_old s Hs; cbn [run_rounds].
  - eapply between_rounds_monotone; eauto.
  - unfold bindM.
    destruct (sync_type config =? "sync")%string.
    { pose proof (@sync_round_between l0 round T_old s Hs) as Hr.
      destruct (sync_round _ _ _ _ _ round T_old s) as [[[acc T_new]|e] s'];
        [|exact Hr].
      destruct (target_reached config acc); [|apply IH; auto].
      eapply between_rounds_monotone; eauto. }
    destruct (sync_type config =? "async")%string.
    { pose proof (@async_round_between l0 fuel round T_old (interval config)
                    s Hs) as Hr.
      destruct (async_round _ _ _ _ _ fuel round T_old (interval config) s)
        as [[[acc T_new]|e] s']; [|exact Hr].
      destruct (target_reached config acc); [|apply IH; auto].
      eapply between_rounds_monotone; eauto. }
    eapply between_rounds_monotone; eauto.
Qed.

(** C5: when no client delay is negative, in every run, sync or async,
    whatever its outcome (completed, stopped by an exception, or still in
    an async round when the budget of the embedding ends), the times of the
    Record are non-decreasing, and so are the times logged turn after turn
    by the async rounds: the [aggregate_time] of each popped group, in the
    order of the pops. *)
Theorem time_is_monotonic (fuel : nat) (s : St) :
  delays_nonneg s ->
  let s' := snd (run config sample_delay random_sample get_report test_model
                     fuel s) in
  StronglySorted Rle (rec_t (records s')) /\
  exists l, log s' = log s ++ l /\ StronglySorted Rle (map snd l).
Proof.
  intros Hd. unfold run, bindM, set_records, modify. cbv zeta.
  apply run_rounds_monotone.
  split; [|split].
  - cbn. split; [constructor|]. split; [constructor|].
    exists []. rewrite app_nil_r. repeat split; constructor.
  - exact Hd.
  - left. reflexivity.
Qed.

End NonNegativeDelays.

End RoundProofs.

(** ** Staleness in the async loop *)

Lemma delays_of_ext (delay1 delay2 : nat -> option R) (cs : list nat) :
  (forall c, In c cs -> delay1 c = delay2 c) ->
  delays_of delay1 cs = delays_of delay2 cs.
Proof.
  unfold delays_of. induction cs as [|c cs IH]; intros Hext; cbn [mapM]; auto.
  rewrite (Hext c) by (left; auto). rewrite IH; auto.
  intros c' Hc'. apply Hext. right; auto.
Qed.

Lemma queue_put_perm (q q' : list (R * Group)) (g : Group) :
  heap_ordered fst q -> queue_put q g = Ok q' ->
  exists t, aggregate_time g = Some t /\
            heap_ordered fst q' /\ Permutation q' (q ++ [(t, g)]).
Proof.
  intros Ho Hput.
  destruct (aggregate_time g) as [t|] eqn:Et.
  2:{ unfold queue_put, get_aggregate_time in Hput. rewrite Et in Hput.
      discriminate. }
  pose proof (@queue_put_spec q g t Ho Et) as Hspec.
  rewrite Hput in Hspec. exists t. tauto.
Qed.

Lemma put_all_perm (P : R * Group -> Prop) (gs : list Group) :
  forall q q',
    heap_ordered fst q -> Forall P q ->
    (forall g t, In g gs -> aggregate_time g = Some t -> P (t, g)) ->
    put_all q gs = Ok q' ->
    heap_ordered fst q' /\ Forall P q' /\
    Permutation (map snd q') (map snd q ++ gs).
Proof.
  induction gs as [|g gs IH]; intros q q' Ho HP Hgs; cbn [put_all].
  - intros [= <-]. rewrite app_nil_r. auto.
  - destruct (queue_put q g) as [q1|] eqn:Eput; cbn [bind]; [|discriminate].
    intros Hrest.
    destruct (@queue_put_perm q q1 g Ho Eput) as (t & Ht & Ho1 & Hp1).
    assert (HP1 : Forall P q1).
    { apply Forall_forall. intros e He.
      apply (Permutation_in _ Hp1) in He. apply in_app_or in He as [He|He].
      - rewrite Forall_forall in HP. auto.
      - destruct He as [<-|[]]. apply Hgs; auto. left; auto. }
    destruct (IH q1 q' Ho1 HP1) as (Ho' & HP' & Hp'); auto.
    { intros g' t' Hin. apply Hgs. right; auto. }
    split; [auto|]. split; [auto|].
    rewrite Hp'. apply (Permutation_map snd) in Hp1. rewrite Hp1.
    rewrite map_app. cbn [map snd]. rewrite <- app_assoc. reflexivity.
Qed.

Lemma selection_clients (random_sample : nat -> list nat) (round : nat) :
  map clients (selection random_sample round)
  = map (fun c => [c]) (random_sample round).
Proof.
  unfold selection. generalize 0%nat.
  induction (random_sample round) as [|c cs IH]; intros i; cbn; auto.
  f_equal. apply IH.
Qed.

Lemma concat_singletons {A} (l : list A) : concat (map (fun c => [c]) l) = l.
Proof.
  induction l as [|a l IH]; cbn; congruence.
Qed.

Section StalenessProofs.

Context {T : Type} `{TensorOps T}.

Variable config : Config.
Variable sample_delay : nat -> nat -> R.
Variable random_sample : nat -> list nat.
Variable get_report : nat -> nat -> Report T.
Variable test_model : Weights T -> R.

Local Abbreviation St := (Server T).
Local Abbreviation iteration :=
  (async_iteration config get_report test_model).

Lemma max_delay_ext (s s' : St) (g : Group) :
  (forall c, In c (clients g) -> delay s' c = delay s c) ->
  max_delay s' g = max_delay s g.
Proof.
  intros Hext. unfold max_delay. rewrite (delays_of_ext _ _ _ Hext).
  reflexivity.
Qed.

(** The groups of a round whose clients are all different are due at
    [T_old] plus the largest delay their clients hold when the loop
    starts. *)
Lemma start_groups_due (T_old : R) (groups : list Group) :
  forall (s s' : St) gs cs,
    NoDup (concat (map clients groups)) ->
    start_groups sample_delay T_old groups s = (Ok (gs, cs), s') ->
    map clients gs = map clients groups /\
    Forall (fun g => exists m,
              download_time g = Some T_old /\
              aggregate_time g = Some (T_old + m) /\
              max_delay s' g = Ok m) gs.
Proof.
  induction groups as [|g groups IH]; intros s s' gs cs Hnd;
    cbn [start_groups].
  - unfold ret. intros [= <- <- <-]. split; [reflexivity|constructor].
  - intros Hrun.
    apply bindM_Ok in Hrun as ([] & s1 & E1 & Hrun).
    apply bindM_Ok in Hrun as (g' & s2 & Eg & Hrun).
    injection Eg as Eg <-.
    apply bindM_Ok in Hrun as ([gs' cs'] & s3 & E2 & Hrun).
    unfold ret in Hrun. injection Hrun as <- <- <-.
    cbn [map concat] in Hnd.
    apply NoDup_app_remove_l in Hnd as Hnd'.
    destruct (IH _ _ _ _ Hnd' E2) as [Hcl Hdue].
    apply set_aggregate_time_Ok in Eg as (d & ds & m & Hd & Hds & Hm & ->).
    cbn in Hd. injection Hd as <-. cbn [clients set_download_time] in Hds.
    split; [cbn; congruence|].
    constructor; [|exact Hdue].
    exists m. cbn [download_time aggregate_time].
    split; [reflexivity|]. split; [reflexivity|].
    apply start_groups_frame in E2 as (_ & _ & _ & _ & Hdel).
    unfold max_delay. cbn [clients set_download_time].
    rewrite (@delays_of_ext (delay s3) (delay s1)).
    + rewrite Hds. exact Hm.
    + intros c Hc. destruct (Hdel c) as [E|[Hin _]]; [exact E|].
      exfalso. eapply NoDup_app_apart; eauto.
Qed.

Lemma queue_due_step T_old T_async q s q' s' :
  queue_due q s -> iteration T_old T_async q s = (Ok q', s') ->
  queue_due q' s' /\ delay s' = delay s.
Proof.
  intros (Ho & Hdue & Hkey) Hrun.
  apply iteration_Ok in Hrun
    as (key & g & rest & d & t & updated & acc & Hpop & Hdl & Hat & _ & -> & Hq').
  split; [|reflexivity].
  pose proof (@queue_get_spec q Ho) as Hget. rewrite Hpop in Hget.
  destruct Hget as (Ho' & Hperm & _).
  assert (Hsub : forall e, In e rest -> In e q).
  { intros e He. eapply Permutation_in; [symmetry; exact Hperm|right; auto]. }
  assert (Hdue' : due_ok (after_turn s updated (clients g) t acc) rest).
  { apply Forall_forall. intros e He.
    unfold due_ok in Hdue. rewrite Forall_forall in Hdue.
    destruct (Hdue e (Hsub e He)) as (d' & m' & H1 & H2 & H3).
    exists d', m'. auto. }
  assert (Hkey' : Forall (fun e => aggregate_time (snd e) = Some (fst e)) rest).
  { apply Forall_forall. intros e He.
    rewrite Forall_forall in Hkey. auto. }
  destruct Hq' as [(_ & g' & Hg' & Hput)|(_ & ->)].
  2:{ split; [auto|]. split; auto. }
  destruct (@queue_put_perm rest q' g' Ho' Hput) as (t' & Ht' & Ho'' & Hp'').
  apply set_aggregate_time_Ok in Hg' as (d' & ds & m & Hd' & Hds & Hm & ->).
  cbn in Hd'. injection Hd' as <-. cbn [clients set_download_time] in *.
  cbn in Ht'. injection Ht' as <-.
  split; [auto|]. split.
  - apply Forall_forall. intros e He.
    apply (Permutation_in _ Hp'') in He. apply in_app_or in He as [He|He].
    + unfold due_ok in Hdue'. rewrite Forall_forall in Hdue'. auto.
    + destruct He as [<-|[]]. exists t, m. cbn.
      split; [reflexivity|]. split; [reflexivity|].
      unfold max_delay. cbn [clients delay after_turn].
      rewrite Hds. exact Hm.
  - apply Forall_forall. intros e He.
    apply (Permutation_in _ Hp'') in He. apply in_app_or in He as [He|He].
    + rewrite Forall_forall in Hkey'. auto.
    + destruct He as [<-|[]]. reflexivity.
Qed.

Lemma queue_due_turns T_old T_async x y :
  turns config get_report test_model T_old T_async x y ->
  queue_due (fst x) (snd x) ->
  queue_due (fst y) (snd y) /\ delay (snd y) = delay (snd x).
Proof.
  induction 1 as [x|q s q' s' y Hstep _ IH]; intros Hx; [auto|].
  cbn [fst snd] in *.
  destruct (@queue_due_step T_old T_async q s q' s' Hx Hstep) as [Hq' Hd'].
  destruct (IH Hq') as [Hy Hdy]. split; [auto|]. congruence.
Qed.

Lemma round_start_due round T_old (s : St) x :
  NoDup (random_sample round) ->
  round_start sample_delay random_sample round T_old s x ->
  queue_due (fst x) (snd x).
Proof.
  intros Hnd (gs & cs & Hstart & Hput).
  apply start_groups_due in Hstart as [_ Hdue].
  2:{ rewrite selection_clients, concat_singletons. exact Hnd. }
  destruct (@put_all_perm
              (fun e => aggregate_time (snd e) = Some (fst e) /\
                        exists d m, download_time (snd e) = Some d /\
                                    aggregate_time (snd e) = Some (d + m) /\
                                    max_delay (snd x) (snd e) = Ok m)
              gs [] (fst x)) as (Ho & HP & _); auto.
  - intros i a b _ Hi. destruct i; discriminate.
  - intros g t Hg Ht. cbn [fst snd]. split; [exact Ht|].
    rewrite Forall_forall in Hdue.
    destruct (Hdue g Hg) as (m & H1 & H2 & H3). eauto.
  - split; [auto|]. split.
    + eapply Forall_impl; [|exact HP]. intros e [_ He]. exact He.
    + eapply Forall_impl; [|exact HP]. intros e [He _]. exact He.
Qed.

(** C10: in every turn of the async loop the staleness handed to the
    aggregation is [aggregate_time - download_time] of the popped group,
    which is the largest delay among the group's clients (the delays the
    client objects hold, unchanged since the group's last
    [set_aggregate_time]); it is not negative when no delay is.  The
    clients of a round are different ([random.sample]). *)
Theorem staleness_is_max_delay (round : nat) (T_old T_async : R) (s : St)
        (x0 : list (R * Group) * St) (q : list (R * Group)) (s1 : St)
        (key : R) (g : Group) (rest : list (R * Group)) :
  NoDup (random_sample round) ->
  round_start sample_delay random_sample round T_old s x0 ->
  turns config get_report test_model T_old T_async x0 (q, s1) ->
  heappop entry_lt q = Ok ((key, g), rest) ->
  exists d t m,
    download_time g = Some d /\ aggregate_time g = Some t /\
    max_delay s1 g = Ok m /\
    t - d = m /\
    (forall q' s', iteration T_old T_async q s1 = (Ok q', s') ->
       aggregation (sync_type config) (alpha config) (staleness_func config)
                   (model s1) (reporting get_report (passes s1) (clients g))
                   (Some m) = Ok (model s')) /\
    ((forall c k, 0 <= sample_delay c k) -> delays_nonneg s -> 0 <= t - d).
Proof.
  intros Hnd Hstart Hturns Hpop.
  pose proof (round_start_due Hnd Hstart) as Hdue0.
  destruct (queue_due_turns Hturns Hdue0) as [(Ho & Hdue & Hkey) Hdel].
  cbn [fst snd] in *.
  pose proof (@queue_get_spec q Ho) as Hget. rewrite Hpop in Hget.
  destruct Hget as (_ & Hperm & _).
  assert (Hin : In (key, g) q)
    by (eapply Permutation_in; [symmetry; exact Hperm|left; auto]).
  unfold due_ok in Hdue. rewrite Forall_forall in Hdue.
  destruct (Hdue _ Hin) as (d & m & Hd & Ht & Hm). cbn [snd] in *.
  exists d, (d + m), m.
  split; [auto|]. split; [auto|]. split; [auto|].
  split; [lra|]. split.
  - intros q' s' Hrun.
    apply iteration_Ok in Hrun
      as (key' & g' & rest' & d' & t' & updated & acc & Hpop' & Hd' & Ht'
          & Hagg & -> & _).
    rewrite Hpop in Hpop'. injection Hpop' as <- <- <-.
    assert (d' = d) as -> by congruence.
    assert (t' = d + m) as -> by congruence.
    replace (d + m - d) with m in Hagg by lra. exact Hagg.
  - intros Hnn Hs.
    destruct Hstart as (gs & cs & Hstart & _).
    assert (Hs0 : delays_nonneg (snd x0))
      by (eapply start_groups_nonneg; eauto).
    unfold max_delay in Hm.
    destruct (delays_of (delay s1) (clients g)) as [ds|] eqn:Eds;
      cbn [bind] in Hm; [|discriminate].
    assert (0 <= m).
    { apply (@max_delay_nonneg (delay s1) (clients g) ds m); auto.
      intros c x Hc. apply (Hs0 c). rewrite <- Hdel. exact Hc. }
    lra.
Qed.

End StalenessProofs.

(** ** The re-enqueue policy *)

Section ReenqueueProofs.

Context {T : Type} `{TensorOps T}.

Variable config : Config.
Variable sample_delay : nat -> nat -> R.
Variable random_sample : nat -> list nat.
Variable get_report : nat -> nat -> Report T.
Variable test_model : Weights T -> R.

Local Abbreviation St := (Server T).
Local Abbreviation iteration :=
  (async_iteration config get_report test_model).

Lemma start_groups_clients (T_old : R) (groups : list Group) :
  forall (s s' : St) gs cs,
    start_groups sample_delay T_old groups s = (Ok (gs, cs), s') ->
    map clients gs = map clients groups.
Proof.
  induction groups as [|g groups IH]; intros s s' gs cs; cbn [start_groups].
  - unfold ret. intros [= <- <- <-]. reflexivity.
  - intros Hrun.
    apply bindM_Ok in Hrun as ([] & s1 & E1 & Hrun).
    apply bindM_Ok in Hrun as (g' & s2 & Eg & Hrun).
    injection Eg as Eg <-.
    apply bindM_Ok in Hrun as ([gs' cs'] & s3 & E2 & Hrun).
    unfold ret in Hrun. injection Hrun as <- <- <-.
    apply set_aggregate_time_Ok in Eg as (d & ds & m & _ & _ & _ & ->).
    cbn. f_equal. eapply IH; eauto.
Qed.

(** A completed turn: the popped group goes back into the queue exactly
    when the window is still open, downloaded at the current time and due
    after the largest delay its clients already hold. *)
Lemma turn_reenqueues (T_old T_async : R) q (s : St) q' s' :
  iteration T_old T_async q s = (Ok q', s') ->
  exists key g rest t,
    heappop entry_lt q = Ok ((key, g), rest) /\
    aggregate_time g = Some t /\
    log s' = log s ++ [(clients g, t)] /\
    delay s' = delay s /\ draws s' = draws s /\
    ((t - T_old <= T_async /\
      exists m, max_delay s g = Ok m /\
        queue_put rest (mkGroup (gid g) (clients g) (Some t) (Some (t + m)))
        = Ok q') \/
     (T_async < t - T_old /\ q' = rest)).
Proof.
  intros Hrun.
  apply iteration_Ok in Hrun
    as (key & g & rest & d & t & updated & acc & Hpop & Hd & Ht & _ & -> & Hq').
  exists key, g, rest, t.
  do 5 (split; [solve [auto]|]).
  destruct Hq' as [(Hle & g' & Hg' & Hput)|(Hgt & ->)].
  - left. split; [auto|].
    apply set_aggregate_time_Ok in Hg' as (d' & ds & m & Hd' & Hds & Hm & ->).
    cbn in Hd'. injection Hd' as <-. cbn [clients set_download_time gid] in *.
    exists m. split; [|exact Hput].
    unfold max_delay. rewrite Hds. exact Hm.
  - right. split; [lra|reflexivity].
Qed.

Lemma all_served_step l0 sample (T_old T_async : R) q (s : St) q' s' :
  all_served l0 sample q s ->
  iteration T_old T_async q s = (Ok q', s') ->
  all_served l0 sample q' s'.
Proof.
  intros (Ho & l & Hl & Hserved) Hrun.
  apply turn_reenqueues in Hrun
    as (key & g & rest & t & Hpop & Ht & Hlog & _ & _ & Hq').
  pose proof (@queue_get_spec q Ho) as Hget. rewrite Hpop in Hget.
  destruct Hget as (Ho' & Hperm & _).
  assert (Hq : heap_ordered fst q' /\ forall e, In e rest -> In e q').
  { destruct Hq' as [(_ & m & _ & Hput)|(_ & ->)]; [|auto].
    destruct (@queue_put_perm rest q' _ Ho' Hput) as (t' & _ & Ho'' & Hp'').
    split; [auto|]. intros e He.
    eapply Permutation_in; [symmetry; exact Hp''|].
    apply in_or_app. auto. }
  destruct Hq as [Hoq' Hsub]. split; [auto|].
  exists (l ++ [(clients g, t)]). split.
  { rewrite Hlog, Hl, <- app_assoc. reflexivity. }
  intros c Hc. destruct (Hserved c Hc) as [[t0 Ht0]|(e & He & Hcl)].
  - left. exists t0. apply in_or_app. auto.
  - apply (Permutation_in _ Hperm) in He. destruct He as [<-|He].
    + left. exists t. apply in_or_app. right. cbn [snd] in Hcl.
      rewrite Hcl. left; auto.
    + right. exists e. auto.
Qed.

Lemma selected_are_served (fuel round : nat) (T_old T_async : R) (s : St)
      res s' :
  async_round config sample_delay random_sample get_report test_model
              fuel round T_old T_async s = (Ok res, s') ->
  exists l, log s' = log s ++ l /\
    forall c, In c (random_sample round) -> exists t, In ([c], t) l.
Proof.
  unfold async_round. intros Hrun.
  apply bindM_Ok in Hrun as ([gs cs] & s1 & Hstart & Hrun).
  apply bindM_Ok in Hrun as (q0 & s1' & Hput & Hrun).
  apply lift_Ok in Hput as [Hput ->].
  apply bindM_Ok in Hrun as ([] & s2 & Hloop & Hrun).
  apply bindM_Ok in Hrun as (rs & s3 & Hrs & Hrun).
  unfold gets in Hrs. injection Hrs as <- <-.
  apply bindM_Ok in Hrun as (acc & s3 & Hacc & Hrun).
  apply lift_Ok in Hacc as [_ ->].
  apply bindM_Ok in Hrun as (t & s3 & Ht & Hrun).
  apply lift_Ok in Ht as [_ ->].
  unfold ret in Hrun. injection Hrun as _ <-.
  pose proof (start_groups_clients _ _ _ Hstart) as Hcl.
  rewrite selection_clients in Hcl.
  apply start_groups_frame in Hstart as (_ & _ & _ & Hl1 & _).
  destruct (@put_all_perm (fun _ => True) gs [] q0) as (Ho & _ & Hperm); auto.
  { intros i a b _ Hi. destruct i; discriminate. }
  cbn [map app] in Hperm.
  assert (Hin : all_served (log s) (random_sample round) q0 s1).
  { split; [auto|]. exists []. split; [rewrite app_nil_r; auto|].
    intros c Hc. right.
    assert (Hc' : In [c] (map clients gs))
      by (rewrite Hcl; apply in_map_iff; eauto).
    apply in_map_iff in Hc' as (g & Hg & Hgs).
    apply (Permutation_in _ (Permutation_sym Hperm)) in Hgs.
    apply in_map_iff in Hgs as (e & <- & He). eauto. }
  pose proof (@loop_rule _ _ config get_report test_model T_old T_async
                (all_served (log s) (random_sample round)) (fun _ => True)
                (@all_served_step (log s) (random_sample round) T_old T_async)
                (fun _ _ _ _ _ _ => I) (fun _ _ _ => I) fuel q0 s1 Hin)
    as Hpost.
  rewrite Hloop in Hpost. destruct Hpost as (_ & l & Hl & Hserved).
  exists l. split; [auto|].
  intros c Hc. destruct (Hserved c Hc) as [Ht|(e & [] & _)]. exact Ht.
Qed.

End ReenqueueProofs.

(** ** The blend of the async strategy, and unknown configuration *)

Section ConfigurationProofs.

Context {T : Type} `{TensorOps T}.

Lemma add_scaled_raises (update : Weights T) :
  forall (acc : list T) j n total e,
    add_scaled acc j update n total = Raise e -> python_exn e.
Proof.
  induction update as [|[name x] rest IH]; intros acc j n total e;
    cbn [add_scaled].
  - discriminate.
  - destruct (getitem_cases acc j) as [E|[a E]]; rewrite E; cbn [bind].
    + intros [= <-]. apply python_exn_IndexError.
    + unfold py_div. destruct (total =? 0)%Z; cbn [bind].
      * intros [= <-]. apply python_exn_ZeroDivisionError.
      * apply IH.
Qed.

Lemma accumulate_raises (updates : list (Weights T)) :
  forall (acc : list T) i reports total e,
    accumulate acc i updates reports total = Raise e -> python_exn e.
Proof.
  induction updates as [|u updates IH]; intros acc i reports total e;
    cbn [accumulate].
  - discriminate.
  - destruct (getitem_cases reports i) as [E|[r E]]; rewrite E; cbn [bind].
    + intros [= <-]. apply python_exn_IndexError.
    + destruct (add_scaled acc 0 u (num_samples r) total) as [acc'|e'] eqn:Ea;
        cbn [bind].
      * apply IH.
      * intros [= <-]. eapply add_scaled_raises; eauto.
Qed.

Lemma staleness_unknown (func : string) (s : option R) :
  func <> "constant"%string -> func <> "polynomial"%string ->
  func <> "hinge"%string ->
  staleness func s = Ok PyNone.
Proof.
  intros H1 H2 H3. unfold staleness.
  destruct (String.eqb_spec func "constant"); [contradiction|].
  destruct (String.eqb_spec func "polynomial"); [contradiction|].
  destruct (String.eqb_spec func "hinge"); [contradiction|].
  reflexivity.
Qed.

(** With a staleness function that returns [None] the async strategy never
    gets past [alpha * None]. *)
Lemma federated_async_unknown_staleness alpha func (model : Weights T)
      reports s :
  staleness func s = Ok PyNone ->
  raises (federated_async alpha func model reports s).
Proof.
  intros Hs. unfold federated_async, raises, extract_client_weights.
  destruct (zeros_of_first (map (@weights T) reports)) as [first|e] eqn:Ez;
    cbn [bind].
  2:{ exists e. split; auto. unfold zeros_of_first in Ez.
      destruct (getitem_cases (map (@weights T) reports) 0) as [E|[w E]];
        rewrite E in Ez; cbn [bind] in Ez; [|discriminate].
      injection Ez as <-. apply python_exn_IndexError. }
  destruct (accumulate first 0 _ reports _) as [nw|e] eqn:Ea; cbn [bind].
  2:{ exists e. split; auto. eapply accumulate_raises; eauto. }
  rewrite Hs. cbn [bind].
  exists TypeError. split; auto. apply python_exn_TypeError.
Qed.

Variable config : Config.
Variable sample_delay : nat -> nat -> R.
Variable random_sample : nat -> list nat.
Variable get_report : nat -> nat -> Report T.
Variable test_model : Weights T -> R.

Local Abbreviation St := (Server T).

Lemma run_unknown_mode (fuel : nat) (s : St) :
  sync_type config <> "sync"%string -> sync_type config <> "async"%string ->
  (1 <= rounds config)%Z ->
  run config sample_delay random_sample get_report test_model fuel s
  = (Raise NotImplementedError,
     mkServer (model s) new_records (delay s) (draws s) (passes s) (log s)).
Proof.
  intros H1 H2 Hr. unfold run, bindM, set_records, modify. cbv zeta.
  destruct (Z.to_nat (rounds config)) as [|n] eqn:En; [lia|].
  cbn [seq run_rounds]. unfold bindM.
  destruct (String.eqb_spec (sync_type config) "sync"); [contradiction|].
  destruct (String.eqb_spec (sync_type config) "async"); [contradiction|].
  reflexivity.
Qed.

(** The aggregation a turn of the async loop performs blends into the
    model the server holds when the turn starts. *)
Lemma turn_blends_current_model (T_old T_async : R) q (s : St) q' s' :
  sync_type config = "async"%string ->
  async_iteration config get_report test_model T_old T_async q s
  = (Ok q', s') ->
  exists key g rest d t,
    heappop entry_lt q = Ok ((key, g), rest) /\
    download_time g = Some d /\ aggregate_time g = Some t /\
    federated_async (alpha config) (staleness_func config) (model s)
                    (reporting get_report (passes s) (clients g))
                    (Some (t - d)) = Ok (model s').
Proof.
  intros Hmode Hrun.
  apply iteration_Ok in Hrun
    as (key & g & rest & d & t & updated & acc & Hpop & Hd & Ht & Hagg & -> & _).
  exists key, g, rest, d, t. do 3 (split; [auto|]).
  unfold aggregation in Hagg. rewrite Hmode in Hagg. exact Hagg.
Qed.

End ConfigurationProofs.

(** C2, amended: on a non-empty batch whose reports list as many tensors
    as the global model, with a positive total sample count, async
    aggregation returns, at every tensor position,
    [(1 - alpha_t) * baseline + alpha_t * new_weight], where [new_weight]
    is the sample-weighted mean of the raw reported weights and
    [alpha_t = alpha * f(s)] for the value [f(s)] of the configured
    staleness function; and the baseline of a turn of the async loop is the
    model the server holds when the turn aggregates. *)
Theorem federated_async_correct :
  (forall (T : Type) (ops : TensorOps T) (alpha f s : R)
          (staleness_func : string) (model : Weights T)
          (reports : list (Report T)),
     reports <> [] ->
     same_layout model reports ->
     (0 < total_samples_of reports)%Z ->
     staleness staleness_func (Some s) = Ok (PyFloat f) ->
     federated_async alpha staleness_func model reports (Some s) =
     Ok (blending_spec (alpha * f) model reports)) /\
  (forall (T : Type) (ops : TensorOps T) (config : Config)
          (get_report : nat -> nat -> Report T) (test_model : Weights T -> R)
          (T_old T_async : R) q (s : Server T) q' s',
     sync_type config = "async"%string ->
     async_iteration config get_report test_model T_old T_async q s
     = (Ok q', s') ->
     exists key g rest d t,
       heappop entry_lt q = Ok ((key, g), rest) /\
       download_time g = Some d /\ aggregate_time g = Some t /\
       federated_async (alpha config) (staleness_func config) (model s)
                       (reporting get_report (passes s) (clients g))
                       (Some (t - d)) = Ok (model s')).
Proof.
  split.
  - intros. apply federated_async_blend; auto.
  - intros. eapply turn_blends_current_model; eauto.
Qed.

(** C9: an unknown synchrony mode makes the first round of [run], and any
    call of [aggregation], raise [NotImplementedError]; with an unknown
    staleness function name [staleness] returns [None] and its first use,
    [alpha * None] in the async strategy, raises. *)
Theorem unknown_configuration_raises :
  (forall (T : Type) (ops : TensorOps T) (config : Config)
          (sample_delay : nat -> nat -> R) (random_sample : nat -> list nat)
          (get_report : nat -> nat -> Report T) (test_model : Weights T -> R)
          (fuel : nat) (s : Server T),
     sync_type config <> "sync"%string ->
     sync_type config <> "async"%string ->
     (1 <= rounds config)%Z ->
     run config sample_delay random_sample get_report test_model fuel s
     = (Raise NotImplementedError,
        mkServer (model s) new_records (delay s) (draws s) (passes s) (log s)))
  /\
  (forall (T : Type) (ops : TensorOps T) (mode : string) (alpha : R)
          (staleness_func : string) (model : Weights T)
          (reports : list (Report T)) (s : option R),
     mode <> "sync"%string -> mode <> "async"%string ->
     aggregation mode alpha staleness_func model reports s
     = Raise NotImplementedError) /\
  (forall (T : Type) (ops : TensorOps T) (alpha : R) (name : string)
          (model : Weights T) (reports : list (Report T)) (s : option R),
     name <> "constant"%string -> name <> "polynomial"%string ->
     name <> "hinge"%string ->
     staleness name s = Ok PyNone /\
     raises (federated_async alpha name model reports s)).
Proof.
  split; [|split].
  - intros. apply run_unknown_mode; auto.
  - intros T ops mode alpha func model reports s H1 H2. unfold aggregation.
    destruct (String.eqb_spec mode "sync"); [contradiction|].
    destruct (String.eqb_spec mode "async"); [contradiction|].
    reflexivity.
  - intros T ops alpha name model reports s H1 H2 H3.
    pose proof (staleness_unknown s H1 H2 H3) as Hs. split; [exact Hs|].
    apply federated_async_unknown_staleness. exact Hs.
Qed.

(** ** Concrete runs *)

(** C2, witness: the scenario's reports blended with [alpha = 1/2] at
    staleness 5 under 'hinge'. *)
Lemma federated_async_scenario :
  federated_async (1 / 2) "hinge" scenario_model scenario_reports (Some 5)
  = Ok [("w"%string, 7 / 66)].
Proof.
  rewrite (proj1 federated_async_correct R scalar_tensor (1 / 2)
             (1 / (10 * (5 - 4) + 1)) 5).
  - evaluate. do 3 f_equal. lra.
  - discriminate.
  - repeat constructor.
  - reflexivity.
  - evaluate. reflexivity.
Defined.

(** C2, counterexample: a non-empty batch with a positive sample count
    whose report carries fewer tensors than the model stops the async
    strategy with an [IndexError]. *)
Lemma federated_async_short_report :
  [short_report] <> [] /\
  (0 < total_samples_of [short_report])%Z /\
  staleness "constant" (Some 0) = Ok (PyFloat 1) /\
  federated_async 1 "constant" two_tensor_model [short_report] (Some 0)
  = Raise IndexError.
Proof.
  split; [discriminate|]. split; [reflexivity|]. split; [reflexivity|].
  evaluate. reflexivity.
Qed.

(** C7, witness: the empty batch. *)
Lemma aggregation_rejects_empty_batch :
  raises (federated_averaging scenario_model []) /\
  raises (federated_async 1 "constant" scenario_model [] (Some 0)).
Proof.
  apply (@aggregation_rejects_degenerate_batches R scalar_tensor 1 "constant"
            scenario_model [] (Some 0)).
  left. reflexivity.
Defined.

(** C7, counterexample: on a model without tensors a batch without samples
    is aggregated to the empty weight list by both strategies. *)
Lemma aggregation_accepts_no_samples :
  total_samples_of [empty_report] = 0%Z /\
  federated_averaging empty_model [empty_report] = Ok [] /\
  federated_async 1 "constant" empty_model [empty_report] (Some 0) = Ok [].
Proof.
  split; [reflexivity|]. split; reflexivity.
Qed.

(** C8, the failing input: the async strategy writes the tensor the report
    calls "b" into the model's "w". *)
Theorem federated_async_ignores_names :
  federated_async 1 "constant" scenario_model [renamed_report] (Some 0)
  = Ok [("w"%string, 0 * (1 - 1 * 1) + (0 + 1 * (1 / 1)) * (1 * 1))] /\
  0 * (1 - 1 * 1) + (0 + 1 * (1 / 1)) * (1 * 1) = 1 /\
  raises (federated_averaging scenario_model [renamed_report]).
Proof.
  split; [|split].
  - evaluate. reflexivity.
  - lra.
  - exists AssertionError. split; [reflexivity|split; discriminate].
Qed.

(** C4, the failing input: two selected clients with the same delay.  The
    second [queue.put] compares the tuples [(2, group0)] and [(2, group1)],
    and the round stops with a [TypeError]. *)
Theorem equal_times_raise (fuel : nat) :
  fst (async_round (async_config 10) (constant_delay 2) (first_clients 2)
                   unit_report fixed_accuracy fuel 1 0 10 fresh_server)
  = Raise TypeError.
Proof.
  unfold async_round.
  evaluate. reflexivity.
Qed.

Lemma one_client_round_start (sample_delay : nat -> nat -> R) :
  round_start sample_delay (first_clients 1) 1 0 fresh_server
              ([(0 + sample_delay 0%nat 0%nat,
                 started_group (sample_delay 0%nat 0%nat))],
               started_server (sample_delay 0%nat 0%nat)).
Proof.
  exists [started_group (sample_delay 0%nat 0%nat)], [0%nat].
  split; reflexivity.
Qed.

(** One client, first delay 2, window 10: the first turn. *)
Lemma first_turn_in_window :
  async_iteration (async_config 10) unit_report fixed_accuracy 0 10
                  [(0 + 2, started_group 2)] (started_server 2)
  = (Ok [(0 + 2 + 2, requeued_group 2)], first_turn_server 2).
Proof.
  unfold async_iteration. evaluate. reflexivity.
Qed.

(** C5, witness: one async round of one client. *)
Lemma time_is_monotonic_witness :
  delays_nonneg fresh_server /\
  (StronglySorted Rle
     (rec_t (records (snd (run (async_config 1) (constant_delay 5)
                               (first_clients 1) unit_report fixed_accuracy
                               3 fresh_server)))) /\
   exists l,
     log (snd (run (async_config 1) (constant_delay 5) (first_clients 1)
                   unit_report fixed_accuracy 3 fresh_server))
     = log fresh_server ++ l /\
     StronglySorted Rle (map snd l)).
Proof.
  assert (Hs : delays_nonneg fresh_server) by (intros c d; discriminate).
  split; [exact Hs|].
  apply (@time_is_monotonic R scalar_tensor (async_config 1)
           (constant_delay 5) (first_clients 1) unit_report fixed_accuracy).
  - intros c k. unfold constant_delay. lra.
  - exact Hs.
Defined.

(** C9, witness: three rounds asked in the mode 'semi'. *)
Lemma unknown_mode_witness :
  run (mkConfig 3 None "semi" 1 "constant" 1 false) (constant_delay 5)
      (first_clients 1) unit_report fixed_accuracy 3 fresh_server
  = (Raise NotImplementedError, fresh_server).
Proof.
  apply (proj1 unknown_configuration_raises R scalar_tensor
           (mkConfig 3 None "semi" 1 "constant" 1 false)).
  - discriminate.
  - discriminate.
  - cbn. lia.
Defined.

(** C10, witness: the first pop of a round of one client with delay 5. *)
Lemma staleness_is_max_delay_witness :
  exists d t m,
    download_time (started_group 5) = Some d /\
    aggregate_time (started_group 5) = Some t /\
    max_delay (started_server 5) (started_group 5) = Ok m /\
    t - d = m /\
    (forall q' s',
       async_iteration (async_config 10) unit_report fixed_accuracy 0 10
                       [(0 + 5, started_group 5)] (started_server 5)
       = (Ok q', s') ->
       aggregation "async" 1 "constant" (model (started_server 5))
                   (reporting unit_report (passes (started_server 5))
                              (clients (started_group 5)))
                   (Some m) = Ok (model s')) /\
    ((forall c k, 0 <= constant_delay 5 c k) ->
     delays_nonneg fresh_server -> 0 <= t - d).
Proof.
  apply (@staleness_is_max_delay R scalar_tensor (async_config 10)
           (constant_delay 5) (first_clients 1) unit_report fixed_accuracy
           1%nat 0 10 fresh_server
           ([(0 + 5, started_group 5)], started_server 5)
           [(0 + 5, started_group 5)] (started_server 5)
           (0 + 5) (started_group 5) []).
  - repeat constructor; intros [].
  - apply (one_client_round_start (constant_delay 5)).
  - apply turns_refl.
  - reflexivity.
Defined.

(** The queue on three groups due at 5, 2 and 7, inserted in two orders. *)
Lemma distinct_times_are_ordered_witness :
  exists q q' out,
    put_all [] three_groups = Ok q /\
    put_all [] three_groups_shuffled = Ok q' /\
    get_all (length three_groups) q = Ok out /\
    get_all (length three_groups_shuffled) q' = Ok out /\
    Permutation out (map (fun g => (due g, g)) three_groups) /\
    StronglySorted (fun a b => fst a < fst b) out.
Proof.
  apply (@distinct_times_are_ordered three_groups three_groups_shuffled).
  - repeat constructor; discriminate.
  - cbn. repeat constructor; cbn; intros Hin;
      repeat (destruct Hin as [Hin|Hin]; [lra|]); exact Hin.
  - symmetry.
    exact (Permutation_cons_append [group_due 0 5; group_due 1 2]
                                   (group_due 2 7)).
Defined.

(** The sync strategy on the report that renames the tensor. *)
Lemma federated_averaging_checks_names_witness :
  raises (federated_averaging scenario_model [renamed_report]).
Proof.
  apply (@federated_averaging_checks_names R scalar_tensor scenario_model
           [renamed_report] renamed_report 0%nat "b"%string 1 "w"%string 0).
  - left. reflexivity.
  - reflexivity.
  - reflexivity.
  - discriminate.
Defined.

(** ** Group.set_aggregate_time *)

Lemma delays_of_Ok_iff (delay : nat -> option R) (cs : list nat) :
  (exists ds, delays_of delay cs = Ok ds) <->
  (forall c, In c cs -> delay c <> None).
Proof.
  unfold delays_of. induction cs as [|c cs IH]; cbn [mapM].
  - split; [intros _ c []|eauto].
  - split.
    + intros [ds Hds] c' [<-|Hc'].
      * destruct (delay c); [discriminate|discriminate].
      * destruct (delay c); cbn [bind] in Hds; [|discriminate].
        destruct (mapM _ cs) as [ds'|] eqn:E; [|discriminate].
        apply (proj1 IH); eauto.
    + intros Hall.
      destruct (delay c) as [d|] eqn:Ed.
      2:{ exfalso. apply (Hall c); auto. left; auto. }
      destruct (proj2 IH) as [ds Hds].
      { intros c' Hc'. apply Hall. right; auto. }
      rewrite Hds. cbn [bind]. eauto.
Qed.

Lemma delays_of_Raise (delay : nat -> option R) (cs : list nat) e :
  delays_of delay cs = Raise e -> e = AttributeError.
Proof.
  unfold delays_of. revert e. induction cs as [|c cs IH]; intros e; cbn [mapM].
  - discriminate.
  - destruct (delay c); cbn [bind]; [|congruence].
    destruct (mapM _ cs); cbn [bind]; [discriminate|].
    intros [= <-]. apply IH. reflexivity.
Qed.

Lemma delays_of_length (delay : nat -> option R) (cs : list nat) ds :
  delays_of delay cs = Ok ds -> length ds = length cs.
Proof.
  intros Hds. apply delays_of_spec in Hds.
  induction Hds; cbn; congruence.
Qed.

Lemma max_delay_bounds (delay : nat -> option R) (cs : list nat) ds m :
  delays_of delay cs = Ok ds -> py_max ds = Ok m ->
  (forall c, In c cs -> exists x, delay c = Some x /\ x <= m) /\
  (exists c, In c cs /\ delay c = Some m).
Proof.
  intros Hds Hm.
  apply py_max_spec in Hm as [Hin Hall].
  apply delays_of_spec in Hds.
  split.
  - intros c Hc. clear Hin.
    induction Hds as [|c0 x0 cs ds Hcx _ IH]; [contradiction|].
    inversion Hall as [|? ? Hx Hall']; subst.
    destruct Hc as [<-|Hc]; [|auto].
    exists x0. split; [auto|lra].
  - clear Hall.
    induction Hds as [|c0 x0 cs ds Hcx _ IH]; [contradiction|].
    destruct Hin as [<-|Hin].
    + exists c0. split; [left; auto|auto].
    + destruct (IH Hin) as (c & Hc & Hcm). exists c. split; [right; auto|auto].
Qed.

(** A group that gets its [aggregate_time] keeps its identity, its clients
    and its download time; it is due when the slowest of its clients is
    done: no earlier than [download_time + delay] of any client, and at
    that time for one of them. *)
Theorem set_aggregate_time_slowest (delay : nat -> option R) (g g' : Group) :
  set_aggregate_time delay g = Ok g' ->
  gid g' = gid g /\ clients g' = clients g /\
  download_time g' = download_time g /\
  exists d t,
    download_time g = Some d /\ aggregate_time g' = Some t /\
    (forall c, In c (clients g) -> exists x, delay c = Some x /\ d + x <= t) /\
    (exists c, In c (clients g) /\ delay c = Some (t - d)).
Proof.
  intros Hset.
  apply set_aggregate_time_Ok in Hset as (d & ds & m & Hd & Hds & Hm & ->).
  cbn [gid clients download_time aggregate_time].
  split; [reflexivity|]. split; [reflexivity|]. split; [auto|].
  exists d, (d + m). split; [auto|]. split; [reflexivity|].
  destruct (max_delay_bounds _ _ Hds Hm) as [Hall Hex].
  split.
  - intros c Hc. destruct (Hall c Hc) as (x & Hx & Hle).
    exists x. split; [auto|lra].
  - replace (d + m - d) with m by lra. exact Hex.
Qed.

Lemma set_aggregate_time_slowest_witness :
  exists d t,
    download_time pair_group = Some d /\
    aggregate_time (mkGroup 0 [0%nat; 1%nat] (Some 3) (Some (3 + Rmax 2 5)))
    = Some t /\
    (forall c, In c (clients pair_group) ->
               exists x, pair_delays c = Some x /\ d + x <= t) /\
    (exists c, In c (clients pair_group) /\ pair_delays c = Some (t - d)).
Proof.
  apply (@set_aggregate_time_slowest pair_delays pair_group
           (mkGroup 0 [0%nat; 1%nat] (Some 3) (Some (3 + Rmax 2 5)))).
  reflexivity.
Defined.

(** [set_aggregate_time] raises [AttributeError] exactly when the download
    time is not set or some client of the group has no delay yet, and
    [ValueError] exactly when all that is set and the group has no
    client; it raises nothing else. *)
Theorem set_aggregate_time_errors (delay : nat -> option R) (g : Group) :
  (set_aggregate_time delay g = Raise AttributeError <->
   download_time g = None \/ exists c, In c (clients g) /\ delay c = None) /\
  (set_aggregate_time delay g = Raise ValueError <->
   download_time g <> None /\ clients g = []) /\
  (forall e, set_aggregate_time delay g = Raise e ->
             e = AttributeError \/ e = ValueError).
Proof.
  unfold set_aggregate_time.
  destruct (download_time g) as [d|] eqn:Ed.
  2:{ split; [|split].
      - split; auto.
      - split; [discriminate|]. intros [Hn _]. congruence.
      - intros e [= <-]. auto. }
  destruct (delays_of delay (clients g)) as [ds|e0] eqn:Eds; cbn [bind].
  - assert (Hall : forall c, In c (clients g) -> delay c <> None)
      by (apply delays_of_Ok_iff; eauto).
    pose proof (delays_of_length _ _ Eds) as Hlen.
    destruct ds as [|x ds]; cbn [py_max bind].
    + destruct (clients g) as [|c cs]; [|discriminate].
      split; [|split].
      * split; [discriminate|].
        intros [Hn|(c & [] & _)]. discriminate.
      * split; auto. intros _. split; [discriminate|reflexivity].
      * intros e [= <-]. auto.
    + destruct (clients g) as [|c cs] eqn:Ec; [discriminate|].
      split; [|split].
      * split; [discriminate|].
        intros [Hn|(c' & Hc' & Hd')]; [discriminate|].
        exfalso. apply (Hall c'); auto.
      * split; [discriminate|]. intros [_ Hn]. discriminate.
      * discriminate.
  - pose proof (delays_of_Raise _ _ Eds) as ->.
    assert (Hex : exists c, In c (clients g) /\ delay c = None).
    { clear Ed. unfold delays_of in Eds.
      induction (clients g) as [|c cs IH]; cbn [mapM] in Eds; [discriminate|].
      destruct (delay c) eqn:Edc; cbn [bind] in Eds.
      - destruct (mapM _ cs) eqn:Em; cbn [bind] in Eds; [discriminate|].
        destruct (IH Eds) as (c' & Hc' & Hd'). exists c'. split; auto.
        right; auto.
      - exists c. split; [left; auto|auto]. }
    split; [|split].
    + split; auto.
    + split; [discriminate|].
      intros [_ Hn]. destruct Hex as (c & Hc & _). rewrite Hn in Hc.
      contradiction.
    + intros e [= <-]. auto.
Qed.

(** ** Weighted sums of real numbers *)

Lemma fold_left_Zadd (l : list Z) (a : Z) :
  fold_left Z.add l a = (a + fold_right Z.add 0 l)%Z.
Proof.
  revert a. induction l as [|x l IH]; intros a; cbn [fold_left fold_right].
  - lia.
  - rewrite IH. lia.
Qed.

Lemma total_samples_counts {T A} (f : Report T -> A) (reports : list (Report T)) :
  IZR (total_samples_of reports) =
  counts_sum (map (fun r => (f r, num_samples r)) reports).
Proof.
  unfold total_samples_of. rewrite fold_left_Zadd, Z.add_0_l.
  induction reports as [|r rs IH]; cbn [map fold_right counts_sum snd].
  - reflexivity.
  - rewrite plus_IZR. fold (counts_sum (map (fun r => (f r, num_samples r)) rs)).
    rewrite IH. reflexivity.
Qed.

Lemma scalar_sum_bounds (total : Z) (terms : list (R * Z)) (lo hi : R) :
  0 < IZR total ->
  Forall (fun xn => lo <= fst xn <= hi /\ (0 <= snd xn)%Z) terms ->
  lo * (counts_sum terms / IZR total) <= scalar_sum total terms
  <= hi * (counts_sum terms / IZR total).
Proof.
  intros Ht Hall.
  induction Hall as [|[x n] terms [Hx Hn] _ IH];
    cbn [scalar_sum counts_sum fold_right fst snd] in *.
  - unfold Rdiv. rewrite Rmult_0_l, !Rmult_0_r. lra.
  - fold (counts_sum terms) in *. fold (scalar_sum total terms) in *.
    assert (Hc : 0 <= IZR n / IZR total).
    { apply Rmult_le_pos; [apply IZR_le; exact Hn|].
      left. apply Rinv_0_lt_compat. exact Ht. }
    replace ((IZR n + counts_sum terms) / IZR total)
      with (IZR n / IZR total + counts_sum terms / IZR total)
      by (unfold Rdiv; ring).
    assert (H1 : lo * (IZR n / IZR total) <= x * (IZR n / IZR total))
      by (apply Rmult_le_compat_r; lra).
    assert (H2 : x * (IZR n / IZR total) <= hi * (IZR n / IZR total))
      by (apply Rmult_le_compat_r; lra).
    lra.
Qed.

(** A weighted sum over all the terms of a total is a mean: it lies where
    the terms lie. *)
Lemma scalar_mean_bounds (total : Z) (terms : list (R * Z)) (lo hi : R) :
  (0 < total)%Z -> IZR total = counts_sum terms ->
  Forall (fun xn => lo <= fst xn <= hi /\ (0 <= snd xn)%Z) terms ->
  lo <= scalar_sum total terms <= hi.
Proof.
  intros Ht Hsum Hall.
  assert (Hp : 0 < IZR total) by (apply IZR_lt; exact Ht).
  pose proof (@scalar_sum_bounds total terms lo hi Hp Hall) as Hb.
  rewrite <- Hsum in Hb. unfold Rdiv in Hb.
  rewrite Rinv_r, !Rmult_1_r in Hb by lra. exact Hb.
Qed.

(** ** accuracy_averaging *)

Section AccuracyProofs.

Context {T : Type}.

Lemma accuracy_loop_sum (reports : list (Report T)) (total : Z) :
  total <> 0%Z ->
  forall acc,
    accuracy_loop acc reports total =
    Ok (acc + scalar_sum total (accuracy_terms reports)).
Proof.
  intros Ht. unfold py_div.
  induction reports as [|r rs IH]; intros acc;
    cbn [accuracy_loop accuracy_terms map scalar_sum fold_right fst snd].
  - f_equal. lra.
  - unfold py_div. destruct (Z.eqb_spec total 0) as [E|_]; [contradiction|].
    cbn [bind]. rewrite IH. f_equal.
    unfold scalar_sum, accuracy_terms. rewrite Rplus_assoc. reflexivity.
Qed.

(** What [accuracy_averaging] returns on every batch: 0 on the empty batch
    (no division takes place), [ZeroDivisionError] on a non-empty batch
    whose sample counts add up to zero, and otherwise the sum of
    [accuracy * (num_samples / total)] over the reports. *)
Theorem accuracy_averaging_outcome (reports : list (Report T)) :
  accuracy_averaging reports =
  match reports with
  | [] => Ok 0
  | _ :: _ =>
      if (total_samples_of reports =? 0)%Z then Raise ZeroDivisionError
      else Ok (scalar_sum (total_samples_of reports) (accuracy_terms reports))
  end.
Proof.
  unfold accuracy_averaging.
  destruct reports as [|r rs]; [reflexivity|].
  set (reports := r :: rs).
  destruct (Z.eqb_spec (total_samples_of reports) 0) as [E|Hne].
  - unfold reports at 1. cbn [accuracy_loop]. unfold py_div.
    rewrite E. reflexivity.
  - rewrite accuracy_loop_sum by exact Hne. f_equal. lra.
Qed.

(** With sample counts that are not negative and not all zero, the
    averaged accuracy lies between the least and the greatest reported
    accuracy: it is an accuracy in [0, 1] when the reported ones are. *)
Theorem accuracy_averaging_in_range (reports : list (Report T)) (lo hi : R) :
  samples_nonneg reports ->
  (0 < total_samples_of reports)%Z ->
  Forall (fun r => lo <= accuracy r <= hi) reports ->
  exists a, accuracy_averaging reports = Ok a /\ lo <= a <= hi.
Proof.
  intros Hn Ht Hacc.
  unfold accuracy_averaging.
  rewrite accuracy_loop_sum by lia.
  eexists. split; [reflexivity|].
  rewrite Rplus_0_l.
  apply scalar_mean_bounds.
  - exact Ht.
  - apply (total_samples_counts (@accuracy T)).
  - unfold accuracy_terms. apply Forall_forall. intros xn Hin.
    apply in_map_iff in Hin as (r & <- & Hr). cbn [fst snd].
    split.
    + exact (proj1 (Forall_forall _ _) Hacc r Hr).
    + exact (proj1 (Forall_forall _ _) Hn r Hr).
Qed.

End AccuracyProofs.

Lemma accuracy_averaging_in_range_witness :
  exists a, accuracy_averaging graded_reports = Ok a /\ 5 / 10 <= a <= 9 / 10.
Proof.
  apply (@accuracy_averaging_in_range R graded_reports (5 / 10) (9 / 10)).
  - unfold samples_nonneg, graded_reports.
    repeat constructor; cbn [num_samples]; lia.
  - reflexivity.
  - unfold graded_reports. repeat constructor; cbn [accuracy]; lra.
Defined.

(** ** Aggregation of scalar weights *)

Section AggregationPositions.

Context {T : Type} `{TensorOps T}.

(** The value of sync aggregation, as [federated_averaging] computes it. *)
Lemma averaging_positions (model : Weights T) (reports : list (Report T)) :
  reports <> [] ->
  same_names model reports ->
  (0 < total_samples_of reports)%Z ->
  federated_averaging model reports = Ok (averaging_spec model reports).
Proof.
  intros Hne Hn Ht.
  unfold federated_averaging.
  rewrite extract_client_updates_spec by auto. cbn [bind].
  pose proof (same_names_layout Hn) as Hlay.
  destruct (@accumulated _ _ model reports
              (fun r => deltas_from 0 model (weights r)))
    as (avg & Hacc & Hlen & Hnth); auto; try lia.
  { eapply Forall_impl; [|exact Hlay].
    intros r Hr. cbn beta in *. rewrite length_deltas_from. exact Hr. }
  unfold bind in Hacc |- *.
  destruct (zeros_of_first _) as [first|e]; [|discriminate].
  rewrite Hacc.
  unfold averaging_spec. apply rebuild_from_0; auto.
  intros j name w Hj.
  assert (Hjl : (j < length model)%nat) by (apply nth_error_Some; congruence).
  assert (Hl : forall r, In r reports -> length (weights r) = length model)
    by (apply Forall_forall; exact Hlay).
  eexists. split; [apply (Hnth j w Hjl)|].
  cbn [fst snd]. do 3 f_equal.
  - unfold delta_terms. apply map_ext_in. intros r Hr.
    f_equal. symmetry. eapply tensor_at_deltas; eauto.
    rewrite (Hl r Hr). exact Hjl.
  - unfold delta_terms. f_equal. apply map_ext_in. intros r Hr.
    f_equal. symmetry. eapply tensor_at_deltas; eauto.
    rewrite (Hl r Hr). exact Hjl.
Qed.

Lemma mapi_from_ext {A B} (f g : nat -> A -> B) (l : list A) :
  forall i,
    (forall j a, nth_error l j = Some a -> f (i + j)%nat a = g (i + j)%nat a) ->
    mapi_from i f l = mapi_from i g l.
Proof.
  induction l as [|a l IH]; intros i Hfg; cbn [mapi_from]; [reflexivity|].
  f_equal.
  - specialize (Hfg 0%nat a eq_refl). rewrite Nat.add_0_r in Hfg. exact Hfg.
  - apply IH. intros j b Hj. specialize (Hfg (S j) b Hj).
    replace (S i + j)%nat with (i + S j)%nat by lia. exact Hfg.
Qed.

Lemma Forall_mapi_from {A B} (P : B -> Prop) (f : nat -> A -> B) (l : list A) :
  forall i,
    (forall j a, nth_error l j = Some a -> P (f (i + j)%nat a)) ->
    Forall P (mapi_from i f l).
Proof.
  induction l as [|a l IH]; intros i Hf; cbn [mapi_from]; constructor.
  - specialize (Hf 0%nat a eq_refl). rewrite Nat.add_0_r in Hf. exact Hf.
  - apply IH. intros j b Hj. specialize (Hf (S j) b Hj).
    replace (S i + j)%nat with (i + S j)%nat by lia. exact Hf.
Qed.

Lemma map_fst_mapi_from {A} (f : nat -> string * A -> A) (l : list (string * A)) :
  forall i, map fst (mapi_from i (fun j nb => (fst nb, f j nb)) l) = map fst l.
Proof.
  induction l as [|a l IH]; intros i; cbn [mapi_from map fst]; [reflexivity|].
  f_equal. apply IH.
Qed.

End AggregationPositions.

Lemma weighted_sum_scalar (total : Z) (terms : list (R * Z)) (z : R) :
  weighted_sum total terms z = z + scalar_sum total terms.
Proof.
  unfold weighted_sum, scalar_sum. revert z.
  induction terms as [|xn terms IH]; intros z; cbn [fold_left fold_right].
  - lra.
  - rewrite IH. cbn [tadd tscale scalar_tensor]. lra.
Qed.

Lemma zero_of_scalar (terms : list (R * Z)) (d : R) :
  terms <> [] -> zero_of terms d = 0.
Proof.
  destruct terms as [|[x n] terms]; [congruence|reflexivity].
Qed.

Lemma scalar_sum_deltas {A} (f : A -> R) (n : A -> Z) (b : R) (total : Z)
      (l : list A) :
  scalar_sum total (map (fun r => (f r - b, n r)) l) =
  scalar_sum total (map (fun r => (f r, n r)) l)
  - b * (counts_sum (map (fun r => (f r, n r)) l) / IZR total).
Proof.
  unfold scalar_sum, counts_sum.
  induction l as [|a l IH]; cbn [map fold_right fst snd].
  - unfold Rdiv. ring.
  - rewrite IH. unfold Rdiv. ring.
Qed.

Lemma tensor_at_within_layout (lo hi : R) (w : Weights R) (j : nat) (d : R) :
  within lo hi w -> (j < length w)%nat -> lo <= tensor_at j w d <= hi.
Proof.
  intros Hw Hj. unfold tensor_at.
  destruct (nth_error w j) as [[name x]|] eqn:E.
  - apply nth_error_In in E. exact (proj1 (Forall_forall _ _) Hw _ E).
  - apply nth_error_None in E. lia.
Qed.

(** Sync aggregation of scalars, position by position: the baseline
    cancels. *)
Lemma averaging_is_mean (model : Weights R) (reports : list (Report R)) :
  reports <> [] -> (0 < total_samples_of reports)%Z ->
  averaging_spec model reports = mean_spec model reports.
Proof.
  intros Hne Ht. unfold averaging_spec, mean_spec.
  apply mapi_from_ext. intros j [name b] _. cbn [fst snd Nat.add]. f_equal.
  rewrite weighted_sum_scalar, zero_of_scalar.
  2:{ unfold delta_terms. destruct reports; [congruence|discriminate]. }
  unfold delta_terms, weight_terms. cbn [tadd tsub scalar_tensor].
  rewrite (scalar_sum_deltas (fun r => tensor_at j (weights r) b)
             (@num_samples R) b).
  rewrite <- (total_samples_counts (fun r => tensor_at j (weights r) b)).
  assert (Hp : 0 < IZR (total_samples_of reports)) by (apply IZR_lt; exact Ht).
  unfold Rdiv. rewrite Rinv_r by lra. lra.
Qed.

(** In exact arithmetic sync aggregation does not depend on the values of
    the baseline: it returns, under the model's names, the sample-weighted
    mean of the reported weights, which is also what async aggregation
    returns at full trust ([alpha = 1], 'constant' staleness). *)
Theorem federated_averaging_is_mean (model : Weights R)
        (reports : list (Report R)) (s : option R) :
  reports <> [] ->
  same_names model reports ->
  (0 < total_samples_of reports)%Z ->
  federated_averaging model reports = Ok (mean_spec model reports) /\
  federated_async 1 "constant" model reports s = Ok (mean_spec model reports).
Proof.
  intros Hne Hn Ht. split.
  - rewrite averaging_positions by auto. f_equal.
    apply averaging_is_mean; auto.
  - rewrite (@federated_async_blend _ _ 1 1 "constant" model reports s);
      auto using same_names_layout.
    f_equal. unfold blending_spec, mean_spec.
    apply mapi_from_ext. intros j [name b] _. cbn [fst snd Nat.add]. f_equal.
    rewrite weighted_sum_scalar, zero_of_scalar.
    2:{ unfold weight_terms. destruct reports; [congruence|discriminate]. }
    cbn [tadd tscale scalar_tensor]. lra.
Qed.

Lemma federated_averaging_is_mean_witness :
  federated_averaging scenario_model scenario_reports
  = Ok (mean_spec scenario_model scenario_reports) /\
  federated_async 1 "constant" scenario_model scenario_reports (Some 0)
  = Ok (mean_spec scenario_model scenario_reports).
Proof.
  apply (@federated_averaging_is_mean scenario_model scenario_reports (Some 0)).
  - discriminate.
  - repeat constructor.
  - reflexivity.
Defined.

(** ** The range of the staleness coefficient and of the aggregate *)

Lemma staleness_unit (func : string) (s : R) :
  known_staleness func -> 0 <= s ->
  exists f, staleness func (Some s) = Ok (PyFloat f) /\ 0 < f <= 1.
Proof.
  intros [->|[->| ->]] Hs.
  - exists 1. split; [reflexivity|lra].
  - rewrite polynomial_value by exact Hs. eexists. split; [reflexivity|].
    split; [unfold Rpower; apply exp_pos|].
    destruct (Req_dec_T s 0) as [->|Hne].
    + rewrite Rplus_0_l. unfold Rpower. rewrite ln_1, Rmult_0_r, exp_0. lra.
    + left. replace 1 with (Rpower 1 (- (0.5))) at 2
        by (unfold Rpower; rewrite ln_1, Rmult_0_r, exp_0; reflexivity).
      apply Rpower_neg_half_decreasing; lra.
  - rewrite hinge_value. eexists. split; [reflexivity|].
    destruct (Rle_dec s 4) as [_|Hgt]; [lra|].
    apply hinge_decay_pos. lra.
Qed.

(** For a staleness that is not negative each of the three staleness
    functions returns a damping coefficient in (0, 1], so that the
    staleness-adjusted step [alpha * f] never exceeds [alpha] and is
    positive when [alpha] is. *)
Theorem staleness_damps (func : string) (s : R) :
  known_staleness func -> 0 <= s ->
  exists f,
    staleness func (Some s) = Ok (PyFloat f) /\ 0 < f <= 1 /\
    forall alpha, 0 < alpha -> 0 < alpha * f <= alpha.
Proof.
  intros Hk Hs. destruct (staleness_unit Hk Hs) as (f & Hf & Hf0 & Hf1).
  exists f. split; [exact Hf|]. split; [lra|].
  intros alpha Ha. split.
  - apply Rmult_lt_0_compat; lra.
  - rewrite <- (Rmult_1_r alpha) at 2. apply Rmult_le_compat_l; lra.
Qed.

Lemma staleness_damps_witness :
  exists f,
    staleness "hinge" (Some 5) = Ok (PyFloat f) /\ 0 < f <= 1 /\
    forall alpha, 0 < alpha -> 0 < alpha * f <= alpha.
Proof.
  apply (@staleness_damps "hinge" 5).
  - right. right. reflexivity.
  - lra.
Defined.

(** A negative staleness is not rejected: 'constant' and 'hinge' return 1,
    'polynomial' returns a coefficient above 1 between -1 and 0 (the
    update is amplified), divides by zero at -1 and leaves the real
    numbers below -1. *)
Theorem negative_staleness (s : R) :
  s < 0 ->
  staleness "constant" (Some s) = Ok (PyFloat 1) /\
  staleness "hinge" (Some s) = Ok (PyFloat 1) /\
  (-1 < s ->
   exists f, staleness "polynomial" (Some s) = Ok (PyFloat f) /\ 1 < f) /\
  (s = -1 -> staleness "polynomial" (Some s) = Raise ZeroDivisionError) /\
  (s < -1 -> staleness "polynomial" (Some s) = Ok PyComplex).
Proof.
  intros Hs. split; [reflexivity|]. split.
  { rewrite hinge_value. destruct (Rle_dec s 4); [reflexivity|lra]. }
  unfold staleness. cbn [String.eqb Ascii.eqb Bool.eqb]. unfold py_pow.
  split; [|split].
  - intros Hs1. destruct (Rlt_dec 0 (s + 1)) as [Hp|Hn]; [|lra].
    eexists. split; [reflexivity|].
    replace 1 with (Rpower 1 (- (0.5))) at 1
      by (unfold Rpower; rewrite ln_1, Rmult_0_r, exp_0; reflexivity).
    apply Rpower_neg_half_decreasing; lra.
  - intros ->. destruct (Rlt_dec 0 (-1 + 1)) as [Hp|_]; [lra|].
    destruct (Req_dec_T (-1 + 1) 0) as [_|Hn]; [reflexivity|lra].
  - intros Hs1. destruct (Rlt_dec 0 (s + 1)) as [Hp|_]; [lra|].
    destruct (Req_dec_T (s + 1) 0) as [E|_]; [lra|reflexivity].
Qed.

Lemma negative_staleness_witness :
  staleness "constant" (Some (- (1 / 2))) = Ok (PyFloat 1) /\
  staleness "hinge" (Some (- (1 / 2))) = Ok (PyFloat 1) /\
  (-1 < - (1 / 2) ->
   exists f, staleness "polynomial" (Some (- (1 / 2))) = Ok (PyFloat f) /\
             1 < f) /\
  (- (1 / 2) = -1 ->
   staleness "polynomial" (Some (- (1 / 2))) = Raise ZeroDivisionError) /\
  (- (1 / 2) < -1 -> staleness "polynomial" (Some (- (1 / 2))) = Ok PyComplex).
Proof.
  apply (@negative_staleness (- (1 / 2))). lra.
Defined.

Lemma mean_within (lo hi : R) (model : Weights R) (reports : list (Report R)) :
  (0 < total_samples_of reports)%Z ->
  samples_nonneg reports ->
  same_layout model reports ->
  Forall (fun r => within lo hi (weights r)) reports ->
  forall j name b, nth_error model j = Some (name, b) ->
    lo <= scalar_sum (total_samples_of reports) (weight_terms j b reports) <= hi.
Proof.
  intros Ht Hn Hlay Hw j name b Hj.
  assert (Hjl : (j < length model)%nat) by (apply nth_error_Some; congruence).
  apply scalar_mean_bounds.
  - exact Ht.
  - apply (total_samples_counts (fun r => tensor_at j (weights r) b)).
  - unfold weight_terms. apply Forall_forall. intros xn Hin.
    apply in_map_iff in Hin as (r & <- & Hr). cbn [fst snd].
    split.
    + apply tensor_at_within_layout.
      * exact (proj1 (Forall_forall _ _) Hw r Hr).
      * rewrite (proj1 (Forall_forall _ _) Hlay r Hr). exact Hjl.
    + exact (proj1 (Forall_forall _ _) Hn r Hr).
Qed.

(** In exact arithmetic (weights read as real numbers, not as float32
    values) sync aggregation of scalar weights stays in the range of the
    reports: when every reported weight lies in [lo, hi] and no sample
    count is negative, so does every weight of the aggregate, whatever the
    baseline; the names are those of the model.  The bound is one of the
    averaging rule, not of its rounding: in float32 a baseline as large as
    2^25 absorbs a reported weight of 1 in the difference the code forms,
    and the rounded aggregate leaves the range. *)
Theorem federated_averaging_in_range (lo hi : R) (model : Weights R)
        (reports : list (Report R)) :
  reports <> [] ->
  same_names model reports ->
  (0 < total_samples_of reports)%Z ->
  samples_nonneg reports ->
  Forall (fun r => within lo hi (weights r)) reports ->
  exists out,
    federated_averaging model reports = Ok out /\
    map fst out = map fst model /\ within lo hi out.
Proof.
  intros Hne Hnames Ht Hn Hw.
  exists (mean_spec model reports).
  split; [|split].
  - rewrite averaging_positions by auto. f_equal.
    apply averaging_is_mean; auto.
  - unfold mean_spec. apply map_fst_mapi_from.
  - unfold within, mean_spec. apply Forall_mapi_from.
    intros j [name b] Hj. cbn [fst snd Nat.add].
    eapply mean_within; eauto using same_names_layout.
Qed.

Lemma federated_averaging_in_range_witness :
  exists out,
    federated_averaging scenario_model scenario_reports = Ok out /\
    map fst out = map fst scenario_model /\ within 1 3 out.
Proof.
  apply (@federated_averaging_in_range 1 3 scenario_model scenario_reports).
  - discriminate.
  - repeat constructor.
  - reflexivity.
  - unfold samples_nonneg, scenario_reports.
    repeat constructor; cbn [num_samples]; lia.
  - unfold within, scenario_reports.
    repeat constructor; cbn [weights snd]; lra.
Defined.

(** Async aggregation of scalar weights is a convex blend: with [alpha] in
    [0, 1], a staleness that is not negative and one of the three
    staleness functions, every weight of the result lies in any range
    [lo, hi] that holds the weights of the model and of the reports; the
    names are those of the model. *)
Theorem federated_async_in_range (lo hi alpha s : R) (func : string)
        (model : Weights R) (reports : list (Report R)) :
  reports <> [] ->
  same_layout model reports ->
  (0 < total_samples_of reports)%Z ->
  samples_nonneg reports ->
  known_staleness func -> 0 <= s -> 0 <= alpha <= 1 ->
  within lo hi model ->
  Forall (fun r => within lo hi (weights r)) reports ->
  exists out,
    federated_async alpha func model reports (Some s) = Ok out /\
    map fst out = map fst model /\ within lo hi out.
Proof.
  intros Hne Hlay Ht Hn Hk Hs Ha Hm Hw.
  destruct (staleness_unit Hk Hs) as (f & Hf & Hf0 & Hf1).
  exists (blending_spec (alpha * f) model reports).
  split; [|split].
  - apply federated_async_blend; auto.
  - unfold blending_spec. apply map_fst_mapi_from.
  - unfold within, blending_spec. apply Forall_mapi_from.
    intros j [name b] Hj. cbn [fst snd Nat.add].
    rewrite weighted_sum_scalar, zero_of_scalar.
    2:{ unfold weight_terms. destruct reports; [congruence|discriminate]. }
    pose proof (@mean_within lo hi model reports Ht Hn Hlay Hw j name b Hj)
      as Hmean.
    assert (Hb : lo <= b <= hi).
    { apply nth_error_In in Hj.
      exact (proj1 (Forall_forall _ _) Hm _ Hj). }
    cbn [tadd tscale scalar_tensor].
    set (nw := scalar_sum _ _) in *.
    assert (Ha0 : 0 <= alpha * f) by (apply Rmult_le_pos; lra).
    assert (Ha1 : alpha * f <= 1).
    { rewrite <- (Rmult_1_r 1). apply Rmult_le_compat; lra. }
    set (a := alpha * f) in *.
    assert (H1 : 0 <= (b - lo) * (1 - a)) by (apply Rmult_le_pos; lra).
    assert (H2 : 0 <= (0 + nw - lo) * a) by (apply Rmult_le_pos; lra).
    assert (H3 : 0 <= (hi - b) * (1 - a)) by (apply Rmult_le_pos; lra).
    assert (H4 : 0 <= (hi - (0 + nw)) * a) by (apply Rmult_le_pos; lra).
    split; lra.
Qed.

Lemma federated_async_in_range_witness :
  exists out,
    federated_async (1 / 2) "hinge" scenario_model scenario_reports (Some 5)
    = Ok out /\
    map fst out = map fst scenario_model /\ within 0 3 out.
Proof.
  apply (@federated_async_in_range 0 3 (1 / 2) 5 "hinge" scenario_model
           scenario_reports).
  - discriminate.
  - repeat constructor.
  - reflexivity.
  - unfold samples_nonneg, scenario_reports.
    repeat constructor; cbn [num_samples]; lia.
  - right. right. reflexivity.
  - lra.
  - lra.
  - unfold within, scenario_model. repeat constructor; cbn [snd]; lra.
  - unfold within, scenario_reports.
    repeat constructor; cbn [weights snd]; lra.
Defined.

(** ** The order of the reports *)

Lemma fold_right_Zadd_perm (l l' : list Z) :
  Permutation l l' -> fold_right Z.add 0%Z l = fold_right Z.add 0%Z l'.
Proof.
  induction 1; cbn [fold_right]; lia.
Qed.

Lemma total_samples_perm {T} (reports reports' : list (Report T)) :
  Permutation reports reports' ->
  total_samples_of reports = total_samples_of reports'.
Proof.
  intros Hp. unfold total_samples_of. rewrite !fold_left_Zadd.
  f_equal. apply fold_right_Zadd_perm. apply Permutation_map. exact Hp.
Qed.

Lemma scalar_sum_perm (total : Z) (terms terms' : list (R * Z)) :
  Permutation terms terms' -> scalar_sum total terms = scalar_sum total terms'.
Proof.
  unfold scalar_sum. induction 1; cbn [fold_right]; lra.
Qed.

Lemma weight_terms_sum_perm (total : Z) (j : nat) (b : R)
      (reports reports' : list (Report R)) :
  Permutation reports reports' ->
  scalar_sum total (weight_terms j b reports)
  = scalar_sum total (weight_terms j b reports').
Proof.
  intros Hp. apply scalar_sum_perm. unfold weight_terms.
  apply Permutation_map. exact Hp.
Qed.

(** In exact arithmetic the order of the reports of a batch does not
    matter: a batch and any rearrangement of it give the same averaged
    accuracy (or the same exception), the same sync aggregate and the same
    async aggregate.  For the aggregates the batch is not empty, lists
    the tensors of the model and has a positive sample count. *)
Theorem aggregation_order_irrelevant (alpha f : R) (func : string)
        (s : option R) (model : Weights R) (reports reports' : list (Report R)) :
  Permutation reports reports' ->
  accuracy_averaging reports = accuracy_averaging reports' /\
  (reports <> [] -> same_names model reports ->
   (0 < total_samples_of reports)%Z ->
   federated_averaging model reports = federated_averaging model reports') /\
  (reports <> [] -> same_layout model reports ->
   (0 < total_samples_of reports)%Z ->
   staleness func s = Ok (PyFloat f) ->
   federated_async alpha func model reports s
   = federated_async alpha func model reports' s).
Proof.
  intros Hp.
  pose proof (total_samples_perm Hp) as Htotal.
  assert (Hne' : reports <> [] -> reports' <> []).
  { intros Hne ->. apply Permutation_sym, Permutation_nil in Hp. auto. }
  split; [|split].
  - unfold accuracy_averaging. rewrite <- Htotal.
    destruct (Z.eqb_spec (total_samples_of reports) 0) as [E|Hnz].
    + rewrite E.
      destruct reports as [|r rs].
      { apply Permutation_nil in Hp. subst. reflexivity. }
      destruct reports' as [|r' rs'].
      { apply Permutation_sym, Permutation_nil in Hp. discriminate. }
      reflexivity.
    + rewrite !accuracy_loop_sum by exact Hnz. do 2 f_equal.
      apply scalar_sum_perm. unfold accuracy_terms.
      apply Permutation_map. exact Hp.
  - intros Hne Hnames Ht.
    assert (Hnames' : same_names model reports')
      by (eapply Permutation_Forall; eauto).
    assert (Ht' : (0 < total_samples_of reports')%Z)
      by (rewrite <- Htotal; exact Ht).
    rewrite (@averaging_positions _ _ model reports Hne Hnames Ht).
    rewrite (@averaging_positions _ _ model reports' (Hne' Hne) Hnames' Ht').
    f_equal.
    rewrite (@averaging_is_mean model reports Hne Ht).
    rewrite (@averaging_is_mean model reports' (Hne' Hne) Ht').
    unfold mean_spec. rewrite <- Htotal.
    apply mapi_from_ext. intros j [name b] _. cbn [fst snd]. f_equal.
    apply weight_terms_sum_perm. exact Hp.
  - intros Hne Hlay Ht Hf.
    assert (Hlay' : same_layout model reports')
      by (eapply Permutation_Forall; eauto).
    assert (Ht' : (0 < total_samples_of reports')%Z)
      by (rewrite <- Htotal; exact Ht).
    rewrite (@federated_async_blend _ _ alpha f func model reports s
               Hne Hlay Ht Hf).
    rewrite (@federated_async_blend _ _ alpha f func model reports' s
               (Hne' Hne) Hlay' Ht' Hf).
    f_equal. unfold blending_spec. rewrite <- Htotal.
    apply mapi_from_ext. intros j [name b] _. cbn [fst snd]. do 3 f_equal.
    rewrite !weighted_sum_scalar, !zero_of_scalar.
    + f_equal. apply weight_terms_sum_perm. exact Hp.
    + unfold weight_terms. specialize (Hne' Hne).
      destruct reports'; [congruence|discriminate].
    + unfold weight_terms. destruct reports; [congruence|discriminate].
Qed.

Lemma aggregation_order_irrelevant_witness :
  accuracy_averaging scenario_reports = accuracy_averaging (rev scenario_reports)
  /\
  (scenario_reports <> [] -> same_names scenario_model scenario_reports ->
   (0 < total_samples_of scenario_reports)%Z ->
   federated_averaging scenario_model scenario_reports
   = federated_averaging scenario_model (rev scenario_reports)) /\
  (scenario_reports <> [] -> same_layout scenario_model scenario_reports ->
   (0 < total_samples_of scenario_reports)%Z ->
   staleness "hinge" (Some 5) = Ok (PyFloat (1 / (10 * (5 - 4) + 1))) ->
   federated_async (1 / 2) "hinge" scenario_model scenario_reports (Some 5)
   = federated_async (1 / 2) "hinge" scenario_model (rev scenario_reports)
                     (Some 5)).
Proof.
  apply (@aggregation_order_irrelevant (1 / 2) (1 / (10 * (5 - 4) + 1))
           "hinge" (Some 5) scenario_model scenario_reports
           (rev scenario_reports)).
  apply Permutation_rev.
Defined.

(** ** The exceptions of a round *)

Lemma py_max_Raise (ds : list R) e : py_max ds = Raise e -> e = ValueError.
Proof.
  destruct ds; cbn [py_max]; [congruence|discriminate].
Qed.

Lemma set_aggregate_time_Raise (delay : nat -> option R) (g : Group) e :
  set_aggregate_time delay g = Raise e ->
  e = AttributeError \/ e = ValueError.
Proof.
  unfold set_aggregate_time.
  destruct (download_time g) as [d|]; [|intros [= <-]; auto].
  destruct (delays_of delay (clients g)) as [ds|e0] eqn:Eds; cbn [bind].
  - destruct (py_max ds) as [m|e1] eqn:Em; cbn [bind]; [discriminate|].
    intros [= <-]. right. eapply py_max_Raise; eauto.
  - intros [= <-]. left. eapply delays_of_Raise; eauto.
Qed.

Lemma put_all_Raise (gs : list Group) :
  forall q e,
    heap_ordered fst q -> put_all q gs = Raise e ->
    e = TypeError \/ e = AttributeError.
Proof.
  induction gs as [|g gs IH]; intros q e Ho; cbn [put_all]; [discriminate|].
  destruct (aggregate_time g) as [t|] eqn:Et.
  - pose proof (@queue_put_spec q g t Ho Et) as Hput.
    destruct (queue_put q g) as [q1|e1]; cbn [bind].
    + apply IH. exact (proj1 Hput).
    + intros [= <-]. left. exact (proj1 Hput).
  - unfold queue_put, get_aggregate_time. rewrite Et. cbn [bind].
    intros [= <-]. right. reflexivity.
Qed.

Section AggregationOutcomes.

Context {T : Type} `{TensorOps T}.

Lemma rebuild_Raise (f : T -> T -> result T) (model : Weights T) :
  forall i avg e,
    rebuild f model i avg = Raise e ->
    e = IndexError \/ exists w a, f w a = Raise e.
Proof.
  induction model as [|[name w] rest IH]; intros i avg e; cbn [rebuild].
  - discriminate.
  - destruct (getitem_cases avg i) as [E|[a E]]; rewrite E; cbn [bind].
    + intros [= <-]. auto.
    + destruct (f w a) as [v|e1] eqn:Ef; cbn [bind].
      * destruct (rebuild f rest (S i) avg) as [u|e2] eqn:Er; cbn [bind].
        -- discriminate.
        -- intros [= <-]. eapply IH; eauto.
      * intros [= <-]. right. eauto.
Qed.

Lemma zeros_of_first_Raise (ws : list (Weights T)) e :
  zeros_of_first ws = Raise e -> e = IndexError.
Proof.
  unfold zeros_of_first.
  destruct (getitem_cases ws 0) as [E|[w E]]; rewrite E; cbn [bind].
  - congruence.
  - discriminate.
Qed.

Lemma federated_averaging_Raise (model : Weights T) reports e :
  federated_averaging model reports = Raise e -> python_exn e.
Proof.
  unfold federated_averaging.
  destruct (extract_client_updates model reports) as [updates|e0] eqn:Eu;
    cbn [bind].
  2:{ intros [= <-]. eapply extract_client_updates_raises; eauto. }
  destruct (zeros_of_first updates) as [z|e0] eqn:Ez; cbn [bind].
  2:{ intros [= <-]. apply zeros_of_first_Raise in Ez as ->.
      apply python_exn_IndexError. }
  destruct (accumulate z 0 updates reports (total_samples_of reports))
    as [avg|e0] eqn:Ea; cbn [bind].
  2:{ intros [= <-]. eapply accumulate_raises; eauto. }
  intros Hr. apply rebuild_Raise in Hr as [->|(w & a & Hf)].
  - apply python_exn_IndexError.
  - discriminate.
Qed.

Lemma federated_async_Raise alpha func (model : Weights T) reports s e :
  federated_async alpha func model reports s = Raise e -> e <> OutOfFuel.
Proof.
  unfold federated_async.
  destruct (zeros_of_first (extract_client_weights reports)) as [z|e0] eqn:Ez;
    cbn [bind].
  2:{ intros [= <-]. apply zeros_of_first_Raise in Ez as ->. discriminate. }
  destruct (accumulate z 0 (extract_client_weights reports) reports
              (total_samples_of reports)) as [avg|e0] eqn:Ea; cbn [bind].
  2:{ intros [= <-]. apply accumulate_raises in Ea. exact (proj1 Ea). }
  destruct (staleness func s) as [f|e0] eqn:Ef; cbn [bind].
  2:{ intros [= <-]. apply staleness_raises in Ef. exact (proj1 Ef). }
  destruct f as [|f|]; cbn [bind].
  - intros [= <-]. discriminate.
  - intros Hr. apply rebuild_Raise in Hr as [->|(w & a & Hf)]; discriminate.
  - intros Hr. apply rebuild_Raise in Hr as [->|(w & a & Hf)];
      [discriminate|].
    injection Hf as <-. discriminate.
Qed.

Lemma aggregation_Raise mode alpha func (model : Weights T) reports s e :
  aggregation mode alpha func model reports s = Raise e -> e <> OutOfFuel.
Proof.
  unfold aggregation.
  destruct (mode =? "sync")%string.
  { intros Hr. apply federated_averaging_Raise in Hr. exact (proj1 Hr). }
  destruct (mode =? "async")%string.
  { apply federated_async_Raise. }
  intros [= <-]. discriminate.
Qed.

Lemma accuracy_loop_Raise (reports : list (Report T)) total :
  forall acc e,
    accuracy_loop acc reports total = Raise e -> e = ZeroDivisionError.
Proof.
  induction reports as [|r rs IH]; intros acc e; cbn [accuracy_loop].
  - discriminate.
  - unfold py_div. destruct (total =? 0)%Z; cbn [bind].
    + congruence.
    + apply IH.
Qed.

End AggregationOutcomes.

(** ** What a round leaves *)

Section RoundOutcomes.

Context {T : Type} `{TensorOps T}.

Variable config : Config.
Variable sample_delay : nat -> nat -> R.
Variable random_sample : nat -> list nat.
Variable get_report : nat -> nat -> Report T.
Variable test_model : Weights T -> R.

Local Abbreviation St := (Server T).

Lemma start_groups_sample (T_old : R) (groups : list Group) :
  forall (s s' : St) gs cs,
    start_groups sample_delay T_old groups s = (Ok (gs, cs), s') ->
    cs = concat (map clients groups).
Proof.
  induction groups as [|g groups IH]; intros s s' gs cs; cbn [start_groups].
  - unfold ret. intros [= <- <- <-]. reflexivity.
  - intros Hrun.
    apply bindM_Ok in Hrun as ([] & s1 & E1 & Hrun).
    apply bindM_Ok in Hrun as (g' & s2 & Eg & Hrun).
    injection Eg as Eg <-.
    apply bindM_Ok in Hrun as ([gs' cs'] & s3 & E2 & Hrun).
    unfold ret in Hrun. injection Hrun as <- <- <-.
    apply set_aggregate_time_Ok in Eg as (d & ds & m & _ & _ & _ & ->).
    cbn [clients set_download_time map concat]. f_equal. eapply IH; eauto.
Qed.

(** What holds of every delay that is drawn or held holds of the delays
    after the loop that opens a round, and of the largest delay of each of
    its groups. *)
Lemma start_groups_delays (P : R -> Prop) (T_old : R) (groups : list Group) :
  (forall c k, P (sample_delay c k)) ->
  forall (s s' : St) gs cs,
    start_groups sample_delay T_old groups s = (Ok (gs, cs), s') ->
    (forall c d, delay s c = Some d -> P d) ->
    (forall c d, delay s' c = Some d -> P d) /\
    length gs = length groups /\
    Forall (fun g => exists m, P m /\ aggregate_time g = Some (T_old + m)) gs.
Proof.
  intros Hsample.
  induction groups as [|g groups IH]; intros s s' gs cs; cbn [start_groups].
  - unfold ret. intros [= <- <- <-] Hs. repeat split; auto.
  - intros Hrun Hs.
    apply bindM_Ok in Hrun as ([] & s1 & E1 & Hrun).
    assert (Hs1 : forall c d, delay s1 c = Some d -> P d).
    { intros c d Hc.
      apply set_delays_frame in E1 as (_ & _ & _ & _ & _ & _ & Hdel).
      destruct (Hdel c) as [E|[_ [k Hk]]].
      - apply (Hs c). congruence.
      - assert (d = sample_delay c k) by congruence. subst. auto. }
    apply bindM_Ok in Hrun as (g' & s2 & Eg & Hrun).
    injection Eg as Eg <-.
    apply bindM_Ok in Hrun as ([gs' cs'] & s3 & E2 & Hrun).
    unfold ret in Hrun. injection Hrun as <- <- <-.
    destruct (IH _ _ _ _ E2 Hs1) as (Hs' & Hlen & Hall).
    split; [exact Hs'|]. split; [cbn [length]; lia|].
    constructor; [|exact Hall].
    apply set_aggregate_time_Ok in Eg as (d & ds & m & Hd & Hds & Hm & ->).
    cbn in Hd. injection Hd as <-. cbn [aggregate_time].
    exists m. split; [|reflexivity].
    destruct (max_delay_bounds _ _ Hds Hm) as [_ (c & _ & Hc)].
    exact (Hs1 c m Hc).
Qed.

Lemma selection_sample (round : nat) :
  concat (map clients (selection random_sample round)) = random_sample round.
Proof.
  rewrite selection_clients. apply concat_singletons.
Qed.

(** A completed sync round, read off the code. *)
Lemma sync_round_Ok (round : nat) (T_old : R) (s s' : St) acc T_new :
  sync_round config sample_delay random_sample get_report test_model
             round T_old s = (Ok (acc, T_new), s') ->
  exists gs s1 ds m,
    start_groups sample_delay T_old (selection random_sample round) s
    = (Ok (gs, random_sample round), s1) /\
    delays_of (delay s1) (random_sample round) = Ok ds /\
    py_max ds = Ok m /\ T_new = T_old + m /\
    aggregation (sync_type config) (alpha config) (staleness_func config)
                (model s1)
                (reporting get_report (passes s1) (random_sample round)) None
    = Ok (model s') /\
    s' = mkServer (model s') (append_acc_record (records s1) T_new acc)
                  (delay s1) (draws s1) (S (passes s1)) (log s1).
Proof.
  unfold sync_round. intros Hrun.
  apply bindM_Ok in Hrun as ([gs cs] & s1 & Hstart & Hrun).
  pose proof (start_groups_sample _ _ _ Hstart) as Hcs.
  rewrite selection_sample in Hcs. subst cs.
  apply bindM_Ok in Hrun as (ds & s2 & Hds & Hrun).
  injection Hds as Hds <-.
  apply bindM_Ok in Hrun as (m & s2 & Hm & Hrun).
  apply lift_Ok in Hm as [Hm ->].
  apply bindM_Ok in Hrun as (k & s2 & Hk & Hrun).
  unfold train in Hk. injection Hk as <- <-.
  apply bindM_Ok in Hrun as (updated & s2 & Hagg & Hrun).
  unfold aggregate in Hagg.
  apply bindM_Ok in Hagg as (m0 & s3 & Hm0 & Hagg).
  unfold gets in Hm0. injection Hm0 as <- <-.
  apply lift_Ok in Hagg as [Hagg ->]. cbn [model] in Hagg.
  apply bindM_Ok in Hrun as ([] & s2 & Hload & Hrun).
  unfold load_weights, modify in Hload. injection Hload as <-.
  cbn [model records delay draws passes log] in Hrun.
  apply bindM_Ok in Hrun as (a & s2 & Hacc & Hrun).
  apply evaluate_state in Hacc as ->.
  apply bindM_Ok in Hrun as (rs & s2 & Hrs & Hrun).
  unfold gets in Hrs. injection Hrs as <- <-. cbn [records] in Hrun.
  apply bindM_Ok in Hrun as ([] & s2 & Hset & Hrun).
  unfold set_records, modify in Hset. injection Hset as <-.
  cbn [model records delay draws passes log] in Hrun.
  unfold ret in Hrun. injection Hrun as <- <- <-.
  exists gs, s1, ds, m. cbn [model]. repeat (split; [solve [auto]|]).
  reflexivity.
Qed.

Lemma start_groups_Raise (T_old : R) (groups : list Group) :
  forall (s s' : St) e,
    start_groups sample_delay T_old groups s = (Raise e, s') ->
    e <> OutOfFuel.
Proof.
  induction groups as [|g groups IH]; intros s s' e; cbn [start_groups].
  - discriminate.
  - intros Hrun.
    apply bindM_Raise in Hrun as [E1|([] & s1 & E1 & Hrun)].
    { apply set_delays_frame in E1 as (E1 & _). discriminate. }
    apply bindM_Raise in Hrun as [Eg|(g' & s2 & Eg & Hrun)].
    { injection Eg as Eg _.
      apply set_aggregate_time_Raise in Eg as [Eg|Eg]; subst; discriminate. }
    injection Eg as _ <-.
    apply bindM_Raise in Hrun as [E2|([gs' cs'] & s3 & E2 & Hrun)].
    + eapply IH; eauto.
    + discriminate.
Qed.

(** A sync round that raises has recorded nothing. *)
Lemma sync_round_Raise (round : nat) (T_old : R) (s s' : St) e :
  sync_round config sample_delay random_sample get_report test_model
             round T_old s = (Raise e, s') ->
  records s' = records s /\ log s' = log s /\ e <> OutOfFuel.
Proof.
  unfold sync_round. intros Hrun.
  apply bindM_Raise in Hrun as [Hstart|([gs cs] & s1 & Hstart & Hrun)].
  { pose proof (start_groups_frame _ _ _ _ Hstart) as (_ & Hr & _ & Hl & _).
    split; [auto|]. split; [auto|].
    eapply start_groups_Raise; eauto. }
  apply start_groups_frame in Hstart as (_ & Hr & _ & Hl & _).
  apply bindM_Raise in Hrun as [Hds|(ds & s2 & Hds & Hrun)].
  { injection Hds as Hds <-. split; [auto|]. split; [auto|].
    apply delays_of_Raise in Hds as ->. discriminate. }
  injection Hds as Hds <-.
  apply bindM_Raise in Hrun as [Hm|(m & s2 & Hm & Hrun)].
  { apply lift_Raise in Hm as [Hm ->]. split; [auto|]. split; [auto|].
    apply py_max_Raise in Hm as ->. discriminate. }
  apply lift_Ok in Hm as [Hm ->].
  apply bindM_Raise in Hrun as [Hk|(k & s2 & Hk & Hrun)]; [discriminate|].
  unfold train in Hk. injection Hk as <- <-.
  apply bindM_Raise in Hrun as [Hagg|(updated & s2 & Hagg & Hrun)].
  { unfold aggregate in Hagg.
    apply bindM_Raise in Hagg as [Hm0|(m0 & s3 & Hm0 & Hagg)]; [discriminate|].
    unfold gets in Hm0. injection Hm0 as <- <-.
    apply lift_Raise in Hagg as [Hagg ->]. cbn [records log].
    split; [auto|]. split; [auto|].
    eapply aggregation_Raise; eauto. }
  apply aggregate_state in Hagg as ->.
  apply bindM_Raise in Hrun as [Hload|([] & s2 & Hload & Hrun)];
    [discriminate|].
  unfold load_weights, modify in Hload. injection Hload as <-.
  cbn [model records delay draws passes log] in Hrun.
  apply bindM_Raise in Hrun as [Hacc|(a & s2 & Hacc & Hrun)].
  { pose proof (evaluate_state _ _ _ _ Hacc) as ->. cbn [records log].
    split; [auto|]. split; [auto|].
    unfold evaluate in Hacc. destruct (do_test config).
    - apply lift_Raise in Hacc as [Hacc _].
      apply accuracy_loop_Raise in Hacc as ->. discriminate.
    - discriminate. }
  apply evaluate_state in Hacc as ->.
  apply bindM_Raise in Hrun as [Hrs|(rs & s2 & Hrs & Hrun)]; [discriminate|].
  unfold gets in Hrs. injection Hrs as <- <-.
  apply bindM_Raise in Hrun as [Hset|([] & s2 & Hset & Hrun)]; discriminate.
Qed.

(** A completed sync round lasts as long as the slowest of its clients:
    it appends one record, at a time that is no earlier than
    [T_old + delay] of any selected client and is that of one of them, with
    the accuracy it returns; the new model is the aggregate of the reports
    of all the selected clients against the model before the round, and
    nothing is logged. *)
Theorem sync_round_slowest (round : nat) (T_old : R) (s s' : St) acc T_new :
  sync_round config sample_delay random_sample get_report test_model
             round T_old s = (Ok (acc, T_new), s') ->
  records s' = append_acc_record (records s) T_new acc /\
  log s' = log s /\
  (forall c, In c (random_sample round) ->
             exists x, delay s' c = Some x /\ T_old + x <= T_new) /\
  (exists c, In c (random_sample round) /\
             delay s' c = Some (T_new - T_old)) /\
  aggregation (sync_type config) (alpha config) (staleness_func config)
              (model s)
              (reporting get_report (passes s) (random_sample round)) None
  = Ok (model s').
Proof.
  intros Hrun.
  apply sync_round_Ok in Hrun as (gs & s1 & ds & m & Hstart & Hds & Hm & -> &
                                  Hagg & Hs').
  apply start_groups_frame in Hstart as (Hmodel & Hr & Hp & Hl & _).
  rewrite Hmodel, Hp in Hagg.
  rewrite Hs'. cbn [records log delay model]. rewrite Hr, Hl.
  split; [reflexivity|]. split; [reflexivity|].
  destruct (max_delay_bounds _ _ Hds Hm) as [Hall Hex].
  split; [|split; [|exact Hagg]].
  - intros c Hc. destruct (Hall c Hc) as (x & Hx & Hle).
    exists x. split; [auto|lra].
  - replace (T_old + m - T_old) with m by lra. exact Hex.
Qed.

(** A round without a selected client: the sync round stops with
    [ValueError] (the maximum of no delay), the async round runs no turn
    and answers with the latest record of the earlier rounds, or with
    [IndexError] when there is none, as in the first round of a run;
    neither changes the server. *)
Theorem round_without_clients (fuel round : nat) (T_old T_async : R) (s : St) :
  random_sample round = [] ->
  sync_round config sample_delay random_sample get_report test_model
             round T_old s = (Raise ValueError, s) /\
  async_round config sample_delay random_sample get_report test_model
              fuel round T_old T_async s
  = (acc <- get_latest_acc (records s) ;;
     t <- get_latest_t (records s) ;; Ok (acc, t), s) /\
  (records s = new_records ->
   async_round config sample_delay random_sample get_report test_model
               fuel round T_old T_async s = (Raise IndexError, s)).
Proof.
  intros Hnone.
  assert (Hasync :
    async_round config sample_delay random_sample get_report test_model
                fuel round T_old T_async s
    = (acc <- get_latest_acc (records s) ;;
       t <- get_latest_t (records s) ;; Ok (acc, t), s)).
  { unfold async_round, selection. rewrite Hnone.
    cbn [mapi_from start_groups].
    unfold bindM, ret, lift, gets. cbn [put_all].
    destruct fuel; cbn [async_loop]; unfold ret;
      destruct (get_latest_acc (records s)); cbn [bind]; try reflexivity;
      destruct (get_latest_t (records s)); reflexivity. }
  split; [|split; [exact Hasync|]].
  - unfold sync_round, selection. rewrite Hnone. reflexivity.
  - intros Hnew. rewrite Hasync, Hnew. reflexivity.
Qed.

End RoundOutcomes.

Lemma sync_round_slowest_witness :
  let s' := mkServer [("w"%string, 1)]
                     (append_acc_record new_records (0 + Rmax 2 5) 0.5)
                     (fun c => if Nat.eqb c 1 then Some 5
                               else if Nat.eqb c 0 then Some 2 else None)
                     2 1 [] in
  records s' = append_acc_record (records fresh_server) (0 + Rmax 2 5) 0.5
  /\ log s' = log fresh_server /\
  (forall c, In c (first_clients 2 1) ->
             exists x, delay s' c = Some x /\ 0 + x <= 0 + Rmax 2 5) /\
  (exists c, In c (first_clients 2 1) /\
             delay s' c = Some (0 + Rmax 2 5 - 0)) /\
  aggregation "sync" 1 "constant" (model fresh_server)
              (reporting unit_report (passes fresh_server) (first_clients 2 1))
              None
  = Ok (model s').
Proof.
  intros s'.
  apply (@sync_round_slowest R scalar_tensor (sync_config 1 None) by_client
           (first_clients 2) unit_report fixed_accuracy 1%nat 0 fresh_server
           s' 0.5 (0 + Rmax 2 5)).
  unfold s'. evaluate.
  replace (0 + (0 + (1 - 0) * (1 / 2) + (1 - 0) * (1 / 2))) with 1 by lra.
  reflexivity.
Defined.

Lemma round_without_clients_witness :
  sync_round (async_config 1) by_client nobody unit_report fixed_accuracy
             1 0 fresh_server = (Raise ValueError, fresh_server) /\
  async_round (async_config 1) by_client nobody unit_report fixed_accuracy
              5 1 0 1 fresh_server
  = (acc <- get_latest_acc (records fresh_server) ;;
     t <- get_latest_t (records fresh_server) ;; Ok (acc, t), fresh_server) /\
  (records fresh_server = new_records ->
   async_round (async_config 1) by_client nobody unit_report fixed_accuracy
               5 1 0 1 fresh_server = (Raise IndexError, fresh_server)).
Proof.
  apply (@round_without_clients R scalar_tensor (async_config 1)
           by_client nobody unit_report fixed_accuracy 5 1 0 1 fresh_server).
  reflexivity.
Defined.

(** ** The rounds of a run *)

Lemma last_item_cons {A} (x a : A) (l : list A) :
  last_item l = Ok a -> last_item (x :: l) = Ok a.
Proof.
  unfold last_item. cbn [rev].
  destruct (rev l) as [|y r]; [discriminate|].
  intros [= ->]. reflexivity.
Qed.

Section RunProofs.

Context {T : Type} `{TensorOps T}.

Variable config : Config.
Variable sample_delay : nat -> nat -> R.
Variable random_sample : nat -> list nat.
Variable get_report : nat -> nat -> Report T.
Variable test_model : Weights T -> R.

Local Abbreviation St := (Server T).

Lemma target_reached_true (a : R) :
  target_reached config a = true ->
  exists target,
    target_accuracy config = Some target /\ target <> 0 /\ target <= a.
Proof.
  unfold target_reached.
  destruct (target_accuracy config) as [target|]; [|discriminate].
  destruct (Req_dec_T target 0) as [|Hne]; [discriminate|].
  destruct (Rge_dec a target) as [Hge|]; [|discriminate].
  intros _. exists target. split; [reflexivity|]. split; [exact Hne|lra].
Qed.

Lemma target_reached_false (a target : R) :
  target_reached config a = false ->
  target_accuracy config = Some target -> target <> 0 -> a < target.
Proof.
  unfold target_reached. intros Hr Ht Hne. rewrite Ht in Hr.
  destruct (Req_dec_T target 0) as [|_]; [contradiction|].
  destruct (Rge_dec a target) as [|Hlt]; [discriminate|]. lra.
Qed.

Lemma run_rounds_sync (fuel : nat) (todo : list nat) :
  sync_type config = "sync"%string ->
  forall T_old (s s' : St),
    run_rounds config sample_delay random_sample get_report test_model
               fuel todo T_old s = (Ok tt, s') ->
    exists ts accs,
      rec_t (records s') = rec_t (records s) ++ ts /\
      rec_acc (records s') = rec_acc (records s) ++ accs /\
      length ts = length accs /\ (length accs <= length todo)%nat /\
      Forall (fun a => target_reached config a = false) (removelast accs) /\
      ((length accs < length todo)%nat ->
       exists a, last_item accs = Ok a /\ target_reached config a = true).
Proof.
  intros Hsync.
  induction todo as [|round todo IH]; intros T_old s s'; cbn [run_rounds].
  - unfold ret. intros [= <-]. exists [], []. rewrite !app_nil_r.
    cbn [length removelast]. repeat split; auto. lia.
  - rewrite Hsync. cbn [String.eqb Ascii.eqb Bool.eqb]. intros Hrun.
    apply bindM_Ok in Hrun as ([acc T_new] & s1 & Hround & Hrun).
    apply sync_round_Ok in Hround
      as (gs & s0 & ds & m & Hstart & _ & _ & _ & _ & Hs1).
    apply start_groups_frame in Hstart as (_ & Hr & _).
    assert (Hrec : records s1 = append_acc_record (records s) T_new acc).
    { rewrite Hs1. cbn [records]. rewrite Hr. reflexivity. }
    destruct (target_reached config acc) eqn:Ereach.
    + unfold ret in Hrun. injection Hrun as <-.
      exists [T_new], [acc]. rewrite Hrec.
      cbn [append_acc_record rec_t rec_acc length removelast].
      repeat split; auto; try lia.
      intros _. exists acc. split; [reflexivity|exact Ereach].
    + apply IH in Hrun as (ts & accs & Ht & Ha & Hlen & Hle & Hall & Hlast).
      exists (T_new :: ts), (acc :: accs). rewrite Ht, Ha, Hrec.
      cbn [append_acc_record rec_t rec_acc length].
      rewrite <- !app_assoc. cbn [app].
      split; [reflexivity|]. split; [reflexivity|].
      split; [lia|]. split; [lia|]. split.
      * destruct accs as [|a accs]; [constructor|].
        change (removelast (acc :: a :: accs))
          with (acc :: removelast (a :: accs)).
        constructor; auto.
      * intros Hlt. destruct Hlast as (a & Hlast & Hreach); [lia|].
        exists a. split; [apply last_item_cons; exact Hlast|exact Hreach].
Qed.

(** A sync run that completes leaves one record per round it ran, at most
    [rounds] of them; with a target accuracy (one that is not zero) every
    recorded accuracy but the last is below the target, and a run that
    ran fewer than [rounds] rounds reached the target in its last round;
    without a target, or with the target 0, it runs all its rounds. *)
Theorem sync_run_stops_at_target (fuel : nat) (s s' : St) :
  sync_type config = "sync"%string ->
  run config sample_delay random_sample get_report test_model fuel s
  = (Ok tt, s') ->
  let accs := rec_acc (records s') in
  let n := Z.to_nat (rounds config) in
  length (rec_t (records s')) = length accs /\ (length accs <= n)%nat /\
  Forall (fun a => forall target,
            target_accuracy config = Some target -> target <> 0 ->
            a < target) (removelast accs) /\
  ((length accs < n)%nat ->
   exists a target,
     last_item accs = Ok a /\ target_accuracy config = Some target /\
     target <> 0 /\ target <= a) /\
  (target_accuracy config = None \/ target_accuracy config = Some 0 ->
   length accs = n).
Proof.
  intros Hsync Hrun. unfold run in Hrun.
  apply bindM_Ok in Hrun as ([] & s1 & Hset & Hrun).
  unfold set_records, modify in Hset. injection Hset as <-.
  apply (run_rounds_sync _ _ Hsync) in Hrun
    as (ts & accs & Ht & Ha & Hlen & Hle & Hall & Hlast).
  cbn [records new_records rec_t rec_acc app] in Ht, Ha.
  rewrite length_seq in Hle, Hlast.
  cbv zeta. rewrite Ht, Ha.
  split; [exact Hlen|]. split; [exact Hle|]. split; [|split].
  - eapply Forall_impl; [|exact Hall].
    intros a Ha' target. apply target_reached_false. exact Ha'.
  - intros Hlt. destruct (Hlast Hlt) as (a & Hl & Hreach).
    apply target_reached_true in Hreach as (target & H1 & H2 & H3).
    exists a, target. auto.
  - intros Hno.
    destruct (Nat.eq_dec (length accs) (Z.to_nat (rounds config)))
      as [E|Hne]; [exact E|].
    destruct Hlast as (a & _ & Hreach); [lia|].
    apply target_reached_true in Hreach as (target & H1 & H2 & _).
    destruct Hno as [Hno|Hno]; congruence.
Qed.

End RunProofs.

Lemma sync_run_stops_at_target_witness :
  let s' := mkServer [("w"%string, 1)]
                     (mkRecords [0 + Rmax 2 5] [0.5])
                     (fun c => if Nat.eqb c 1 then Some 5
                               else if Nat.eqb c 0 then Some 2 else None)
                     2 1 [] in
  let config := sync_config 3 (Some (4 / 10)) in
  let accs := rec_acc (records s') in
  let n := Z.to_nat (rounds config) in
  length (rec_t (records s')) = length accs /\ (length accs <= n)%nat /\
  Forall (fun a => forall target,
            target_accuracy config = Some target -> target <> 0 ->
            a < target) (removelast accs) /\
  ((length accs < n)%nat ->
   exists a target,
     last_item accs = Ok a /\ target_accuracy config = Some target /\
     target <> 0 /\ target <= a) /\
  (target_accuracy config = None \/ target_accuracy config = Some 0 ->
   length accs = n).
Proof.
  intros s' config.
  apply (@sync_run_stops_at_target R scalar_tensor config by_client
           (first_clients 2) unit_report fixed_accuracy 0 fresh_server s').
  - reflexivity.
  - unfold s', config. evaluate.
    replace (0 + (0 + (1 - 0) * (1 / 2) + (1 - 0) * (1 / 2))) with 1 by lra.
    reflexivity.
Defined.

(** ** An async round ends when delays are bounded away from zero *)

Lemma up_mono (x y : R) : x <= y -> (up x <= up y)%Z.
Proof.
  intros Hxy.
  destruct (archimed x) as [_ Hx]. destruct (archimed y) as [Hy _].
  assert (Hlt : IZR (up x) < IZR (up y + 1)) by (rewrite plus_IZR; lra).
  apply lt_IZR in Hlt. lia.
Qed.

Lemma up_step (x y : R) : x + 1 <= y -> (up x < up y)%Z.
Proof.
  intros Hxy.
  destruct (archimed x) as [_ Hx]. destruct (archimed y) as [Hy _].
  apply lt_IZR. lra.
Qed.

Lemma up_pos (x : R) : 0 <= x -> (0 < up x)%Z.
Proof.
  intros Hx. destruct (archimed x) as [Hu _]. apply lt_IZR. lra.
Qed.

Lemma turns_left_step (bound delta t t' : R) :
  0 < delta -> t <= bound -> t + delta <= t' ->
  (turns_left bound delta t' < turns_left bound delta t)%nat.
Proof.
  intros Hd Ht Ht'. unfold turns_left.
  assert (Hx : 0 <= (bound - t) / delta).
  { apply Rmult_le_pos; [lra|]. left. apply Rinv_0_lt_compat. exact Hd. }
  assert (Hstep : (bound - t') / delta + 1 <= (bound - t) / delta).
  { replace ((bound - t') / delta + 1) with ((bound - t' + delta) / delta)
      by (field; lra).
    apply Rmult_le_compat_r; [|lra].
    left. apply Rinv_0_lt_compat. exact Hd. }
  pose proof (up_step Hstep). pose proof (up_pos Hx). lia.
Qed.

Lemma turns_left_bound (T_old T_async delta m : R) :
  0 < delta -> delta <= m ->
  (S (turns_left (T_old + T_async) delta (T_old + m))
   <= turns_bound T_async delta)%nat.
Proof.
  intros Hd Hm. unfold turns_left, turns_bound.
  assert (Hle : (T_old + T_async - (T_old + m)) / delta <= T_async / delta).
  { apply Rmult_le_compat_r; [|lra].
    left. apply Rinv_0_lt_compat. exact Hd. }
  pose proof (up_mono Hle). lia.
Qed.

Lemma queue_turns_app (bound delta : R) (q1 q2 : list (R * Group)) :
  queue_turns bound delta (q1 ++ q2)
  = (queue_turns bound delta q1 + queue_turns bound delta q2)%nat.
Proof.
  unfold queue_turns. induction q1 as [|e q1 IH]; cbn [app fold_right].
  - reflexivity.
  - rewrite IH. lia.
Qed.

Lemma queue_turns_perm (bound delta : R) (q q' : list (R * Group)) :
  Permutation q q' -> queue_turns bound delta q = queue_turns bound delta q'.
Proof.
  unfold queue_turns.
  induction 1; cbn [fold_right]; try lia.
Qed.

Section Termination.

Context {T : Type} `{TensorOps T}.

Variable config : Config.
Variable sample_delay : nat -> nat -> R.
Variable random_sample : nat -> list nat.
Variable get_report : nat -> nat -> Report T.
Variable test_model : Weights T -> R.

Local Abbreviation St := (Server T).
Local Abbreviation iteration :=
  (async_iteration config get_report test_model).
Local Abbreviation loop := (async_loop config get_report test_model).

Variable delta : R.
Hypothesis delta_pos : 0 < delta.

Lemma start_groups_from (T_old : R) (groups : list Group) :
  (forall c k, delta <= sample_delay c k) ->
  forall (s s' : St) gs cs,
    start_groups sample_delay T_old groups s = (Ok (gs, cs), s') ->
    delays_from delta s ->
    delays_from delta s' /\ length gs = length groups /\
    Forall (fun g => exists m, delta <= m /\
                               aggregate_time g = Some (T_old + m)) gs.
Proof.
  intros Hsample s s' gs cs Hrun Hs.
  exact (@start_groups_delays T sample_delay (fun d => delta <= d) T_old
           groups Hsample s s' gs cs Hrun Hs).
Qed.

(** A completed turn uses up one of the turns the queue has left. *)
Lemma turn_uses_turns (T_old T_async : R) b q (s : St) q' s' :
  queue_ok b q -> delays_from delta s ->
  iteration T_old T_async q s = (Ok q', s') ->
  (exists b', queue_ok b' q') /\ delays_from delta s' /\
  (queue_turns (T_old + T_async) delta q'
   < queue_turns (T_old + T_async) delta q)%nat.
Proof.
  intros Hq Hs Hit.
  apply iteration_Ok in Hit
    as (key & g & rest & d & t & updated & acc & Hpop & Hd & Ht & _ & -> &
        Hnext).
  pose proof (queue_get_spec (proj1 Hq)) as Hget. rewrite Hpop in Hget.
  destruct Hget as (_ & Hperm & _).
  destruct (queue_ok_popped Hq Hpop) as (_ & Hkey & Hrest).
  assert (key = t) by congruence. subst key.
  rewrite (queue_turns_perm _ _ Hperm).
  change (queue_turns (T_old + T_async) delta ((t, g) :: rest))
    with (S (turns_left (T_old + T_async) delta t)
          + queue_turns (T_old + T_async) delta rest)%nat.
  split; [|split; [exact Hs|]].
  - destruct Hnext as [(_ & g' & Hg' & Hput)|(_ & ->)]; [|eauto].
    apply set_aggregate_time_Ok in Hg' as (d' & ds & m & Hd' & Hds & Hm & ->).
    cbn in Hd'. injection Hd' as <-.
    destruct (max_delay_bounds _ _ Hds Hm) as [_ (c & _ & Hc)].
    pose proof (Hs c m Hc) as Hdm.
    match type of Hput with
    | queue_put _ ?g' = _ =>
        destruct (@queue_ok_put t rest q' g' (t + m) Hrest eq_refl)
          as [Hq' _]; [lra|exact Hput|]
    end.
    exists t. exact Hq'.
  - destruct Hnext as [(Hle & g' & Hg' & Hput)|(_ & ->)]; [|lia].
    apply set_aggregate_time_Ok in Hg' as (d' & ds & m & Hd' & Hds & Hm & ->).
    cbn in Hd'. injection Hd' as <-.
    destruct (max_delay_bounds _ _ Hds Hm) as [_ (c & _ & Hc)].
    pose proof (Hs c m Hc) as Hdm.
    match type of Hput with
    | queue_put _ ?g' = _ =>
        destruct (@queue_ok_put t rest q' g' (t + m) Hrest eq_refl)
          as [_ Hp]; [lra|exact Hput|]
    end.
    rewrite (queue_turns_perm _ _ Hp), queue_turns_app.
    cbn [queue_turns fold_right fst].
    assert (Hstep : (turns_left (T_old + T_async) delta (t + m)
                     < turns_left (T_old + T_async) delta t)%nat)
      by (apply turns_left_step; lra).
    lia.
Qed.

(** A turn on a heap raises a Python exception or leaves the real numbers;
    it does not use up the budget of the embedding. *)
Lemma turn_Raise (T_old T_async : R) b q (s s' : St) e :
  queue_ok b q ->
  iteration T_old T_async q s = (Raise e, s') -> e <> OutOfFuel.
Proof.
  intros Hq. unfold async_iteration. intros Hrun.
  apply bindM_Raise in Hrun as [Hpop|([[key g] rest] & s1 & Hpop & Hrun)].
  { apply lift_Raise in Hpop as [Hpop _].
    pose proof (queue_get_spec (proj1 Hq)) as Hget. rewrite Hpop in Hget.
    destruct Hget as [[_ ->]|[-> _]]; discriminate. }
  apply lift_Ok in Hpop as [Hpop ->]. cbn [snd] in Hrun.
  destruct (queue_ok_popped Hq Hpop) as (_ & Hkey & Hrest).
  apply bindM_Raise in Hrun as [Hd|(d & s1 & Hd & Hrun)].
  { apply lift_Raise in Hd as [Hd _]. unfold get_download_time in Hd.
    destruct (download_time g); [discriminate|]. injection Hd as <-.
    discriminate. }
  apply lift_Ok in Hd as [Hd ->].
  apply bindM_Raise in Hrun as [Hk|(k & s1 & Hk & Hrun)]; [discriminate|].
  unfold train in Hk. injection Hk as <- <-.
  apply bindM_Raise in Hrun as [Ht|(t & s1 & Ht & Hrun)].
  { apply lift_Raise in Ht as [Ht _]. unfold get_aggregate_time in Ht.
    rewrite Hkey in Ht. discriminate. }
  apply lift_Ok in Ht as [Ht ->].
  unfold get_aggregate_time in Ht. rewrite Hkey in Ht. injection Ht as <-.
  apply bindM_Raise in Hrun as [Hlog|([] & s1 & Hlog & Hrun)]; [discriminate|].
  unfold log_finished, modify in Hlog. injection Hlog as <-.
  apply bindM_Raise in Hrun as [Hagg|(updated & s1 & Hagg & Hrun)].
  { unfold aggregate in Hagg.
    apply bindM_Raise in Hagg as [Hm|(m & s2 & Hm & Hagg)]; [discriminate|].
    apply lift_Raise in Hagg as [Hagg _].
    eapply aggregation_Raise; eauto. }
  apply aggregate_state in Hagg as ->.
  apply bindM_Raise in Hrun as [Hload|([] & s1 & Hload & Hrun)];
    [discriminate|].
  unfold load_weights, modify in Hload. injection Hload as <-.
  apply bindM_Raise in Hrun as [Hacc|(acc & s1 & Hacc & Hrun)].
  { unfold evaluate in Hacc. destruct (do_test config).
    - apply lift_Raise in Hacc as [Hacc _].
      apply accuracy_loop_Raise in Hacc as ->. discriminate.
    - discriminate. }
  apply evaluate_state in Hacc as ->.
  apply bindM_Raise in Hrun as [Hrs|(rs & s1 & Hrs & Hrun)]; [discriminate|].
  unfold gets in Hrs. injection Hrs as <- <-.
  apply bindM_Raise in Hrun as [Hset|([] & s1 & Hset & Hrun)]; [discriminate|].
  unfold set_records, modify in Hset. injection Hset as <-.
  destruct (Rle_dec (key - T_old) T_async) as [Hle|Hgt]; [|discriminate].
  apply bindM_Raise in Hrun as [Hg'|(g' & s1 & Hg' & Hrun)].
  { injection Hg' as Hg' _.
    apply set_aggregate_time_Raise in Hg' as [->| ->]; discriminate. }
  injection Hg' as Hg' <-.
  apply lift_Raise in Hrun as [Hput _].
  apply set_aggregate_time_Ok in Hg' as (d' & ds & m & _ & _ & _ & ->).
  match type of Hput with
  | queue_put _ ?g' = _ =>
      pose proof (@queue_put_spec rest g' _ (proj1 Hrest) eq_refl) as Hspec
  end.
  rewrite Hput in Hspec. destruct Hspec as [-> _]. discriminate.
Qed.

Lemma loop_ends (T_old T_async : R) :
  forall fuel b q (s : St),
    queue_ok b q -> delays_from delta s ->
    (queue_turns (T_old + T_async) delta q <= fuel)%nat ->
    forall e s', loop fuel T_old T_async q s = (Raise e, s') ->
                 e <> OutOfFuel.
Proof.
  induction fuel as [|fuel IH]; intros b q s Hq Hs Hfuel e s';
    destruct q as [|x q]; cbn [async_loop].
  - discriminate.
  - cbn [queue_turns fold_right] in Hfuel. lia.
  - discriminate.
  - intros Hrun.
    apply bindM_Raise in Hrun as [Hit|(q' & s1 & Hit & Hrun)].
    + eapply turn_Raise; eauto.
    + destruct (turn_uses_turns _ _ Hq Hs Hit) as ((b' & Hq') & Hs1 & Hlt).
      eapply (IH b' q' s1); eauto. lia.
Qed.

(** With a budget of [turns_bound T_async delta] turns for each selected
    client the loop of an async round empties its queue or stops with an
    exception of the program. *)
Lemma async_round_ends (fuel round : nat) (T_old T_async : R) (s : St) :
  (forall c k, delta <= sample_delay c k) ->
  delays_from delta s ->
  (length (random_sample round) * turns_bound T_async delta <= fuel)%nat ->
  forall e s',
    async_round config sample_delay random_sample get_report test_model
                fuel round T_old T_async s = (Raise e, s') ->
    e <> OutOfFuel.
Proof.
  intros Hsample Hs Hfuel e s'. unfold async_round. intros Hrun.
  apply bindM_Raise in Hrun as [Hstart|([gs cs] & s1 & Hstart & Hrun)].
  { eapply start_groups_Raise; eauto. }
  destruct (@start_groups_from T_old (selection random_sample round) Hsample
              s s1 gs cs Hstart Hs) as (Hs1 & Hlen & Hgs).
  assert (Hempty : queue_ok T_old (@nil (R * Group))).
  { split; [|constructor]. intros i a b _ Hi. destruct i; discriminate. }
  apply bindM_Raise in Hrun as [Hput|(q0 & s2 & Hput & Hrun)].
  { apply lift_Raise in Hput as [Hput _].
    apply (put_all_Raise _ (proj1 Hempty)) in Hput as [->| ->]; discriminate. }
  apply lift_Ok in Hput as [Hput ->].
  destruct (@put_all_ok T_old gs [] q0) as [Hq0 Hperm]; auto.
  { eapply Forall_impl; [|exact Hgs].
    intros g (m & Hm & Hg). exists (T_old + m). split; [auto|lra]. }
  apply bindM_Raise in Hrun as [Hloop|([] & s2 & Hloop & Hrun)].
  - eapply (@loop_ends T_old T_async fuel T_old q0 s1); eauto.
    assert (Hturns : forall q : list (R * Group),
               Forall (fun e => exists m, delta <= m /\ fst e = T_old + m) q ->
               (queue_turns (T_old + T_async) delta q
                <= length q * turns_bound T_async delta)%nat).
    { induction 1 as [|x q (m & Hm & Hx) _ IHq];
        cbn [queue_turns fold_right length Nat.mul]; [lia|].
      fold (queue_turns (T_old + T_async) delta q).
      rewrite Hx.
      pose proof (@turns_left_bound T_old T_async delta m delta_pos Hm). lia. }
    assert (Hlen0 : length q0 = length (random_sample round)).
    { rewrite <- (length_map snd q0), (Permutation_length Hperm).
      cbn [map app]. rewrite Hlen. unfold selection.
      apply length_mapi_from. }
    rewrite <- Hlen0 in Hfuel.
    etransitivity; [apply Hturns|exact Hfuel].
    apply Forall_forall. intros x Hx.
    assert (Hin : In (snd x) gs).
    { eapply Permutation_in; [exact Hperm|]. cbn [map app].
      apply in_map. exact Hx. }
    destruct (proj1 (Forall_forall _ _) Hgs _ Hin) as (m & Hm & Hg).
    exists m. split; [exact Hm|].
    destruct Hq0 as [_ Hall].
    destruct (proj1 (Forall_forall _ _) Hall _ Hx) as [_ Hk]. congruence.
  - apply bindM_Raise in Hrun as [Hrs|(rs & s3 & Hrs & Hrun)]; [discriminate|].
    apply bindM_Raise in Hrun as [Hacc|(acc & s4 & Hacc & Hrun)].
    { apply lift_Raise in Hacc as [Hacc _]. unfold get_latest_acc in Hacc.
      unfold last_item in Hacc. destruct (rev _); [|discriminate].
      injection Hacc as <-. discriminate. }
    apply bindM_Raise in Hrun as [Ht|(t & s5 & Ht & Hrun)]; [|discriminate].
    apply lift_Raise in Ht as [Ht _]. unfold get_latest_t in Ht.
    unfold last_item in Ht. destruct (rev _); [|discriminate].
    injection Ht as <-. discriminate.
Qed.

(** The delays the clients hold after a round are those they held before
    it or were drawn in it. *)
Lemma async_round_delays (fuel round : nat) (T_old T_async : R) (s s' : St) r :
  (forall c k, delta <= sample_delay c k) ->
  delays_from delta s ->
  async_round config sample_delay random_sample get_report test_model
              fuel round T_old T_async s = (r, s') ->
  delays_from delta s'.
Proof.
  intros Hsample Hs. unfold async_round. unfold bindM at 1.
  destruct (start_groups sample_delay T_old (selection random_sample round) s)
    as [[[gs cs]|e] s1] eqn:Estart.
  2:{ intros [= _ <-]. intros c d Hc.
      apply start_groups_frame in Estart as (_ & _ & _ & _ & Hdel).
      destruct (Hdel c) as [E|[_ [k Hk]]].
      - apply (Hs c). congruence.
      - assert (d = sample_delay c k) by congruence. subst. auto. }
  assert (Hs1 : delays_from delta s1).
  { intros c d Hc.
    apply start_groups_frame in Estart as (_ & _ & _ & _ & Hdel).
    destruct (Hdel c) as [E|[_ [k Hk]]].
    - apply (Hs c). congruence.
    - assert (d = sample_delay c k) by congruence. subst. auto. }
  unfold bindM at 1, lift at 1.
  destruct (put_all [] gs) as [q0|e]; [|intros [= _ <-]; exact Hs1].
  pose proof (@loop_rule _ _ config get_report test_model T_old T_async
                (fun _ s2 => delay s2 = delay s1)
                (fun s2 => delay s2 = delay s1)) as Hloop.
  specialize (Hloop
    ltac:(intros q2 s2 q3 s3 Hi Hit;
          apply iteration_Ok in Hit
            as (? & ? & ? & ? & ? & ? & ? & _ & _ & _ & _ & -> & _);
          exact Hi)
    ltac:(intros q2 s2 e2 s3 Hi Hit;
          apply iteration_Raise in Hit
            as [(_ & _ & Hd)|(? & ? & ? & ? & _ & _ & Hd & _)];
          congruence)
    ltac:(auto) fuel q0 s1 eq_refl).
  unfold bindM at 1.
  destruct (async_loop config get_report test_model fuel T_old T_async q0 s1)
    as [[[]|e] s2].
  2:{ intros [= _ <-]. intros c d Hc. apply (Hs1 c). congruence. }
  unfold bindM, gets, lift, ret.
  destruct (get_latest_acc (records s2)); [|intros [= _ <-];
    intros c d Hc; apply (Hs1 c); congruence].
  destruct (get_latest_t (records s2)); intros [= _ <-];
    intros c d Hc; apply (Hs1 c); congruence.
Qed.

Lemma run_rounds_end (fuel : nat) (todo : list nat) :
  (forall c k, delta <= sample_delay c k) ->
  (forall round, In round todo ->
     (length (random_sample round) * turns_bound (interval config) delta
      <= fuel)%nat) ->
  forall T_old (s : St),
    delays_from delta s ->
    forall e s',
      run_rounds config sample_delay random_sample get_report test_model
                 fuel todo T_old s = (Raise e, s') ->
      e <> OutOfFuel.
Proof.
  intros Hsample.
  induction todo as [|round todo IH]; intros Hfuel T_old s Hs e s';
    cbn [run_rounds]; [discriminate|].
  intros Hrun.
  apply bindM_Raise in Hrun as [Hround|([acc T_new] & s1 & Hround & Hrun)].
  - destruct (sync_type config =? "sync")%string.
    { apply sync_round_Raise in Hround as (_ & _ & He). exact He. }
    destruct (sync_type config =? "async")%string.
    { eapply (@async_round_ends fuel round T_old (interval config) s
                Hsample Hs); [apply Hfuel; left; reflexivity|exact Hround]. }
    apply lift_Raise in Hround as [[= <-] _]. discriminate.
  - destruct (target_reached config acc); [discriminate|].
    assert (Hs1 : delays_from delta s1).
    { destruct (sync_type config =? "sync")%string.
      { apply sync_round_Ok in Hround
          as (gs & s0 & ds & m & Hstart & _ & _ & _ & _ & Hs1).
        rewrite Hs1. intros c d Hc. cbn [delay] in Hc.
        apply start_groups_frame in Hstart as (_ & _ & _ & _ & Hdel).
        destruct (Hdel c) as [E|[_ [k Hk]]].
        - apply (Hs c). congruence.
        - assert (d = sample_delay c k) by congruence. subst. auto. }
      destruct (sync_type config =? "async")%string.
      { eapply async_round_delays; eauto. }
      discriminate. }
    eapply (IH (fun r Hr => Hfuel r (or_intror Hr)) T_new s1); eauto.
Qed.

(** With times as exact real numbers, a run ends when delays are bounded
    away from zero: if no client is ever given a delay below some
    [delta > 0], then with a budget of [turns_bound interval delta] turns
    for each client selected in a round no loop of the run is still going
    when its budget ends: an async round takes at most that many turns per
    selected client, and the run completes or stops with an exception of
    the program.  The bound counts on a time growing by each delay added to
    it: in floating point a time as large as 1e16 absorbs a delay of 1.0,
    the group is re-enqueued at the same time, and the bound does not
    hold. *)
Theorem run_ends (fuel : nat) (s : St) :
  (forall c k, delta <= sample_delay c k) ->
  delays_from delta s ->
  (forall round,
     (length (random_sample round) * turns_bound (interval config) delta
      <= fuel)%nat) ->
  within_budget
    (fst (run config sample_delay random_sample get_report test_model
              fuel s)).
Proof.
  intros Hsample Hs Hfuel.
  destruct (run config sample_delay random_sample get_report test_model
                fuel s) as [[[]|e] s'] eqn:Hrun; cbn [fst within_budget];
    [exact I|].
  assert (He : e <> OutOfFuel); [|unfold python_exn; destruct e; auto;
    try (left; split; discriminate); contradiction].
  unfold run in Hrun.
  apply bindM_Raise in Hrun as [Hset|([] & s1 & Hset & Hrun)]; [discriminate|].
  unfold set_records, modify in Hset. injection Hset as <-.
  eapply (@run_rounds_end fuel (seq 1 (Z.to_nat (rounds config))) Hsample
            (fun r _ => Hfuel r)); [|exact Hrun].
  exact Hs.
Qed.

End Termination.

Lemma up_one : up (1 / 1) = 2%Z.
Proof.
  symmetry. apply tech_up; lra.
Qed.

Lemma run_ends_witness :
  within_budget
    (fst (run (async_config 1) (constant_delay 1) (first_clients 1)
              unit_report fixed_accuracy 3 fresh_server)).
Proof.
  apply (@run_ends R scalar_tensor (async_config 1) (constant_delay 1)
           (first_clients 1) unit_report fixed_accuracy 1).
  - lra.
  - intros c k. unfold constant_delay. lra.
  - intros c d Hc. discriminate.
  - intros round. unfold turns_bound, first_clients, async_config.
    cbn [interval length seq]. rewrite up_one. cbn. lia.
Defined.

(** ** The re-enqueue policy *)

Section ReenqueuePolicy.

Context {T : Type} `{TensorOps T}.

Variable config : Config.
Variable sample_delay : nat -> nat -> R.
Variable random_sample : nat -> list nat.
Variable get_report : nat -> nat -> Report T.
Variable test_model : Weights T -> R.

Local Abbreviation St := (Server T).
Local Abbreviation iteration :=
  (async_iteration config get_report test_model).

(** When the loop of a round is entered every selected client is in the
    queue. *)
Lemma round_start_served (round : nat) (T_old : R) (s0 : St) x :
  round_start sample_delay random_sample round T_old s0 x ->
  all_served (log s0) (random_sample round) (fst x) (snd x).
Proof.
  intros (gs & cs & Hstart & Hput).
  pose proof Hstart as Hcl. apply start_groups_clients in Hcl.
  rewrite selection_clients in Hcl.
  apply start_groups_frame in Hstart as (_ & _ & _ & Hl1 & _).
  destruct (@put_all_perm (fun _ => True) gs [] (fst x)) as (Ho & _ & Hperm);
    auto.
  { intros i a b _ Hi. destruct i; discriminate. }
  cbn [map app] in Hperm.
  split; [auto|]. exists []. split; [rewrite app_nil_r; auto|].
  intros c Hc. right.
  assert (Hc' : In [c] (map clients gs))
    by (rewrite Hcl; apply in_map_iff; eauto).
  apply in_map_iff in Hc' as (g & Hg & Hgs).
  apply (Permutation_in _ (Permutation_sym Hperm)) in Hgs.
  apply in_map_iff in Hgs as (e & <- & He). eauto.
Qed.

Lemma turns_served l0 sample (T_old T_async : R) x y :
  turns config get_report test_model T_old T_async x y ->
  all_served l0 sample (fst x) (snd x) ->
  all_served l0 sample (fst y) (snd y).
Proof.
  induction 1 as [x|q s q' s' y Hstep _ IH]; intros Hx; [exact Hx|].
  apply IH. cbn [fst snd] in *.
  eapply all_served_step; eauto.
Qed.

(** C3, amended.  After a completed turn of the async loop the popped
    group is back in the queue if and only if [T_cur - T_old <= T_async];
    it is then downloaded at the current time and due after the largest
    delay its clients already hold: no delay is sampled, the delays of the
    client objects and the number of [set_delay] calls are as before the
    turn.  No selected group leaves the queue without a turn: in every
    state the turns of a round lead to, every selected client has been
    through a turn or its group is in the queue, whatever its first
    [aggregate_time].  When no delay is below some [delta > 0] (times being
    exact real numbers) the round ends within [turns_bound T_async delta]
    turns for each selected client: it returns and every selected client
    has been through a turn, or an exception of the program has stopped
    it. *)
Theorem reenqueue_policy (T_old T_async : R) :
  (forall q (s : St) q' s',
     iteration T_old T_async q s = (Ok q', s') ->
     exists key g rest t,
       heappop entry_lt q = Ok ((key, g), rest) /\
       aggregate_time g = Some t /\
       log s' = log s ++ [(clients g, t)] /\
       delay s' = delay s /\ draws s' = draws s /\
       ((t - T_old <= T_async /\
         exists m, max_delay s g = Ok m /\
           queue_put rest (mkGroup (gid g) (clients g) (Some t) (Some (t + m)))
           = Ok q') \/
        (T_async < t - T_old /\ q' = rest))) /\
  (forall round (s0 : St) x y,
     round_start sample_delay random_sample round T_old s0 x ->
     turns config get_report test_model T_old T_async x y ->
     exists l, log (snd y) = log s0 ++ l /\
       forall c, In c (random_sample round) ->
         (exists t, In ([c], t) l) \/
         (exists e, In e (fst y) /\ clients (snd e) = [c])) /\
  (forall delta fuel round (s0 : St),
     0 < delta ->
     (forall c k, delta <= sample_delay c k) ->
     delays_from delta s0 ->
     (length (random_sample round) * turns_bound T_async delta <= fuel)%nat ->
     match async_round config sample_delay random_sample get_report
                       test_model fuel round T_old T_async s0 with
     | (Ok _, s1) =>
         exists l, log s1 = log s0 ++ l /\
           forall c, In c (random_sample round) -> exists t, In ([c], t) l
     | (Raise e, _) => python_exn e \/ e = OutsideModel
     end).
Proof.
  split; [|split].
  - intros q s q' s'. apply turn_reenqueues.
  - intros round s0 x y Hstart Hturns.
    pose proof (round_start_served Hstart) as Hx.
    destruct (turns_served Hturns Hx) as (_ & Hserved). exact Hserved.
  - intros delta fuel round s0 Hdelta Hsample Hs0 Hfuel.
    destruct (async_round config sample_delay random_sample get_report
                          test_model fuel round T_old T_async s0)
      as [[res|e] s1] eqn:Hround.
    + eapply selected_are_served; eauto.
    + assert (He : e <> OutOfFuel).
      { exact (@async_round_ends _ _ config sample_delay random_sample
                 get_report test_model delta Hdelta fuel round T_old T_async
                 s0 Hsample Hs0 Hfuel e s1 Hround). }
      unfold python_exn.
      destruct e; auto; try (left; split; discriminate); contradiction.
Qed.

End ReenqueuePolicy.

(** The round of the clients 0 and 1, drawn the delays 0 and 5: its
    start, its queue, and a turn. *)
Lemma idle_round_start :
  start_groups idle_first 0 (selection (first_clients 2) 1) fresh_server
  = (Ok ([idle_group 0 (0 + 0); waiting_group], [0%nat; 1%nat]),
     idle_server 0 new_records 0 []).
Proof.
  reflexivity.
Qed.

Lemma idle_round_queue :
  put_all [] [idle_group 0 (0 + 0); waiting_group]
  = Ok [(0 + 0, idle_group 0 (0 + 0)); (0 + 5, waiting_group)].
Proof.
  evaluate. reflexivity.
Qed.

Lemma idle_turn (t d x : R) (recs : Records) (passes : nat)
      (lg : list (list nat * R)) :
  t = 0 ->
  exists x',
    async_iteration (async_config 1) unit_report fixed_accuracy 0 1
                    [(t, idle_group d t); (0 + 5, waiting_group)]
                    (idle_server x recs passes lg)
    = (Ok [(t + 0, idle_group t (t + 0)); (0 + 5, waiting_group)],
       idle_server x' (append_acc_record recs t 0.5) (S passes)
                   (lg ++ [([0%nat], t)])).
Proof.
  intros Ht. eexists. unfold async_iteration. evaluate. reflexivity.
Qed.

(** Client 0 has all the turns: the loop goes on, and the log names no
    other client. *)
Lemma idle_loop (fuel : nat) :
  forall (t d x : R) (recs : Records) (passes : nat)
         (lg : list (list nat * R)),
    t = 0 -> Forall (fun e => fst e = [0%nat]) lg ->
    exists s',
      async_loop (async_config 1) unit_report fixed_accuracy fuel 0 1
                 [(t, idle_group d t); (0 + 5, waiting_group)]
                 (idle_server x recs passes lg)
      = (Raise OutOfFuel, s') /\
      Forall (fun e => fst e = [0%nat]) (log s').
Proof.
  induction fuel as [|fuel IH]; intros t d x recs passes lg Ht Hlg;
    cbn [async_loop].
  - eexists. split; [reflexivity|exact Hlg].
  - destruct (idle_turn d x recs passes lg Ht) as (x' & Hturn).
    unfold bindM. rewrite Hturn.
    apply IH; [lra|].
    apply Forall_app. split; [exact Hlg|]. repeat constructor.
Qed.

(** C3, counterexample.  (1) One client, first delay 2, window 10: after
    its first turn the group is re-enqueued due at 2 + 2; the client still
    holds the delay 2 and no [set_delay] was called, although a fresh draw
    would have given 7.  (2) Two selected clients with the delays 0 and 5,
    window 1: the group of client 0 is re-enqueued at time 0 at each of its
    turns, the round never returns and client 1 never has a turn, whatever
    the number of turns.  (3) Two selected clients with the delay 2: the
    round stops with a [TypeError] and no client has had a turn. *)
Lemma reenqueue_keeps_old_delay :
  (round_start two_draws (first_clients 1) 1 0 fresh_server
               ([(0 + 2, started_group 2)], started_server 2) /\
   async_iteration (async_config 10) unit_report fixed_accuracy 0 10
                   [(0 + 2, started_group 2)] (started_server 2)
   = (Ok [(0 + 2 + 2, requeued_group 2)], first_turn_server 2) /\
   delay (first_turn_server 2) 0%nat = Some 2 /\
   draws (first_turn_server 2) = draws (started_server 2) /\
   two_draws 0 (draws (started_server 2)) = 7) /\
  (In 1%nat (first_clients 2 1) /\
   forall fuel,
     let out := async_round (async_config 1) idle_first (first_clients 2)
                            unit_report fixed_accuracy fuel 1 0 1
                            fresh_server in
     fst out = Raise OutOfFuel /\
     forall t, ~ In ([1%nat], t) (log (snd out))) /\
  (forall fuel,
     let out := async_round (async_config 10) (constant_delay 2)
                            (first_clients 2) unit_report fixed_accuracy
                            fuel 1 0 10 fresh_server in
     fst out = Raise TypeError /\ log (snd out) = []).
Proof.
  split; [|split].
  - split; [apply (one_client_round_start two_draws)|].
    split; [apply first_turn_in_window|].
    repeat split; reflexivity.
  - split; [right; left; reflexivity|].
    intros fuel. cbv zeta.
    destruct (@idle_loop fuel (0 + 0) 0 0 new_records 0%nat []) as (s' & Hloop & Hlog);
      [lra|constructor|].
    assert (Hout : async_round (async_config 1) idle_first (first_clients 2)
                               unit_report fixed_accuracy fuel 1 0 1
                               fresh_server = (Raise OutOfFuel, s')).
    { unfold async_round. unfold bindM at 1. rewrite idle_round_start.
      unfold bindM at 1, lift at 1. rewrite idle_round_queue.
      unfold bindM at 1. rewrite Hloop. reflexivity. }
    rewrite Hout. cbn [fst snd]. split; [reflexivity|].
    intros t Hin.
    pose proof (proj1 (Forall_forall _ _) Hlog _ Hin) as E.
    discriminate.
  - intros fuel. cbv zeta. unfold async_round. evaluate.
    split; reflexivity.
Qed.

Lemma up_fifth : up (1 / 5) = 1%Z.
Proof.
  symmetry. apply tech_up; lra.
Qed.

(** C3, witness: the turn of the counterexample, inside the window; the
    queue it leaves, which holds the group of the client; and the round of
    one client whose first [aggregate_time], 5, is beyond the window 1,
    which returns after that one turn. *)
Lemma reenqueue_policy_witness :
  (exists key g rest t,
     heappop entry_lt [(0 + 2, started_group 2)] = Ok ((key, g), rest) /\
     aggregate_time g = Some t /\
     log (first_turn_server 2) = log (started_server 2) ++ [(clients g, t)] /\
     delay (first_turn_server 2) = delay (started_server 2) /\
     draws (first_turn_server 2) = draws (started_server 2) /\
     ((t - 0 <= 10 /\
       exists m, max_delay (started_server 2) g = Ok m /\
         queue_put rest (mkGroup (gid g) (clients g) (Some t) (Some (t + m)))
         = Ok [(0 + 2 + 2, requeued_group 2)]) \/
      (10 < t - 0 /\ [(0 + 2 + 2, requeued_group 2)] = rest))) /\
  (exists l,
     log (first_turn_server 2) = log fresh_server ++ l /\
     forall c, In c (first_clients 1 1) ->
       (exists t, In ([c], t) l) \/
       (exists e, In e [(0 + 2 + 2, requeued_group 2)] /\
                  clients (snd e) = [c])) /\
  match async_round (async_config 1) (constant_delay 5) (first_clients 1)
                    unit_report fixed_accuracy 2 1 0 1 fresh_server with
  | (Ok _, s1) =>
      exists l, log s1 = log fresh_server ++ l /\
        forall c, In c (first_clients 1 1) -> exists t, In ([c], t) l
  | (Raise e, _) => python_exn e \/ e = OutsideModel
  end.
Proof.
  split; [|split].
  - apply (proj1 (@reenqueue_policy R scalar_tensor (async_config 10)
                    two_draws (first_clients 1) unit_report fixed_accuracy
                    0 10)
                 [(0 + 2, started_group 2)] (started_server 2)
                 [(0 + 2 + 2, requeued_group 2)] (first_turn_server 2)
                 first_turn_in_window).
  - apply (proj1 (proj2 (@reenqueue_policy R scalar_tensor (async_config 10)
                           two_draws (first_clients 1) unit_report
                           fixed_accuracy 0 10))
                 1%nat fresh_server
                 ([(0 + 2, started_group 2)], started_server 2)
                 ([(0 + 2 + 2, requeued_group 2)], first_turn_server 2)).
    + apply (one_client_round_start two_draws).
    + eapply turns_step; [exact first_turn_in_window|apply turns_refl].
  - apply (proj2 (proj2 (@reenqueue_policy R scalar_tensor (async_config 1)
                           (constant_delay 5) (first_clients 1) unit_report
                           fixed_accuracy 0 1))
                 5 2%nat 1%nat fresh_server).
    + lra.
    + intros c k. unfold constant_delay. lra.
    + intros c d Hc. discriminate.
    + unfold turns_bound, first_clients. cbn [length seq].
      rewrite up_fifth. cbn. lia.
Defined.

(** ** An async round without positive delays does not end *)

Section ZeroDelay.

Context {T : Type} `{TensorOps T}.

Variable config : Config.
Variable sample_delay : nat -> nat -> R.
Variable random_sample : nat -> list nat.
Variable get_report : nat -> nat -> Report T.
Variable test_model : Weights T -> R.

Local Abbreviation St := (Server T).
Local Abbreviation iteration :=
  (async_iteration config get_report test_model).
Local Abbreviation loop := (async_loop config get_report test_model).

Lemma window_stays_open (T_old T_async : R) q (s : St) q' s' :
  window_open T_old T_async q ->
  (forall c d, delay s c = Some d -> d <= 0) ->
  iteration T_old T_async q s = (Ok q', s') ->
  window_open T_old T_async q' /\
  (forall c d, delay s' c = Some d -> d <= 0).
Proof.
  intros (_ & Ho & Hall) Hs Hit.
  apply iteration_Ok in Hit
    as (key & g & rest & d & t & updated & acc & Hpop & Hd & Ht & _ & -> &
        Hnext).
  split; [|exact Hs].
  pose proof (queue_get_spec Ho) as Hget. rewrite Hpop in Hget.
  destruct Hget as (Horest & Hperm & _).
  rewrite Forall_forall in Hall.
  assert (Hin : In (key, g) q)
    by (eapply Permutation_in; [symmetry; exact Hperm|left; auto]).
  destruct (Hall _ Hin) as [Hkey Hwin]. cbn [fst snd] in Hkey, Hwin.
  assert (key = t) by congruence. subst key.
  destruct Hnext as [(_ & g' & Hg' & Hput)|(Hclosed & _)]; [|contradiction].
  apply set_aggregate_time_Ok in Hg' as (d' & ds & m & Hd' & Hds & Hm & ->).
  cbn in Hd'. injection Hd' as <-.
  destruct (max_delay_bounds _ _ Hds Hm) as [_ (c & _ & Hc)].
  pose proof (Hs c m Hc) as Hm0.
  match type of Hput with
  | queue_put _ ?g' = _ =>
      pose proof (@queue_put_spec rest g' (t + m) Horest eq_refl) as Hspec
  end.
  rewrite Hput in Hspec. destruct Hspec as [Ho' Hp'].
  split; [|split; [exact Ho'|]].
  - intros ->. apply Permutation_nil in Hp'.
    destruct rest; discriminate.
  - apply Forall_forall. intros e He.
    apply (Permutation_in _ Hp') in He. apply in_app_or in He as [He|He].
    + apply Hall. eapply Permutation_in; [symmetry; exact Hperm|].
      right. exact He.
    + destruct He as [<-|[]]. cbn [fst snd aggregate_time].
      split; [reflexivity|lra].
Qed.

Lemma open_loop_goes_on (T_old T_async : R) :
  forall fuel q (s : St),
    window_open T_old T_async q ->
    (forall c d, delay s c = Some d -> d <= 0) ->
    exists e, fst (loop fuel T_old T_async q s) = Raise e.
Proof.
  induction fuel as [|fuel IH]; intros q s Hq Hs;
    destruct q as [|x q]; cbn [async_loop];
    try (destruct Hq as [Hne _]; congruence).
  - exists OutOfFuel. reflexivity.
  - unfold bindM.
    destruct (iteration T_old T_async (x :: q) s) as [[q'|e] s1] eqn:Hit.
    + destruct (@window_stays_open T_old T_async (x :: q) s q' s1 Hq Hs Hit)
        as [Hq' Hs1].
      apply IH; auto.
    + exists e. reflexivity.
Qed.

(** When no client is given a positive delay (the delay 0 is allowed) and
    the window is not negative, an async round with a selected client
    does not end normally: every group goes back into the queue at each of
    its turns, so that, whatever the number of turns, the round is still
    going or has stopped with an exception. *)
Theorem async_round_goes_on (fuel round : nat) (T_old T_async : R) (s : St) :
  random_sample round <> [] ->
  (forall c k, sample_delay c k <= 0) ->
  (forall c d, delay s c = Some d -> d <= 0) ->
  0 <= T_async ->
  exists e,
    fst (async_round config sample_delay random_sample get_report test_model
                     fuel round T_old T_async s) = Raise e.
Proof.
  intros Hsome Hsample Hs Hwin. unfold async_round. unfold bindM at 1.
  destruct (start_groups sample_delay T_old (selection random_sample round) s)
    as [[[gs cs]|e] s1] eqn:Hstart; [|cbn [fst]; eauto].
  destruct (@start_groups_delays T sample_delay (fun d => d <= 0) T_old
              (selection random_sample round) Hsample s s1 gs cs Hstart Hs)
    as (Hs1 & Hlen & Hgs).
  unfold bindM at 1, lift at 1.
  destruct (put_all [] gs) as [q0|e] eqn:Hput; [|cbn [fst]; eauto].
  destruct (@put_all_perm
              (fun e => aggregate_time (snd e) = Some (fst e) /\
                        fst e - T_old <= T_async) gs [] q0)
    as (Ho & Hall & Hperm); auto.
  { intros i a b _ Hi. destruct i; discriminate. }
  { intros g t Hg Ht. cbn [fst snd]. split; [exact Ht|].
    destruct (proj1 (Forall_forall _ _) Hgs g Hg) as (m & Hm & Hgt).
    assert (t = T_old + m) by congruence. lra. }
  assert (Hopen : window_open T_old T_async q0).
  { split; [|split; [exact Ho|exact Hall]].
    intros ->. cbn [map app] in Hperm. apply Permutation_nil in Hperm.
    subst gs. unfold selection in Hlen. rewrite length_mapi_from in Hlen.
    destruct (random_sample round); [congruence|discriminate]. }
  destruct (@open_loop_goes_on T_old T_async fuel q0 s1 Hopen Hs1)
    as (e & Hloop).
  unfold bindM at 1.
  destruct (loop fuel T_old T_async q0 s1) as [[[]|e'] s2];
    [discriminate|cbn [fst]; eauto].
Qed.

End ZeroDelay.

Lemma async_round_goes_on_witness :
  exists e,
    fst (async_round (async_config 1) (constant_delay 0) (first_clients 1)
                     unit_report fixed_accuracy 5 1 0 1 fresh_server)
    = Raise e.
Proof.
  apply (@async_round_goes_on R scalar_tensor (async_config 1)
           (constant_delay 0) (first_clients 1) unit_report fixed_accuracy
           5 1 0 1 fresh_server).
  - discriminate.
  - intros c k. unfold constant_delay. lra.
  - intros c d Hc. discriminate.
  - lra.
Defined.

(** ** Clients with equal delays *)

Section Ties.

Context {T : Type} `{TensorOps T}.

Variable config : Config.
Variable sample_delay : nat -> nat -> R.
Variable random_sample : nat -> list nat.
Variable get_report : nat -> nat -> Report T.
Variable test_model : Weights T -> R.

Local Abbreviation St := (Server T).

(** The loop that opens a round does not fail on the groups of a
    selection: each client is drawn its delay just before its group is
    given its times. *)
Lemma start_groups_selection (T_old : R) (cs : list nat) :
  forall i (s : St),
    exists s',
      start_groups sample_delay T_old
                   (mapi_from i (fun i client => new_group i [client]) cs) s
      = (Ok (started_groups sample_delay T_old i (draws s) cs, cs), s') /\
      records s' = records s /\ log s' = log s.
Proof.
  induction cs as [|c cs IH]; intros i s;
    cbn [mapi_from start_groups started_groups].
  - exists s. repeat split; reflexivity.
  - cbn [new_group clients set_delays]. unfold bindM at 1.
    unfold bindM at 1, set_delay, modify, ret.
    set (s1 := mkServer (model s) (records s)
                 (fun c' => if Nat.eqb c' c then Some (sample_delay c (draws s))
                            else delay s c')
                 (S (draws s)) (passes s) (log s)).
    unfold bindM at 1.
    assert (Hg : set_aggregate_time (delay s1)
                   (set_download_time (new_group i [c]) T_old)
                 = Ok (mkGroup i [c] (Some T_old)
                               (Some (T_old + sample_delay c (draws s))))).
    { unfold set_aggregate_time, set_download_time, delays_of, new_group.
      cbn [download_time clients gid aggregate_time mapM delay s1].
      rewrite Nat.eqb_refl. reflexivity. }
    rewrite Hg.
    destruct (IH (S i) s1) as (s' & Hrest & Hr & Hl).
    cbn [draws s1] in Hrest. unfold bindM. rewrite Hrest.
    exists s'. cbn [clients app]. split; [reflexivity|].
    split; [rewrite Hr|rewrite Hl]; reflexivity.
Qed.

(** Two clients that are drawn the same delay stop the async round: when
    the first two selected clients get equal delays, their groups are due
    at the same time, the second [queue.put] compares the two groups and
    the round raises [TypeError] before any turn; nothing is recorded or
    logged. *)
Theorem equal_delays_raise (fuel round : nat) (T_old T_async : R) (s : St)
        (c1 c2 : nat) (rest : list nat) :
  random_sample round = c1 :: c2 :: rest ->
  sample_delay c1 (draws s) = sample_delay c2 (S (draws s)) ->
  let out := async_round config sample_delay random_sample get_report
                         test_model fuel round T_old T_async s in
  fst out = Raise TypeError /\
  records (snd out) = records s /\ log (snd out) = log s.
Proof.
  intros Hsample Heq. cbv zeta.
  destruct (start_groups_selection T_old (c1 :: c2 :: rest) 0 s)
    as (s' & Hstart & Hr & Hl).
  assert (Hput : forall gs,
             put_all []
               (mkGroup 0 [c1] (Some T_old)
                        (Some (T_old + sample_delay c1 (draws s)))
                :: mkGroup 1 [c2] (Some T_old)
                           (Some (T_old + sample_delay c1 (draws s)))
                :: gs)
             = Raise TypeError).
  { intros gs. cbn [put_all]. unfold queue_put, get_aggregate_time.
    cbn [aggregate_time bind]. unfold heappush, _siftdown.
    cbn [app length Nat.sub getitem nth_error bind siftdown_loop Nat.ltb
         Nat.leb upd].
    unfold heappush, _siftdown.
    cbn [app length Nat.sub getitem nth_error bind siftdown_loop Nat.ltb
         Nat.leb upd Nat.div Nat.divmod fst].
    unfold entry_lt. cbn [fst snd gid Nat.eqb].
    destruct (Req_dec_T (T_old + sample_delay c1 (draws s))
                        (T_old + sample_delay c1 (draws s)));
      [reflexivity|contradiction]. }
  assert (Hout : async_round config sample_delay random_sample get_report
                             test_model fuel round T_old T_async s
                 = (Raise TypeError, s')).
  { unfold async_round, selection. rewrite Hsample.
    unfold bindM at 1. rewrite Hstart.
    cbn [started_groups]. rewrite <- Heq.
    unfold bindM, lift. rewrite Hput. reflexivity. }
  rewrite Hout. cbn [fst snd]. auto.
Qed.

End Ties.

Lemma equal_delays_raise_witness :
  let out := async_round (async_config 10) (constant_delay 2) (first_clients 3)
                         unit_report fixed_accuracy 7 1 0 10 fresh_server in
  fst out = Raise TypeError /\
  records (snd out) = records fresh_server /\ log (snd out) = log fresh_server.
Proof.
  apply (@equal_delays_raise R scalar_tensor (async_config 10)
           (constant_delay 2) (first_clients 3) unit_report fixed_accuracy
           7 1 0 10 fresh_server 0%nat 1%nat [2%nat]).
  - reflexivity.
  - reflexivity.
Defined.

(** ** How long an async round lasts *)

Section RoundTime.

Context {T : Type} `{TensorOps T}.

Variable config : Config.
Variable sample_delay : nat -> nat -> R.
Variable random_sample : nat -> list nat.
Variable get_report : nat -> nat -> Report T.
Variable test_model : Weights T -> R.

Local Abbreviation St := (Server T).
Local Abbreviation iteration :=
  (async_iteration config get_report test_model).
Local Abbreviation loop := (async_loop config get_report test_model).

Variable D : R.

Lemma round_bounded_step (T_old T_async : R) q (s : St) q' s' :
  (forall c d, delay s c = Some d -> d <= D) ->
  round_bounded (T_old + T_async) (T_old + T_async + D) q s ->
  iteration T_old T_async q s = (Ok q', s') ->
  (forall c d, delay s' c = Some d -> d <= D) /\
  round_bounded (T_old + T_async) (T_old + T_async + D) q' s'.
Proof.
  intros Hs (Ho & Hall & _) Hit.
  apply iteration_Ok in Hit
    as (key & g & rest & d & t & updated & acc & Hpop & Hd & Ht & _ & -> &
        Hnext).
  split; [exact Hs|].
  pose proof (queue_get_spec Ho) as Hget. rewrite Hpop in Hget.
  destruct Hget as (Horest & Hperm & _).
  rewrite Forall_forall in Hall.
  assert (Hin : In (key, g) q)
    by (eapply Permutation_in; [symmetry; exact Hperm|left; auto]).
  destruct (Hall _ Hin) as [Hkey Hbound]. cbn [fst snd] in Hkey, Hbound.
  assert (key = t) by congruence. subst key.
  assert (Hrest : Forall (fun e => aggregate_time (snd e) = Some (fst e) /\
                                   fst e <= T_old + T_async + D) rest).
  { apply Forall_forall. intros e He. apply Hall.
    eapply Permutation_in; [symmetry; exact Hperm|]. right. exact He. }
  assert (Hlast : last_item (rec_t (records (after_turn s updated (clients g)
                                                         t acc))) = Ok t).
  { cbn [after_turn records append_acc_record rec_t]. apply last_item_app. }
  destruct Hnext as [(Hle & g' & Hg' & Hput)|(Hclosed & ->)].
  - apply set_aggregate_time_Ok in Hg' as (d' & ds & m & Hd' & Hds & Hm & ->).
    cbn in Hd'. injection Hd' as <-.
    destruct (max_delay_bounds _ _ Hds Hm) as [_ (c & _ & Hc)].
    pose proof (Hs c m Hc) as Hm0.
    match type of Hput with
    | queue_put _ ?g' = _ =>
        pose proof (@queue_put_spec rest g' (t + m) Horest eq_refl) as Hspec
    end.
    rewrite Hput in Hspec. destruct Hspec as [Ho' Hp'].
    split; [exact Ho'|]. split.
    + apply Forall_forall. intros e He.
      apply (Permutation_in _ Hp') in He. apply in_app_or in He as [He|He].
      * exact (proj1 (Forall_forall _ _) Hrest e He).
      * destruct He as [<-|[]]. cbn [fst snd aggregate_time].
        split; [reflexivity|lra].
    + left. intros ->. apply Permutation_nil in Hp'.
      destruct rest; discriminate.
  - split; [exact Horest|]. split; [exact Hrest|].
    right. exists t. split; [exact Hlast|]. split; [exact Hbound|].
    intros _. lra.
Qed.

(** An async round that completes overshoots its window, by no more than
    the largest delay: when no client is given a delay above [D] and the
    window is not negative, the time the round returns (the time of its
    last turn) lies after [T_old + T_async] and no later than
    [T_old + T_async + D]. *)
Theorem async_round_overshoot (fuel round : nat) (T_old T_async : R) (s : St)
        acc T_new :
  random_sample round <> [] ->
  (forall c k, sample_delay c k <= D) ->
  (forall c d, delay s c = Some d -> d <= D) ->
  0 <= T_async ->
  fst (async_round config sample_delay random_sample get_report test_model
                   fuel round T_old T_async s) = Ok (acc, T_new) ->
  T_old + T_async < T_new <= T_old + T_async + D.
Proof.
  intros Hsome Hsample Hs Hwin. unfold async_round. unfold bindM at 1.
  destruct (start_groups sample_delay T_old (selection random_sample round) s)
    as [[[gs cs]|e] s1] eqn:Hstart; [|discriminate].
  destruct (@start_groups_delays T sample_delay (fun d => d <= D) T_old
              (selection random_sample round) Hsample s s1 gs cs Hstart Hs)
    as (Hs1 & Hlen & Hgs).
  unfold bindM at 1, lift at 1.
  destruct (put_all [] gs) as [q0|e] eqn:Hput; [|discriminate].
  destruct (@put_all_perm
              (fun e => aggregate_time (snd e) = Some (fst e) /\
                        fst e <= T_old + T_async + D) gs [] q0)
    as (Ho & Hall & Hperm); auto.
  { intros i a b _ Hi. destruct i; discriminate. }
  { intros g t Hg Ht. cbn [fst snd]. split; [exact Ht|].
    destruct (proj1 (Forall_forall _ _) Hgs g Hg) as (m & Hm & Hgt).
    assert (t = T_old + m) by congruence. lra. }
  assert (Hstart0 : (forall c d, delay s1 c = Some d -> d <= D) /\
                    round_bounded (T_old + T_async) (T_old + T_async + D)
                                  q0 s1).
  { split; [exact Hs1|]. split; [exact Ho|]. split; [exact Hall|].
    left. intros ->. cbn [map app] in Hperm. apply Permutation_nil in Hperm.
    subst gs. unfold selection in Hlen. rewrite length_mapi_from in Hlen.
    destruct (random_sample round); [congruence|discriminate]. }
  pose proof (@loop_rule _ _ config get_report test_model T_old T_async
                (fun q2 s2 =>
                   (forall c d, delay s2 c = Some d -> d <= D) /\
                   round_bounded (T_old + T_async) (T_old + T_async + D)
                                 q2 s2)
                (fun _ => True)) as Hloop.
  cbv beta in Hloop.
  specialize (Hloop
    (fun q2 s2 q3 s3 Hi Hit =>
       @round_bounded_step T_old T_async q2 s2 q3 s3 (proj1 Hi) (proj2 Hi) Hit)
    (fun _ _ _ _ _ _ => I) (fun _ _ _ => I) fuel q0 s1 Hstart0).
  unfold bindM at 1.
  destruct (loop fuel T_old T_async q0 s1) as [[[]|e] s2]; [|discriminate].
  destruct Hloop as (_ & _ & _ & [Hne|(t & Hlast & Hle & Hgt)]);
    [congruence|].
  unfold bindM, gets, lift, ret, get_latest_acc, get_latest_t.
  destruct (last_item (rec_acc (records s2))) as [a|e]; [|discriminate].
  rewrite Hlast. cbn [fst]. intros [= _ <-].
  split; [apply Hgt; reflexivity|exact Hle].
Qed.

(** The two sequences of the Record grow together: after every run,
    whatever its mode and its outcome, [t] and [acc] have one length. *)
Theorem records_stay_parallel (fuel : nat) (s : St) :
  parallel (records (snd (run config sample_delay random_sample get_report
                              test_model fuel s))).
Proof.
  unfold run, bindM at 1, set_records, modify.
  set (s0 := mkServer (model s) new_records (delay s) (draws s) (passes s)
                      (log s)).
  assert (H0 : parallel (records s0)) by reflexivity.
  clearbody s0. generalize 0 at 1. revert s0 H0.
  induction (seq 1 (Z.to_nat (rounds config))) as [|round todo IH];
    intros s0 H0 T_old; cbn [run_rounds]; [exact H0|].
  assert (Happ : forall r t a, parallel r ->
                               parallel (append_acc_record r t a)).
  { intros r t a Hr. unfold parallel in *.
    cbn [append_acc_record rec_t rec_acc]. rewrite !length_app, Hr.
    reflexivity. }
  unfold bindM.
  destruct (sync_type config =? "sync")%string.
  { destruct (sync_round config sample_delay random_sample get_report
                         test_model round T_old s0)
      as [[[acc T_new]|e] s1] eqn:Hround.
    - apply sync_round_Ok in Hround
        as (gs & s2 & ds & m & Hstart & _ & _ & _ & _ & Hs1).
      apply start_groups_frame in Hstart as (_ & Hr & _).
      assert (H1 : parallel (records s1)).
      { rewrite Hs1. cbn [records]. rewrite Hr. apply Happ. exact H0. }
      destruct (target_reached config acc); [exact H1|apply IH; exact H1].
    - apply sync_round_Raise in Hround as (Hr & _). cbn [snd].
      rewrite Hr. exact H0. }
  destruct (sync_type config =? "async")%string; [|exact H0].
  assert (Hround : parallel
            (records (snd (async_round config sample_delay random_sample
                             get_report test_model fuel round T_old
                             (interval config) s0)))).
  { unfold async_round. unfold bindM at 1.
    destruct (start_groups sample_delay T_old
                (selection random_sample round) s0)
      as [[[gs cs]|e] s1] eqn:Hstart;
      apply start_groups_frame in Hstart as (_ & Hr & _);
      [|cbn [snd]; rewrite Hr; exact H0].
    assert (H1 : parallel (records s1)) by (rewrite Hr; exact H0).
    unfold bindM at 1, lift at 1.
    destruct (put_all [] gs) as [q0|e]; [|exact H1].
    pose proof (@loop_rule _ _ config get_report test_model T_old
                  (interval config)
                  (fun _ s2 => parallel (records s2))
                  (fun s2 => parallel (records s2))) as Hloop.
    specialize (Hloop
      ltac:(intros q2 s2 q3 s3 Hi Hit;
            apply iteration_Ok in Hit
              as (? & ? & ? & ? & ? & ? & ? & _ & _ & _ & _ & -> & _);
            cbn [after_turn records]; apply Happ; exact Hi)
      ltac:(intros q2 s2 e2 s3 Hi Hit;
            apply iteration_Raise in Hit
              as [(Hr2 & _)|(? & ? & ? & ? & _ & _ & _ & _ &
                             [Hr2|(? & Hr2)])];
            rewrite Hr2; [exact Hi|exact Hi|apply Happ; exact Hi])
      ltac:(auto) fuel q0 s1 H1).
    unfold bindM at 1.
    destruct (loop fuel T_old (interval config) q0 s1) as [[[]|e] s2];
      [|exact Hloop].
    unfold bindM, gets, lift, ret.
    destruct (get_latest_acc (records s2)); [|exact Hloop].
    destruct (get_latest_t (records s2)); exact Hloop. }
  destruct (async_round config sample_delay random_sample get_report
                        test_model fuel round T_old (interval config) s0)
    as [[[acc T_new]|e] s1]; cbn [snd] in Hround |- *; [|exact Hround].
  destruct (target_reached config acc); [exact Hround|apply IH; exact Hround].
Qed.

End RoundTime.

Lemma async_round_overshoot_witness :
  0 + 1 < 0 + 1 + 1 <= 0 + 1 + 1.
Proof.
  apply (@async_round_overshoot R scalar_tensor (async_config 1)
           (constant_delay 1) (first_clients 1) unit_report fixed_accuracy
           1 5 1 0 1 fresh_server 0.5 (0 + 1 + 1)).
  - discriminate.
  - intros c k. unfold constant_delay. lra.
  - intros c d Hc. discriminate.
  - lra.
  - evaluate. reflexivity.
Defined.

(** ** Sending the clients their data *)

Section LoadingProofs.

Variable cfg : DataConfig.
Variable randint : Z -> Z -> nat -> Z.

Ltac loader_cases :=
  destruct (String.eqb_spec (loader cfg) "shard") as [Eshard|Eshard];
  destruct (String.eqb_spec (loader cfg) "basic") as [Ebasic|Ebasic];
  destruct (String.eqb_spec (loader cfg) "bias") as [Ebias|Ebias];
  try congruence.

Lemma size_from_range_cases (trace : list call) :
  (exists n calls, size_from_range cfg randint trace
                   = (Done (Some n), trace ++ calls) /\ only_probes calls /\
                   match partition_range cfg with
                   | Some (start, stop) => (stop <? start)%Z = false
                   | None => False
                   end) \/
  (size_from_range cfg randint trace = (Done None, trace) /\
   partition_range cfg = None) \/
  (exists calls, size_from_range cfg randint trace
                 = (Failed EmptyRange, trace ++ calls) /\ only_probes calls /\
                 match partition_range cfg with
                 | Some (start, stop) => (stop <? start)%Z = true
                 | None => False
                 end).
Proof.
  unfold size_from_range.
  destruct (partition_range cfg) as [[start stop]|]; [|auto].
  destruct (stop <? start)%Z eqn:E.
  - right. right. exists [RandInt start stop]. split; [reflexivity|].
    split; [|reflexivity]. constructor; [|constructor]. right. eauto.
  - left. eexists. exists [RandInt start stop]. split; [reflexivity|].
    split; [|reflexivity]. constructor; [|constructor]. right. eauto.
Qed.

(** With a usable size, a loader other than 'shard' binds
    [partition_size]. *)
Lemma choose_partition_size_usable (trace : list call) :
  (loader cfg =? "shard")%string = false -> usable_size cfg = true ->
  exists n calls,
    choose_partition_size cfg randint trace = (Done (Some n), trace ++ calls) /\
    only_probes calls.
Proof.
  intros Hshard Hsize. unfold choose_partition_size. rewrite Hshard.
  unfold usable_size in Hsize.
  destruct (partition_size cfg) as [n|].
  - destruct (n =? 0)%Z.
    + cbn [negb orb] in Hsize.
      destruct (size_from_range_cases trace)
        as [(m & calls & Hr & Hp & _)|[(_ & Hnone)|(calls & _ & _ & Hbad)]].
      * eauto.
      * rewrite Hnone in Hsize. discriminate.
      * destruct (partition_range cfg) as [[a b]|]; [|contradiction].
        rewrite Hbad in Hsize. discriminate.
    + exists n, []. rewrite app_nil_r. split; [reflexivity|constructor].
  - cbn [orb] in Hsize.
    destruct (size_from_range_cases trace)
      as [(m & calls & Hr & Hp & _)|[(_ & Hnone)|(calls & _ & _ & Hbad)]].
    + eauto.
    + rewrite Hnone in Hsize. discriminate.
    + destruct (partition_range cfg) as [[a b]|]; [|contradiction].
      rewrite Hbad in Hsize. discriminate.
Qed.

(** Without one it leaves [partition_size] unbound or stops at
    [random.randint]. *)
Lemma choose_partition_size_unusable (trace : list call) :
  usable_size cfg = false ->
  exists calls,
    only_probes calls /\
    (choose_partition_size cfg randint trace = (Done None, trace ++ calls) \/
     choose_partition_size cfg randint trace
     = (Failed EmptyRange, trace ++ calls)).
Proof.
  intros Hsize. unfold choose_partition_size.
  destruct (loader cfg =? "shard")%string.
  { exists []. rewrite app_nil_r. split; [constructor|auto]. }
  unfold usable_size in Hsize. apply orb_false_elim in Hsize as [Hs Hr].
  assert (Hrange : exists calls,
             only_probes calls /\
             (size_from_range cfg randint trace = (Done None, trace ++ calls) \/
              size_from_range cfg randint trace
              = (Failed EmptyRange, trace ++ calls))).
  { destruct (size_from_range_cases trace)
      as [(m & calls & _ & _ & Hgood)|[(Hnone & _)|(calls & Hbad & Hp & _)]].
    - destruct (partition_range cfg) as [[a b]|]; [|contradiction].
      rewrite Hgood in Hr. discriminate.
    - exists []. rewrite app_nil_r. split; [constructor|auto].
    - eauto. }
  destruct (partition_size cfg) as [n|]; [|exact Hrange].
  destruct (n =? 0)%Z; [exact Hrange|discriminate].
Qed.

Lemma sent_app (calls1 calls2 : list call) :
  sent (calls1 ++ calls2) = sent calls1 ++ sent calls2.
Proof.
  unfold sent. apply flat_map_app.
Qed.

Lemma sent_probes (calls : list call) : only_probes calls -> sent calls = [].
Proof.
  induction 1 as [|c calls [->|(a & b & ->)] _ IH]; cbn; auto.
Qed.

Lemma set_client_data_sends (client : nat) (trace : list call) :
  can_send cfg = true ->
  exists calls,
    set_client_data cfg randint client trace
    = (Done tt, trace ++ calls ++ [SetData client]) /\
    sent calls = [].
Proof.
  unfold can_send, set_client_data, and_then. intros Hcan.
  loader_cases; cbn [orb andb] in Hcan; try discriminate.
  - unfold choose_partition_size.
    destruct (String.eqb_spec (loader cfg) "shard"); [|contradiction].
    unfold emit, read_local. exists [GetShardPartition].
    rewrite <- !app_assoc. split; reflexivity.
  - destruct (@choose_partition_size_usable trace) as (n & calls & Hc & Hp).
    { apply String.eqb_neq. exact Eshard. }
    { exact Hcan. }
    rewrite Hc. unfold emit, read_local. exists (calls ++ [GetPartition n]).
    rewrite <- !app_assoc. split; [reflexivity|].
    rewrite sent_app, (sent_probes Hp). reflexivity.
  - destruct (@choose_partition_size_usable trace) as (n & calls & Hc & Hp).
    { apply String.eqb_neq. exact Eshard. }
    { exact Hcan. }
    rewrite Hc. unfold emit, read_local.
    exists (calls ++ [GetBiasPartition n client]).
    rewrite <- !app_assoc. split; [reflexivity|].
    rewrite sent_app, (sent_probes Hp). reflexivity.
Qed.

Lemma set_client_data_stops (client : nat) (trace : list call) :
  can_send cfg = false ->
  exists e calls,
    set_client_data cfg randint client trace = (Failed e, trace ++ calls) /\
    only_probes calls.
Proof.
  unfold can_send, set_client_data, and_then. intros Hcan.
  loader_cases; cbn [orb andb] in Hcan; try discriminate.
  - destruct (@choose_partition_size_unusable trace Hcan)
      as (calls & Hp & [Hc|Hc]); rewrite Hc; unfold read_local; eauto.
  - destruct (@choose_partition_size_unusable trace Hcan)
      as (calls & Hp & [Hc|Hc]); rewrite Hc; unfold read_local; eauto.
  - unfold choose_partition_size.
    destruct (String.eqb_spec (loader cfg) "shard"); [contradiction|].
    assert (Hsize : exists r calls,
               match partition_size cfg with
               | Some n => if (n =? 0)%Z then size_from_range cfg randint
                           else fun trace => (Done (Some n), trace)
               | None => size_from_range cfg randint
               end trace = (r, trace ++ calls) /\ only_probes calls).
    { assert (Hrange : exists r calls,
                 size_from_range cfg randint trace = (r, trace ++ calls) /\
                 only_probes calls).
      { destruct (size_from_range_cases trace)
          as [(m & calls & Hr & Hp & _)|[(Hr & _)|(calls & Hr & Hp & _)]];
          eauto.
        exists (Done None), []. rewrite app_nil_r. split; [auto|constructor]. }
      destruct (partition_size cfg) as [m|]; [|exact Hrange].
      destruct (m =? 0)%Z; [exact Hrange|].
      exists (Done (Some m)), []. rewrite app_nil_r.
      split; [auto|constructor]. }
    destruct Hsize as (r & calls & -> & Hp).
    destruct r as [size|e]; [|eauto].
    unfold emit, read_local.
    exists (UnboundLocalError "data"), (calls ++ [LogCritical]).
    rewrite <- app_assoc. split; [reflexivity|].
    apply Forall_app. split; [exact Hp|]. constructor; [auto|constructor].
Qed.

Lemma configure_clients_static (final : nat -> call) (clients : list nat) :
  (loading cfg =? "dynamic")%string = false ->
  forall trace,
    configure_clients cfg randint final clients trace
    = (Done tt, trace ++ map final clients).
Proof.
  intros Hstatic.
  induction clients as [|c clients IH]; intros trace;
    cbn [configure_clients map].
  - rewrite app_nil_r. reflexivity.
  - rewrite Hstatic. unfold and_then, emit. rewrite IH, <- app_assoc.
    reflexivity.
Qed.

Lemma configure_clients_sends (final : nat -> call) (clients : list nat) :
  can_send cfg = true ->
  (forall c, sent [final c] = []) ->
  forall trace,
    exists calls,
      configure_clients cfg randint final clients trace
      = (Done tt, trace ++ calls) /\
      (forall c, In c clients -> In (final c) calls) /\
      ((loading cfg =? "dynamic")%string = true -> sent calls = clients).
Proof.
  intros Hcan Hfinal.
  induction clients as [|c clients IH]; intros trace; cbn [configure_clients].
  - exists []. rewrite app_nil_r. split; [reflexivity|].
    split; [intros c []|reflexivity].
  - destruct (loading cfg =? "dynamic")%string.
    + destruct (set_client_data_sends c trace Hcan) as (calls & Hc & Hs).
      unfold and_then at 1. rewrite Hc. unfold and_then, emit.
      destruct (IH (((trace ++ calls ++ [SetData c]) ++ [final c])))
        as (calls' & Hrest & Hall & Hsent).
      rewrite Hrest.
      exists (calls ++ [SetData c] ++ [final c] ++ calls').
      rewrite <- !app_assoc. split; [reflexivity|]. split.
      * intros c' [<-|Hc'].
        -- apply in_or_app. right. right. left. reflexivity.
        -- apply in_or_app. right. right. right. apply Hall. exact Hc'.
      * intros _. rewrite !sent_app, Hs, Hfinal, (Hsent eq_refl).
        reflexivity.
    + unfold and_then, emit.
      destruct (IH (trace ++ [final c])) as (calls' & Hrest & Hall & _).
      rewrite Hrest. exists ([final c] ++ calls').
      rewrite <- !app_assoc. split; [reflexivity|]. split; [|discriminate].
      intros c' [<-|Hc'].
      * left. reflexivity.
      * right. apply Hall. exact Hc'.
Qed.

Lemma send_all_sends (clients : list nat) :
  can_send cfg = true ->
  forall trace,
    exists calls,
      send_all cfg randint clients trace = (Done tt, trace ++ calls) /\
      sent calls = clients.
Proof.
  intros Hcan.
  induction clients as [|c clients IH]; intros trace; cbn [send_all].
  - exists []. rewrite app_nil_r. split; reflexivity.
  - destruct (set_client_data_sends c trace Hcan) as (calls & Hc & Hs).
    unfold and_then. rewrite Hc.
    destruct (IH (trace ++ calls ++ [SetData c])) as (calls' & Hrest & Hsent).
    rewrite Hrest. exists (calls ++ [SetData c] ++ calls').
    rewrite <- !app_assoc. split; [reflexivity|].
    rewrite !sent_app, Hs, Hsent. reflexivity.
Qed.

Lemma configure_clients_stops (final : nat -> call) (clients : list nat)
      (trace : list call) :
  can_send cfg = false -> (loading cfg =? "dynamic")%string = true ->
  clients <> [] ->
  exists e calls,
    configure_clients cfg randint final clients trace
    = (Failed e, trace ++ calls) /\ only_probes calls.
Proof.
  intros Hcan Hdyn Hne. destruct clients as [|c clients]; [congruence|].
  cbn [configure_clients]. rewrite Hdyn.
  destruct (set_client_data_stops c trace Hcan) as (e & calls & Hc & Hp).
  unfold and_then. rewrite Hc. eauto.
Qed.

Lemma create_shards_when_dynamic (trace : list call) :
  can_send cfg = false ->
  create_shards_when cfg "dynamic" trace = (Done tt, trace).
Proof.
  unfold can_send, create_shards_when. intros Hcan.
  destruct (loading cfg =? "dynamic")%string; [|reflexivity].
  destruct (loader cfg =? "shard")%string; [discriminate|reflexivity].
Qed.

(** Configuration is all or nothing.  Under a configuration that allows
    a client to be sent its data (the 'shard' loader, or the 'basic' or
    'bias' loader with a partition size that is set and not 0 or a range
    that is not empty), or with loading that is not dynamic, both
    configuration routines configure every client of the batch; under
    any other, with dynamic loading, they stop at the first client with an
    exception ([UnboundLocalError] of [partition_size] or [data], or the
    [ValueError] of an empty range), before any client is sent data or
    configured. *)
Theorem configuration_all_or_nothing (sample_clients : list nat)
        (download_time : R) (trace : list call) :
  (can_send cfg = true \/ (loading cfg =? "dynamic")%string = false ->
   (exists calls,
      configuration cfg randint sample_clients trace
      = (Done tt, trace ++ calls) /\
      forall c, In c sample_clients -> In (Configure c) calls) /\
   (exists calls,
      async_configuration cfg randint sample_clients download_time trace
      = (Done tt, trace ++ calls) /\
      forall c, In c sample_clients ->
                In (AsyncConfigure c download_time) calls)) /\
  (can_send cfg = false -> (loading cfg =? "dynamic")%string = true ->
   sample_clients <> [] ->
   (exists e calls,
      configuration cfg randint sample_clients trace
      = (Failed e, trace ++ calls) /\ only_probes calls) /\
   (exists e calls,
      async_configuration cfg randint sample_clients download_time trace
      = (Failed e, trace ++ calls) /\ only_probes calls)).
Proof.
  split.
  - intros Hgood.
    assert (Hall : forall final,
               (forall c, sent [final c] = []) ->
               exists calls,
                 and_then (create_shards_when cfg "dynamic")
                          (fun _ => configure_clients cfg randint final
                                                      sample_clients) trace
                 = (Done tt, trace ++ calls) /\
                 forall c, In c sample_clients -> In (final c) calls).
    { intros final Hf. unfold and_then, create_shards_when.
      destruct (loading cfg =? "dynamic")%string eqn:Hdyn.
      - destruct Hgood as [Hcan|Hstatic]; [|discriminate].
        destruct (loader cfg =? "shard")%string; unfold emit.
        + destruct (@configure_clients_sends final sample_clients Hcan
                      Hf (trace ++ [CreateShards]))
            as (calls & Hc & Hin & _).
          rewrite Hc. exists ([CreateShards] ++ calls).
          rewrite <- app_assoc. split; [reflexivity|].
          intros c Hc'. right. apply Hin. exact Hc'.
        + destruct (@configure_clients_sends final sample_clients Hcan
                      Hf trace) as (calls & Hc & Hin & _).
          eauto.
      - rewrite configure_clients_static by exact Hdyn.
        exists (map final sample_clients). split; [reflexivity|].
        intros c Hc. apply in_map. exact Hc. }
    split; apply Hall; intros c; reflexivity.
  - intros Hcan Hdyn Hne.
    unfold configuration, async_configuration, and_then.
    rewrite create_shards_when_dynamic by exact Hcan.
    split; apply configure_clients_stops; auto.
Qed.

(** Under a configuration that allows it, every client is sent its data
    exactly once, in order: when the clients are made if loading is
    static, at each configuration of a batch if loading is dynamic.
    Making the clients touches nothing when loading is not static, and
    configuration only calls [configure] on the clients of the batch when
    loading is not dynamic: with a loading that is neither, no client is
    ever sent data, and nothing fails. *)
Theorem data_is_sent_once (clients sample_clients : list nat)
        (trace : list call) :
  can_send cfg = true ->
  (loading cfg = "static"%string ->
   exists calls,
     static_loading cfg randint clients trace = (Done tt, trace ++ calls) /\
     sent calls = clients) /\
  (loading cfg <> "static"%string ->
   static_loading cfg randint clients trace = (Done tt, trace)) /\
  (loading cfg = "dynamic"%string ->
   exists calls,
     configuration cfg randint sample_clients trace
     = (Done tt, trace ++ calls) /\
     sent calls = sample_clients) /\
  (loading cfg <> "dynamic"%string ->
   configuration cfg randint sample_clients trace
   = (Done tt, trace ++ map Configure sample_clients)).
Proof.
  intros Hcan. split; [|split; [|split]].
  - intros Hstatic. unfold static_loading, create_shards_when, and_then.
    rewrite Hstatic. cbn [String.eqb Ascii.eqb Bool.eqb].
    destruct (loader cfg =? "shard")%string; unfold emit.
    + destruct (@send_all_sends clients Hcan (trace ++ [CreateShards]))
        as (calls & Hc & Hs).
      rewrite Hc. exists ([CreateShards] ++ calls). rewrite <- app_assoc.
      split; [reflexivity|]. rewrite sent_app, Hs. reflexivity.
    + exact (@send_all_sends clients Hcan trace).
  - intros Hother. unfold static_loading.
    destruct (String.eqb_spec (loading cfg) "static"); [contradiction|].
    reflexivity.
  - intros Hdyn. unfold configuration, create_shards_when, and_then.
    rewrite Hdyn. cbn [String.eqb Ascii.eqb Bool.eqb].
    assert (Hd : (loading cfg =? "dynamic")%string = true)
      by (rewrite Hdyn; reflexivity).
    destruct (loader cfg =? "shard")%string; unfold emit.
    + destruct (@configure_clients_sends Configure sample_clients Hcan
                  (fun _ => eq_refl) (trace ++ [CreateShards]))
        as (calls & Hc & _ & Hs).
      rewrite Hc. exists ([CreateShards] ++ calls). rewrite <- app_assoc.
      split; [reflexivity|]. rewrite sent_app, (Hs Hd). reflexivity.
    + destruct (@configure_clients_sends Configure sample_clients Hcan
                  (fun _ => eq_refl) trace) as (calls & Hc & _ & Hs).
      exists calls. split; [exact Hc|exact (Hs Hd)].
  - intros Hother.
    assert (Hd : (loading cfg =? "dynamic")%string = false)
      by (apply String.eqb_neq; exact Hother).
    unfold configuration, create_shards_when, and_then. rewrite Hd.
    apply configure_clients_static. exact Hd.
Qed.

End LoadingProofs.

Lemma data_is_sent_once_witness :
  (loading shard_config = "static"%string ->
   exists calls,
     static_loading shard_config lowest [0%nat; 1%nat] []
     = (Done tt, [] ++ calls) /\
     sent calls = [0%nat; 1%nat]) /\
  (loading shard_config <> "static"%string ->
   static_loading shard_config lowest [0%nat; 1%nat] [] = (Done tt, [])) /\
  (loading shard_config = "dynamic"%string ->
   exists calls,
     configuration shard_config lowest [0%nat] [] = (Done tt, [] ++ calls) /\
     sent calls = [0%nat]) /\
  (loading shard_config <> "dynamic"%string ->
   configuration shard_config lowest [0%nat] []
   = (Done tt, [] ++ map Configure [0%nat])).
Proof.
  apply (@data_is_sent_once shard_config lowest [0%nat; 1%nat] [0%nat] []).
  reflexivity.
Defined.

Lemma configuration_all_or_nothing_witness :
  (exists e calls,
     configuration unsized_config lowest [0%nat; 1%nat] []
     = (Failed e, [] ++ calls) /\ only_probes calls) /\
  (exists e calls,
     async_configuration unsized_config lowest [0%nat; 1%nat] 3 []
     = (Failed e, [] ++ calls) /\ only_probes calls).
Proof.
  apply (proj2 (@configuration_all_or_nothing unsized_config lowest
                  [0%nat; 1%nat] 3 [])).
  - reflexivity.
  - reflexivity.
  - discriminate.
Defined.

(** ** The diagnostic reports *)

Lemma dict_set_twice {V} (key : string) (v1 v2 : V) (d : list (string * V)) :
  dict_set key v2 (dict_set key v1 d) = dict_set key v2 d.
Proof.
  induction d as [|[k v] d IH]; cbn [dict_set].
  - rewrite String.eqb_refl. reflexivity.
  - destruct (k =? key)%string eqn:E; cbn [dict_set].
    + rewrite String.eqb_refl. reflexivity.
    + rewrite E, IH. reflexivity.
Qed.

(** Setting a key that is in the dict keeps its place. *)
Lemma dict_set_swap {V} (k1 k2 : string) (v0 v u : V) (d : list (string * V)) :
  k1 <> k2 ->
  dict_set k1 v (dict_set k2 u (dict_set k1 v0 d))
  = dict_set k2 u (dict_set k1 v d).
Proof.
  intros Hne.
  assert (H12 : (k1 =? k2)%string = false) by (apply String.eqb_neq; auto).
  induction d as [|[k x] d IH]; cbn [dict_set].
  - rewrite H12. cbn [dict_set]. rewrite String.eqb_refl. reflexivity.
  - destruct (String.eqb_spec k k1) as [->|Hk1]; cbn [dict_set].
    + rewrite H12. cbn [dict_set]. rewrite String.eqb_refl. reflexivity.
    + destruct (String.eqb_spec k k2) as [->|Hk2]; cbn [dict_set].
      * assert (H21 : (k2 =? k1)%string = false)
          by (apply String.eqb_neq; auto).
        rewrite H21, dict_set_twice. reflexivity.
      * assert (Hk1' : (k =? k1)%string = false)
          by (apply String.eqb_neq; auto).
        assert (Hk2' : (k =? k2)%string = false)
          by (apply String.eqb_neq; auto).
        rewrite Hk1', IH. reflexivity.
Qed.

Lemma dict_get_set {V} (key : string) (v : V) (d : list (string * V)) :
  dict_get key (dict_set key v d) = Some v.
Proof.
  induction d as [|[k x] d IH]; cbn [dict_set dict_get].
  - rewrite String.eqb_refl. reflexivity.
  - destruct (k =? key)%string eqn:E; cbn [dict_get].
    + rewrite String.eqb_refl. reflexivity.
    + rewrite E. exact IH.
Qed.

Lemma dict_get_set_other {V} (key key' : string) (v : V)
      (d : list (string * V)) :
  key <> key' -> dict_get key' (dict_set key v d) = dict_get key' d.
Proof.
  intros Hne.
  assert (Hkk : (key =? key')%string = false) by (apply String.eqb_neq; auto).
  induction d as [|[k x] d IH]; cbn [dict_set dict_get].
  - rewrite Hkk. reflexivity.
  - destruct (String.eqb_spec k key) as [->|Hk]; cbn [dict_get].
    + rewrite Hkk. reflexivity.
    + rewrite IH. reflexivity.
Qed.

Lemma append_inj (p a b : string) : (p ++ a = p ++ b)%string -> a = b.
Proof.
  induction p as [|c p IH]; cbn [append]; [auto|].
  intros [= E]. auto.
Qed.

Lemma format_int_inj (prefix : string) (n n' : nat) :
  format_int prefix n = format_int prefix n' -> n = n'.
Proof.
  unfold format_int. intros E. apply append_inj in E.
  apply Unsigned.to_uint_inj.
  pose proof (NilEmpty.usu (Nat.to_uint n)) as H1.
  pose proof (NilEmpty.usu (Nat.to_uint n')) as H2.
  rewrite E in H1. congruence.
Qed.

Lemma round_key_not_w (n n' : nat) : format_int "round" n <> format_int "w" n'.
Proof.
  unfold format_int. cbn [append]. discriminate.
Qed.

Section DiagnosticsProofs.

Context {T : Type}.

Variable tolist : T -> list R.

Lemma flatten_weights_concat (weights : Weights T) :
  flatten_weights tolist weights
  = concat (map (fun nw => tolist (snd nw)) weights).
Proof.
  unfold flatten_weights.
  assert (Hgen : forall acc,
             fold_left (fun weight_vecs (nw : string * T) =>
                          weight_vecs ++ tolist (snd nw)) weights acc
             = acc ++ concat (map (fun nw => tolist (snd nw)) weights)).
  { induction weights as [|nw weights IH]; intros acc;
      cbn [fold_left map concat].
    - rewrite app_nil_r. reflexivity.
    - rewrite IH, <- app_assoc. reflexivity. }
  apply Hgen.
Qed.

Lemma save_reports_twice (round : nat) (reports1 reports2 : list (Report T))
      (model1 model2 : Weights T) (d : list (string * saved)) :
  reports1 <> [] -> reports2 <> [] ->
  save_reports tolist round reports2 model2
               (save_reports tolist round reports1 model1 d)
  = save_reports tolist round reports2 model2 d.
Proof.
  intros H1 H2. unfold save_reports.
  destruct reports1 as [|r1 rs1]; [congruence|].
  destruct reports2 as [|r2 rs2]; [congruence|].
  rewrite (@dict_set_swap _ (format_int "round" round) (format_int "w" round))
    by apply round_key_not_w.
  rewrite dict_set_twice. reflexivity.
Qed.

(** Within an async round the diagnostics keep the last turn only: every
    turn saves its reports and the global weights under the keys of the
    round, so that after the turns of a round [saved_reports] is what the
    last turn alone would have left; the reports of the earlier turns are
    gone. *)
Theorem async_round_keeps_last_turn (round : nat)
        (turns : list (list (Report T) * Weights T))
        (reports : list (Report T)) (model : Weights T)
        (d : list (string * saved)) :
  Forall (fun turn => fst turn <> []) turns -> reports <> [] ->
  saved_in_round tolist round (turns ++ [(reports, model)]) d
  = save_reports tolist round reports model d.
Proof.
  intros Hturns Hne. unfold saved_in_round. revert d.
  induction Hturns as [|[reports1 model1] turns H1 _ IH]; intros d;
    cbn [app fold_left fst snd].
  - reflexivity.
  - rewrite IH. apply save_reports_twice; auto.
Qed.

(** What [save_reports] leaves: the flattened global weights (the entries
    of the tensors of the model, in order) under ['w<round>'], the
    flattened weights of each report with its client under
    ['round<round>'] unless the batch is empty, and the entries of every
    other round as they were. *)
Theorem save_reports_entries (round : nat) (reports : list (Report T))
        (model : Weights T) (d : list (string * saved)) :
  let flat := fun w : Weights T => concat (map (fun nw => tolist (snd nw)) w) in
  let d' := save_reports tolist round reports model d in
  dict_get (format_int "w" round) d' = Some (GlobalVector (flat model)) /\
  dict_get (format_int "round" round) d'
  = match reports with
    | [] => dict_get (format_int "round" round) d
    | _ :: _ =>
        Some (ClientVectors
                (map (fun r => (client_id r, flat (weights r))) reports))
    end /\
  forall round', round' <> round ->
    dict_get (format_int "round" round') d'
    = dict_get (format_int "round" round') d /\
    dict_get (format_int "w" round') d' = dict_get (format_int "w" round') d.
Proof.
  cbv zeta. unfold save_reports. split; [|split].
  - rewrite dict_get_set, flatten_weights_concat. reflexivity.
  - rewrite dict_get_set_other
      by (intros E; symmetry in E; exact (round_key_not_w E)).
    destruct reports as [|r rs]; [reflexivity|].
    rewrite dict_get_set. do 2 f_equal.
    apply map_ext. intros r'. rewrite flatten_weights_concat. reflexivity.
  - intros round' Hne. split.
    + rewrite dict_get_set_other
        by (intros E; symmetry in E; exact (round_key_not_w E)).
      destruct reports as [|r rs]; [reflexivity|].
      apply dict_get_set_other. intros E. apply format_int_inj in E. auto.
    + rewrite dict_get_set_other
        by (intros E; apply format_int_inj in E; auto).
      destruct reports as [|r rs]; [reflexivity|].
      apply dict_get_set_other. apply round_key_not_w.
Qed.

End DiagnosticsProofs.

Lemma async_round_keeps_last_turn_witness :
  saved_in_round scalar_tolist 1
                 ([([unit_report 0 0], [("w"%string, 1)])]
                  ++ [([unit_report 1 1], [("w"%string, 1)])]) []
  = save_reports scalar_tolist 1 [unit_report 1 1] [("w"%string, 1)] [].
Proof.
  apply (@async_round_keeps_last_turn R scalar_tolist 1
           [([unit_report 0 0], [("w"%string, 1)])]
           [unit_report 1 1] [("w"%string, 1)] []).
  - repeat constructor. discriminate.
  - discriminate.
Defined.
